(** * Hierarchical drill-down crosstab: a shallow embedding

    Source: [src/hierarchical-crosstab.js].  The extension reads the summary
    data of a worksheet, classifies the columns, folds the flat rows into a
    nested tree keyed by the hierarchy values, and renders the part of the
    tree that the set of expanded nodes makes visible.

    Modelling choices.
    - A JavaScript object used as a dictionary ([tree], [children],
      [measures]) is a [gmap string _] of its own properties; the [Set] of
      expanded path keys is a [gset string].  Every such object is made by
      a literal [{}], so that a read finds the members of
      [Object.prototype] under the names the object does not have itself,
      and an assignment to [__proto__] runs the inherited setter.
    - Strings are sequences of code units below 256, compared
      lexicographically, which is what [Array.prototype.sort] does without a
      comparator.
    - A cell value is [null], [undefined], a string or a number.  Numbers
      are stored, copied and used as property keys by the code under
      study, never computed with; a number is given by the text that the
      conversion to a string yields for it (["100"], ["0.5"], ["1e+21"]).
    - A thrown [TypeError] is the result [None].
    - [forEach] with a callback that assigns to outer variables is a fold
      that passes those variables along as state.  The builder's cursor
      [currentLevel], a reference into the tree it mutates or
      [undefined], is the list of keys from the root to the object it
      refers to, or nothing.
    - The module-level variables are passed explicitly; [state] collects
      them for the two entry points that mutate them. *)

From stdpp Require Import gmap strings list fin_maps sorting.

#[local] Set Warnings "-register-all,-clear-no-such-hyp".

(** ** Data supplied by the worksheet *)

Inductive value :=
  | VNull
  | VUndefined
  | VStr (s : string)
  | VNum (text : string).

#[global] Instance value_eq_dec : EqDecision value.
Proof. solve_decision. Defined.

(** A column of the data table: [col.index], [col.fieldName],
    [col.dataType]. *)
Record column := Column {
  col_index : nat;
  col_fieldName : string;
  col_dataType : string
}.

(** The object literal [{ index: col.index, fieldName: col.fieldName }]. *)
Record field := Field {
  index : nat;
  fieldName : string
}.

#[global] Instance field_eq_dec : EqDecision field.
Proof. solve_decision. Defined.

(** [value === null || value === undefined || value === '%null%'] *)
Definition isNullValue (v : value) : bool :=
  match v with
  | VNull | VUndefined => true
  | VStr s => bool_decide (s = "%null%")
  | VNum _ => false
  end.

(** [measureValue !== null && measureValue !== undefined] *)
Definition isPresent (v : value) : bool :=
  match v with
  | VNull | VUndefined => false
  | VStr _ | VNum _ => true
  end.

(** The property key a value is coerced to in [currentLevel[value]]. *)
Definition propertyKey (v : value) : string :=
  match v with
  | VNull => "null"
  | VUndefined => "undefined"
  | VStr s => s
  | VNum text => text
  end.

(** ** Plain objects *)

(** The names a plain object inherits from [Object.prototype]. *)
Definition objectPrototypeNames : list string :=
  [ "constructor"; "__defineGetter__"; "__defineSetter__"; "hasOwnProperty";
    "__lookupGetter__"; "__lookupSetter__"; "isPrototypeOf";
    "propertyIsEnumerable"; "toString"; "valueOf"; "__proto__";
    "toLocaleString" ].

Definition inherited (key : string) : bool :=
  bool_decide (key ∈ objectPrototypeNames).

(** [obj[key]] is a member of [Object.prototype]: the object has no
    property of its own under the key, and the key is an inherited name.
    Every such member is a function, or for [__proto__] the prototype
    object itself: a true value without a [measures] or a [children]
    property. *)
Definition inheritedMember {A} (obj : gmap string A) (key : string) : bool :=
  bool_decide (obj !! key = None) && inherited key.

(** [obj[key] = v] for a [v] that is a string or a number.  The inherited
    methods are writable, so the assignment makes a property of the
    object; [__proto__] is inherited as an accessor, and its setter
    ignores such a [v]. *)
Definition setProperty (obj : gmap string value) (key : string) (v : value)
  : gmap string value :=
  if bool_decide (key = "__proto__") && bool_decide (obj !! key = None)
  then obj
  else <[key := v]> obj.

(** ** Tree nodes *)

Inductive node := Node {
  name : value;
  level : nat;
  measures : gmap string value;
  children : gmap string node;
  hasChildren : bool
}.

(** ** identifyFieldTypes *)

Definition isHierarchyType (t : string) : bool :=
  bool_decide (t = "string") || bool_decide (t = "date-time")
  || bool_decide (t = "date").

Definition isMeasureType (t : string) : bool :=
  bool_decide (t = "float") || bool_decide (t = "int").

Definition toField (col : column) : field :=
  Field (col_index col) (col_fieldName col).

(** One turn of [columns.forEach]: the pair is
    [(hierarchyFields, measureFields)], [push] appends. *)
Definition classifyColumn (acc : list field * list field) (col : column)
  : list field * list field :=
  if isHierarchyType (col_dataType col) then (acc.1 ++ [toField col], acc.2)
  else if isMeasureType (col_dataType col) then (acc.1, acc.2 ++ [toField col])
  else acc.

Definition identifyFieldTypes (columns : list column)
  : list field * list field :=
  foldl classifyColumn ([], []) columns.

(** ** Loops *)

(** [array.forEach(callback)] for a callback that reads and writes the
    variables of the enclosing function, here the state [s], and that may
    throw.  A [return] inside the callback ends that turn and nothing
    else. *)
Fixpoint forEach {St A : Type} (callback : St → A → option St)
    (array : list A) (s : St) : option St :=
  match array with
  | [] => Some s
  | x :: rest => s' ← callback s x; forEach callback rest s'
  end.

(** ** buildHierarchicalTree *)

(** One turn of [measureFields.forEach(measure => ...)] on the measures
    object of a node. *)
Definition storeMeasure (row : list value) (ms : gmap string value)
    (measure : field) : option (gmap string value) :=
  measureValue ← row !! index measure;
  Some (if isPresent measureValue
        then setProperty ms (fieldName measure) measureValue
        else ms).

Definition storeMeasures (measureFields : list field) (row : list value)
    (ms : gmap string value) : option (gmap string value) :=
  forEach (storeMeasure row) measureFields ms.

(** The node literal created when [currentLevel[value]] is missing;
    [n] is [hierarchyFields.length]. *)
Definition newNode (n : nat) (value : value) (levelIndex : nat) : node :=
  Node value levelIndex ∅ ∅
       (bool_decide (Z.of_nat levelIndex < Z.of_nat n - 1)%Z).

(** One turn of [measureFields.forEach(measure => ...)] when
    [currentLevel[value]] is a member of [Object.prototype]: its [measures]
    is [undefined], and the assignment to a property of [undefined]
    throws. *)
Definition storeOnMember (row : list value) (_ : unit) (measure : field)
  : option unit :=
  measureValue ← row !! index measure;
  if isPresent measureValue then None else Some ().

Definition readMeasures (measureFields : list field) (row : list value)
  : option unit :=
  forEach (storeOnMember row) measureFields ().

(** The variable [currentLevel] refers to the root object or to the
    [children] object of a node, until it becomes [undefined].  Each of these objects is made by its own
    literal and stored in one place, so the tree has no sharing and a
    reference is determined by the keys that lead to it from the root:
    the cursor is that list of keys.  [atCursor] runs an update on the
    object the cursor refers to, in place. *)
Fixpoint atCursor (cursor : list string)
    (update : gmap string node → option (gmap string node))
    (tree : gmap string node) : option (gmap string node) :=
  match cursor with
  | [] => update tree
  | key :: rest =>
      nd ← tree !! key;
      cs ← atCursor rest update (children nd);
      Some (<[key := Node (name nd) (level nd) (measures nd) cs
                          (hasChildren nd)]> tree)
  end.

(** The object a cursor refers to. *)
Fixpoint objectAt (cursor : list string) (tree : gmap string node)
  : option (gmap string node) :=
  match cursor with
  | [] => Some tree
  | key :: rest => nd ← tree !! key; objectAt rest (children nd)
  end.

(** The statements of the callback between the null test and the move of
    the cursor: make the node if [currentLevel[value]] is false, then
    write the measures.  Where [currentLevel[value]] is an inherited
    member, no node is made and the measure loop runs on that member. *)
Definition touchNode (n : nat) (measureFields : list field)
    (row : list value) (levelIndex : nat) (value : value)
    (currentLevel : gmap string node) : option (gmap string node) :=
  let key := propertyKey value in
  if inheritedMember currentLevel key then
    _ ← readMeasures measureFields row;
    Some currentLevel
  else
    let nd := default (newNode n value levelIndex) (currentLevel !! key) in
    ms ← storeMeasures measureFields row (measures nd);
    Some (<[key := Node (name nd) (level nd) ms (children nd)
                        (hasChildren nd)]> currentLevel).

(** One turn of [hierarchyFields.forEach((field, levelIndex) => ...)].
    The state is the tree and the cursor, [None] when [currentLevel] is
    [undefined]: then [currentLevel[value]] throws.  The last statement
    reads [currentLevel[value].children], which is [undefined] for an
    inherited member. *)
Definition visitLevel (n : nat) (measureFields : list field)
    (row : list value) (st : gmap string node * option (list string))
    (lf : nat * field) : option (gmap string node * option (list string)) :=
  value ← row !! index lf.2;
  if isNullValue value then
    Some st
  else
    cursor ← st.2;
    tree ← atCursor cursor (touchNode n measureFields row lf.1 value) st.1;
    currentLevel ← objectAt cursor tree;
    Some (tree,
          if inheritedMember currentLevel (propertyKey value) then None
          else Some (cursor ++ [propertyKey value])).

(** The fields with their positions, as [forEach] hands them over. *)
Definition indexed (fields : list field) : list (nat * field) :=
  imap (λ i f, (i, f)) fields.

(** The loop over a list of levels for one row, from [currentLevel = tree]. *)
Definition visitLevels (n : nat) (measureFields : list field)
    (row : list value) (levels : list (nat * field))
    (tree : gmap string node) : option (gmap string node) :=
  st ← forEach (visitLevel n measureFields row) levels (tree, Some []);
  Some st.1.

(** The callback of [data.forEach(row => ...)]. *)
Definition processRow (hierarchyFields measureFields : list field)
    (tree : gmap string node) (row : list value) : option (gmap string node) :=
  visitLevels (length hierarchyFields) measureFields row
              (indexed hierarchyFields) tree.

(** [data.forEach(row => ...)] from a given tree. *)
Definition buildFrom (hierarchyFields measureFields : list field)
    (data : list (list value)) (tree : gmap string node)
  : option (gmap string node) :=
  forEach (processRow hierarchyFields measureFields) data tree.

Definition buildHierarchicalTree (hierarchyFields measureFields : list field)
    (data : list (list value)) : option (gmap string node) :=
  buildFrom hierarchyFields measureFields data ∅.

Arguments storeMeasures : simpl never.
Arguments visitLevels : simpl never.
Arguments processRow : simpl never.
Arguments buildFrom : simpl never.

(** ** renderTreeLevel *)

(** What a measure cell shows, before number formatting: nothing, a cell
    value, or the member of [Object.prototype] with the given name, which
    [formatNumber] hands back as it is. *)
Inductive cell :=
  | EmptyCell
  | ValueCell (v : value)
  | MemberCell (name : string).

(** A row appended to the table body. *)
Record tr := Tr {
  data_level : nat;
  data_path : string;
  tr_expanded : bool;
  tr_icon : bool;
  tr_name : value;
  tr_click : option (list string);
  tr_cells : list cell
}.

(** [path.join('|')] *)
Definition join (path : list string) : string := String.concat "|" path.

(** [Object.keys(treeLevel).sort()] *)
Definition sortedKeys (treeLevel : gmap string node) : list string :=
  merge_sort String.le (map_to_list treeLevel).*1.

(** [node.measures[measure.fieldName]] and the test on it. *)
Definition measureCell (nd : node) (measure : field) : cell :=
  match measures nd !! fieldName measure with
  | Some v => if isPresent v then ValueCell v else EmptyCell
  | None =>
      if inherited (fieldName measure) then MemberCell (fieldName measure)
      else EmptyCell
  end.

(** [node.hasChildren && Object.keys(node.children).length > 0] *)
Definition expandable (nd : node) : bool :=
  hasChildren nd && bool_decide (0 < size (children nd)).

Definition renderRow (measureFields : list field) (isExpanded : bool)
    (nd : node) (level : nat) (currentPath : list string) : tr :=
  Tr level (join currentPath) isExpanded (expandable nd) (name nd)
     (if expandable nd then Some currentPath else None)
     (measureCell nd <$> measureFields).

(** The body of [renderTreeLevel]: one row for each key in sorted order,
    followed by the rows of the children where the three tests pass.  The
    recursive call is taken from [sub], which holds for each key the
    rendering of the children of the node stored under it; that keeps the
    recursion on the nesting of the tree. *)
Definition renderKeys (measureFields : list field)
    (expandedNodes : gset string) (treeLevel : gmap string node)
    (sub : gmap string (nat → list string → list tr))
    (level : nat) (path : list string) : list tr :=
  flat_map (λ key,
    match treeLevel !! key, sub !! key with
    | Some nd, Some renderChildren =>
        let currentPath := path ++ [key] in
        let isExpanded := bool_decide (join currentPath ∈ expandedNodes) in
        renderRow measureFields isExpanded nd level currentPath ::
        (if isExpanded && expandable nd
         then renderChildren (S level) currentPath
         else [])
    | _, _ => []
    end) (sortedKeys treeLevel).

(** [renderTreeLevel(node.children, tbody, level, path)] as a function of
    the node. *)
Fixpoint renderChildrenOf (measureFields : list field)
    (expandedNodes : gset string) (nd : node)
  : nat → list string → list tr :=
  renderKeys measureFields expandedNodes (children nd)
    (renderChildrenOf measureFields expandedNodes <$> children nd).

(** [renderTreeLevel(treeLevel, tbody, level, path)]: the rows appended to
    [tbody].  [renderTreeLevel_unfold] below states the recursion as the
    source has it. *)
Definition renderTreeLevel (measureFields : list field)
    (expandedNodes : gset string) (treeLevel : gmap string node)
    (level : nat) (path : list string) : list tr :=
  renderKeys measureFields expandedNodes treeLevel
    (renderChildrenOf measureFields expandedNodes <$> treeLevel) level path.

(** ** toggleNode: the set of expanded path keys *)

(** [p.startsWith(s)] *)
Definition startsWith (p s : string) : bool := String.prefix s p.

(** The filter predicate of [pathsToRemove]. *)
Definition toRemove (pathKey p : string) : bool :=
  bool_decide (p = pathKey) || startsWith p (pathKey +:+ "|").

(** Lines 271-282 of [toggleNode], on the set alone. *)
Definition toggleExpanded (expandedNodes : gset string) (path : list string)
  : gset string :=
  let pathKey := join path in
  if bool_decide (pathKey ∈ expandedNodes) then
    let pathsToRemove :=
      filter (λ p, toRemove pathKey p = true) (elements expandedNodes) in
    foldl (λ s p, s ∖ {[p]}) expandedNodes pathsToRemove
  else
    expandedNodes ∪ {[pathKey]}.

(** ** The module state and the page *)

Record table := Table {
  thead : list string;
  tbody : list tr
}.

(** The three texts [showError] is called with. *)
Inductive message :=
  | NoHierarchyFieldsFound
  | NoMeasureFieldsFound
  | ErrorLoadingData.

Record state := State {
  hierarchyFields : list field;
  measureFields : list field;
  fullDataTree : option (gmap string node);
  expandedNodes : gset string;
  crosstab : option table;
  errorShown : option message;
  loadingShown : bool;
  containerShown : bool
}.

(** The state when the script starts: nothing loaded, nothing drawn. *)
Definition initialState : state :=
  State [] [] None ∅ None None true false.

Definition showError (msg : message) (st : state) : state :=
  State (hierarchyFields st) (measureFields st) (fullDataTree st)
        (expandedNodes st) (crosstab st) (Some msg) false (containerShown st).

(** [renderTable]: the header cells and the body rows.  Reading
    [hierarchyFields[0].fieldName] of an empty list, or the keys of a tree
    that is still [null], throws. *)
Definition renderTable (st : state) : option table :=
  first ← head (hierarchyFields st);
  tree ← fullDataTree st;
  Some (Table (fieldName first :: (fieldName <$> measureFields st))
              (renderTreeLevel (measureFields st) (expandedNodes st) tree 0 [])).

(** [toggleNode(path)]: update the set, then draw again. *)
Definition toggleNode (st : state) (path : list string) : option state :=
  let expanded := toggleExpanded (expandedNodes st) path in
  let st' := State (hierarchyFields st) (measureFields st) (fullDataTree st)
                   expanded (crosstab st) (errorShown st) (loadingShown st)
                   (containerShown st) in
  tbl ← renderTable st';
  Some (State (hierarchyFields st) (measureFields st) (fullDataTree st)
              expanded (Some tbl) (errorShown st) (loadingShown st)
              (containerShown st)).

(** What [getSummaryDataReaderAsync] resolves to. *)
Record dataTable := DataTable {
  columns : list column;
  pages : list (list (list value))
}.

(** [loadData].  [reader] is [None] when the worksheet call rejects; every
    exception inside the [try] ends in [showError]. *)
Definition loadData (st : state) (reader : option dataTable) : state :=
  match reader with
  | None => showError ErrorLoadingData st
  | Some dt =>
      let fields := identifyFieldTypes (columns dt) in
      let st1 := State fields.1 fields.2 (fullDataTree st) (expandedNodes st)
                       (crosstab st) (errorShown st) (loadingShown st)
                       (containerShown st) in
      if bool_decide (length fields.1 = 0) then
        showError NoHierarchyFieldsFound st1
      else if bool_decide (length fields.2 = 0) then
        showError NoMeasureFieldsFound st1
      else
        let allData := concat (pages dt) in
        match buildHierarchicalTree fields.1 fields.2 allData with
        | None => showError ErrorLoadingData st1
        | Some tree =>
            let st2 := State fields.1 fields.2 (Some tree) (expandedNodes st)
                             (crosstab st) (errorShown st) (loadingShown st)
                             (containerShown st) in
            match renderTable st2 with
            | None => showError ErrorLoadingData st2
            | Some tbl =>
                State fields.1 fields.2 (Some tree) (expandedNodes st)
                      (Some tbl) (errorShown st) false true
            end
        end
  end.

(** ** Vocabulary for the statements *)

(** *** The columns *)

(** The two classes of [identifyFieldTypes], and the rest, as predicates on
    columns. *)
Definition hierarchyColumn (c : column) : Prop :=
  col_dataType c ∈ ["string"; "date-time"; "date"].

Definition measureColumn (c : column) : Prop :=
  col_dataType c ∈ ["float"; "int"].

Definition otherColumn (c : column) : Prop :=
  ¬ hierarchyColumn c ∧ ¬ measureColumn c.

#[global] Instance hierarchyColumn_dec c : Decision (hierarchyColumn c).
Proof. unfold hierarchyColumn. apply _. Defined.

#[global] Instance measureColumn_dec c : Decision (measureColumn c).
Proof. unfold measureColumn. apply _. Defined.

#[global] Instance otherColumn_dec c : Decision (otherColumn c).
Proof. unfold otherColumn. apply _. Defined.

(** *** Paths in the tree *)

(** The node a sequence of keys leads to, from the root. *)
Fixpoint lookupPath (tree : gmap string node) (path : list string)
  : option node :=
  match path with
  | [] => None
  | key :: rest =>
      nd ← tree !! key;
      match rest with
      | [] => Some nd
      | _ :: _ => lookupPath (children nd) rest
      end
  end.

(** The entry stored under a measure name at the node a path leads to. *)
Definition storedMeasure (tree : gmap string node) (path : list string)
    (x : string) : option value :=
  nd ← lookupPath tree path; measures nd !! x.

(** Height of a node and depth of a tree: the longest chain of nested
    nodes. *)
Fixpoint nodeHeight (nd : node) : nat :=
  S (map_fold (λ _ c acc, Nat.max (nodeHeight c) acc) 0 (children nd)).

Definition treeDepth (tree : gmap string node) : nat :=
  map_fold (λ _ c acc, Nat.max (nodeHeight c) acc) 0 tree.

(** *** What a row says *)

(** Every field index is inside the row. *)
Definition wideEnough (fields : list field) (row : list value) : Prop :=
  Forall (λ f, index f < length row) fields.

(** The hierarchy cells of a row, in field order. *)
Definition hierarchyCells (hierarchyFields : list field) (row : list value)
  : list value :=
  omap (λ f, row !! index f) hierarchyFields.

(** The property keys a row's non-null hierarchy cells are read as. *)
Definition cellKeys (cells : list value) : list string :=
  propertyKey <$> filter (λ v, isNullValue v = false) cells.

Definition hierarchyKeys (hierarchyFields : list field) (row : list value)
  : list string :=
  cellKeys (hierarchyCells hierarchyFields row).

(** The keys in front of the first inherited name. *)
Fixpoint beforeInherited (keys : list string) : list string :=
  match keys with
  | [] => []
  | key :: rest => if inherited key then [] else key :: beforeInherited rest
  end.

(** The keys of the nodes a row passes through: its non-null hierarchy
    cells, up to the first that is an inherited name.  For that one no
    node is made, and behind it the cursor is [undefined]. *)
Definition rowPath (hierarchyFields : list field) (row : list value)
  : list string :=
  beforeInherited (hierarchyKeys hierarchyFields row).

(** Once a hierarchy cell is null, every later one is. *)
Fixpoint nullsTrailing (cells : list value) : bool :=
  match cells with
  | [] => true
  | v :: rest =>
      if isNullValue v then forallb isNullValue rest else nullsTrailing rest
  end.

(** What a row writes under a measure name on an object without a
    [__proto__] property of its own: the last present cell among the
    measure columns with that name, and nothing under [__proto__]. *)
Definition rowMeasure (measureFields : list field) (row : list value)
    (x : string) : option value :=
  if decide (x = "__proto__") then None
  else
    last (filter (λ v, isPresent v = true)
            (omap (λ m, if decide (fieldName m = x) then row !! index m
                        else None)
                  measureFields)).

(** No measure cell of the row holds a value. *)
Definition noMeasureValue (measureFields : list field) (row : list value)
  : Prop :=
  Forall (λ m, ∀ v, row !! index m = Some v → isPresent v = false)
         measureFields.

(** Keys the builder gets through: no key but the last is an inherited
    name, and where the last one is, [noValue] holds. *)
Fixpoint keysPass (noValue : Prop) (keys : list string) : Prop :=
  match keys with
  | [] => True
  | key :: rest =>
      if inherited key then rest = [] ∧ noValue else keysPass noValue rest
  end.

(** A row the builder gets through without throwing: it has a cell for
    every hierarchy field and, if one of those cells is not null, a cell for
    every measure field; and if one of its non-null hierarchy cells is an
    inherited name, that cell is the last non-null one and no measure cell
    of the row holds a value. *)
Definition readableRow (hf mf : list field) (row : list value) : Prop :=
  wideEnough hf row
  ∧ (hierarchyKeys hf row ≠ [] → wideEnough mf row)
  ∧ keysPass (noMeasureValue mf row) (hierarchyKeys hf row).

(** *** The loop over the levels, read recursively *)

(** The turns still to come once [currentLevel] is [undefined]: a null
    cell is skipped, any other cell throws. *)
Fixpoint walkUndefined (row : list value) (levels : list (nat * field))
  : option unit :=
  match levels with
  | [] => Some ()
  | (_, field) :: rest =>
      value ← row !! index field;
      if isNullValue value then walkUndefined row rest else None
  end.

(** What the turns still to come do to the object under the cursor.  A turn
    that finds a key leaves the rest of the list to the [children] object of
    the node under that key; a turn that finds a null cell leaves it to the
    same object; a turn that finds an inherited member leaves the object as
    it is and the cursor [undefined].  [visitLevels_walkLevels] below
    proves that this is what the loop with the cursor computes. *)
Fixpoint walkLevels (n : nat) (measureFields : list field) (row : list value)
    (levels : list (nat * field)) (currentLevel : gmap string node)
  : option (gmap string node) :=
  match levels with
  | [] => Some currentLevel
  | (levelIndex, field) :: rest =>
      value ← row !! index field;
      if isNullValue value then
        walkLevels n measureFields row rest currentLevel
      else
        let key := propertyKey value in
        if inheritedMember currentLevel key then
          _ ← readMeasures measureFields row;
          _ ← walkUndefined row rest;
          Some currentLevel
        else
          let nd :=
            default (newNode n value levelIndex) (currentLevel !! key) in
          ms ← storeMeasures measureFields row (measures nd);
          cs ← walkLevels n measureFields row rest (children nd);
          Some (<[key := Node (name nd) (level nd) ms cs (hasChildren nd)]>
                  currentLevel)
  end.

(** The keys a row contributes at the levels still to visit, and those of
    them it makes or finds a node for. *)
Definition levelCells (row : list value) (levels : list (nat * field))
  : list value :=
  omap (λ lf, row !! index lf.2) levels.

Definition levelKeys (row : list value) (levels : list (nat * field))
  : list string :=
  beforeInherited (cellKeys (levelCells row levels)).

(** *** Trees of plain objects *)

(** Every node of the tree, with the key it is stored under, satisfies
    [Q]. *)
Definition allNodes (Q : string → node → Prop) (tree : gmap string node)
  : Prop :=
  ∀ p nd, lookupPath tree p = Some nd → ∃ k, last p = Some k ∧ Q k nd.

(** What holds of the objects the builder makes: no node sits under an
    inherited name, and no measures object has a [__proto__] of its
    own. *)
Definition plainNode (k : string) (nd : node) : Prop :=
  inherited k = false ∧ measures nd !! "__proto__" = None.

Definition plainTree (tree : gmap string node) : Prop :=
  allNodes plainNode tree.

(** *** Level fields *)

(** Level indices that grow along the list, start at [d] or later and stay
    below [n]. *)
Inductive ascending (n : nat) : nat → list (nat * field) → Prop :=
  | ascending_nil d : ascending n d []
  | ascending_cons d L f rest :
      d ≤ L < n → ascending n (S L) rest → ascending n d ((L, f) :: rest).

(** Level indices [d], [d+1], [d+2], ... *)
Inductive consecutive : nat → list (nat * field) → Prop :=
  | consecutive_nil d : consecutive d []
  | consecutive_cons d f rest :
      consecutive (S d) rest → consecutive d ((d, f) :: rest).

(** Below a cursor at depth [d]: the level field of a node is at least its
    depth and less than [n]. *)
Definition levelBound (n d : nat) (cur : gmap string node) : Prop :=
  ∀ p nd, lookupPath cur p = Some nd →
    d + length p ≤ S (level nd) ∧ level nd < n.

(** Below a cursor at depth [d]: the level field of a node is its depth. *)
Definition levelExact (d : nat) (cur : gmap string node) : Prop :=
  ∀ p nd, lookupPath cur p = Some nd → S (level nd) = d + length p.

(** *** Rendering *)

(** The three conditions under which [renderTreeLevel] goes into the
    children of a node drawn at [currentPath]. *)
Definition descends (expandedNodes : gset string) (nd : node)
    (currentPath : list string) : Prop :=
  join currentPath ∈ expandedNodes
  ∧ hasChildren nd = true
  ∧ children nd ≠ ∅.

#[global] Instance descends_dec expandedNodes nd currentPath :
  Decision (descends expandedNodes nd currentPath).
Proof. unfold descends. apply _. Defined.

(** ** Concrete inputs *)

Module Example.

(** The worksheet of the end-to-end example: country, state, sales. *)
Definition hf : list field := [Field 0 "country"; Field 1 "state"].
Definition mf : list field := [Field 2 "sales"].
Definition rows : list (list value) :=
  [ [VStr "US"; VStr "CA"; VNum "100"];
    [VStr "US"; VStr "TX"; VNum "50"];
    [VStr "CA"; VStr "ON"; VNum "30"] ].

Definition leaf (key : string) (sales : string) : node :=
  Node (VStr key) 1 {[ "sales" := VNum sales ]} ∅ false.

Definition caNode : node :=
  Node (VStr "CA") 0 {[ "sales" := VNum "30" ]} {[ "ON" := leaf "ON" "30" ]}
       true.

Definition usNode : node :=
  Node (VStr "US") 0 {[ "sales" := VNum "50" ]}
       {[ "CA" := leaf "CA" "100"; "TX" := leaf "TX" "50" ]} true.

Definition tree : gmap string node :=
  {[ "CA" := caNode; "US" := usNode ]}.

(** Two rows with the same path, the later one with another value. *)
Definition firstRow : list value := [VStr "US"; VStr "CA"; VNum "100"].
Definition laterRow : list value := [VStr "US"; VStr "CA"; VNum "70"].

(** A third row through US after the two. *)
Definition texasRow : list value := [VStr "US"; VStr "TX"; VNum "50"].

Definition overwrittenTree : gmap string node :=
  {[ "US" := Node (VStr "US") 0 {[ "sales" := VNum "70" ]}
                  {[ "CA" := leaf "CA" "70" ]} true ]}.

(** A row whose first hierarchy cell is null and whose second is not,
    followed by a row that goes through the node the first one made. *)
Definition raggedRow : list value := [VNull; VStr "X"; VNum "5"].
Definition belowRow : list value := [VStr "X"; VStr "Y"; VNum "6"].

Definition raggedTree : gmap string node :=
  {[ "X" := Node (VStr "X") 1 {[ "sales" := VNum "6" ]}
                 {[ "Y" := leaf "Y" "6" ]} false ]}.

(** Three hierarchy levels, the middle cell null. *)
Definition hf3 : list field :=
  [Field 0 "country"; Field 1 "state"; Field 2 "city"].
Definition mf3 : list field := [Field 3 "sales"].
Definition gapRow : list value :=
  [VStr "US"; VNull; VStr "Austin"; VNum "7"].
Definition gapTree : gmap string node :=
  {[ "US" := Node (VStr "US") 0 {[ "sales" := VNum "7" ]}
                  {[ "Austin" := Node (VStr "Austin") 2
                                      {[ "sales" := VNum "7" ]} ∅ false ]}
                  true ]}.
Definition exampleColumns : list column :=
  [ Column 0 "country" "string"; Column 1 "state" "string";
    Column 2 "sales" "float" ].


End Example.

(** ** Vocabulary for the further properties *)

(** *** Visible rows *)

(** The node at [q] below [treeLevel] exists and the renderer, called on
    [treeLevel] with [path], descends into every node above it. *)
Definition visible (expandedNodes : gset string)
    (treeLevel : gmap string node) (path q : list string) : Prop :=
  is_Some (lookupPath treeLevel q)
  ∧ ∀ q1 nd, q1 `prefix_of` q → q1 ≠ q →
      lookupPath treeLevel q1 = Some nd →
      descends expandedNodes nd (path ++ q1).

(** The same, computed along [q]. *)
Fixpoint shown (expandedNodes : gset string) (treeLevel : gmap string node)
    (path q : list string) : bool :=
  match q with
  | [] => false
  | key :: rest =>
      match treeLevel !! key with
      | None => false
      | Some nd =>
          match rest with
          | [] => true
          | _ :: _ =>
              bool_decide (descends expandedNodes nd (path ++ [key]))
              && shown expandedNodes (children nd) (path ++ [key]) rest
          end
      end
  end.

(** *** Path keys *)

(** The character ['|'], code 124. *)
Definition bar : Ascii.ascii :=
  Ascii.Ascii false false true true true true true false.

(** The string has no ['|'] in it. *)
Fixpoint barFree (s : string) : bool :=
  match s with
  | EmptyString => true
  | String a rest => negb (Ascii.eqb a bar) && barFree rest
  end.

(** *** Events *)

(** The user clicks the row headers with the given paths, one after the
    other; each click runs [toggleNode]. *)
Definition clicks (st : state) (paths : list (list string)) : option state :=
  forEach toggleNode paths st.

(** * Field classification *)

Section Classification.

Lemma isHierarchyType_spec c :
  isHierarchyType (col_dataType c) = true ↔ hierarchyColumn c.
Proof.
  unfold isHierarchyType, hierarchyColumn.
  rewrite !orb_true_iff, !bool_decide_eq_true, !elem_of_cons, elem_of_nil.
  tauto.
Qed.

Lemma isMeasureType_spec c :
  isMeasureType (col_dataType c) = true ↔ measureColumn c.
Proof.
  unfold isMeasureType, measureColumn.
  rewrite !orb_true_iff, !bool_decide_eq_true, !elem_of_cons, elem_of_nil.
  tauto.
Qed.

Lemma hierarchy_not_measure c : hierarchyColumn c → ¬ measureColumn c.
Proof.
  unfold hierarchyColumn, measureColumn.
  rewrite !elem_of_cons, !elem_of_nil.
  intros [-> | [-> | [-> | []]]] [? | [? | []]]; discriminate.
Qed.

(** The loop from any pair of accumulated lists. *)
Lemma classify_foldl columns hs ms :
  foldl classifyColumn (hs, ms) columns =
    (hs ++ (toField <$> filter hierarchyColumn columns),
     ms ++ (toField <$> filter measureColumn columns)).
Proof.
  revert hs ms. induction columns as [| c columns IH]; intros hs ms; simpl.
  - by rewrite !app_nil_r.
  - unfold classifyColumn at 2; simpl.
    destruct (isHierarchyType (col_dataType c)) eqn:Hh.
    + apply isHierarchyType_spec in Hh.
      rewrite IH, filter_cons_True by done.
      rewrite filter_cons_False by by apply hierarchy_not_measure.
      by rewrite fmap_cons, <- app_assoc.
    + assert (¬ hierarchyColumn c) as Hnh.
      { rewrite <- isHierarchyType_spec. by rewrite Hh. }
      destruct (isMeasureType (col_dataType c)) eqn:Hm.
      * apply isMeasureType_spec in Hm.
        rewrite IH, filter_cons_False, filter_cons_True by done.
        by rewrite fmap_cons, <- app_assoc.
      * assert (¬ measureColumn c) as Hnm.
        { rewrite <- isMeasureType_spec. by rewrite Hm. }
        by rewrite IH, !filter_cons_False by done.
Qed.

(** Every column falls in exactly one of the three classes. *)
Lemma columns_three_way columns :
  columns ≡ₚ filter hierarchyColumn columns
             ++ filter measureColumn columns
             ++ filter otherColumn columns.
Proof.
  induction columns as [| c columns IH]; [done |].
  destruct (decide (hierarchyColumn c)) as [Hh | Hh].
  - rewrite filter_cons_True by done.
    rewrite (filter_cons_False measureColumn)
      by by apply hierarchy_not_measure.
    rewrite (filter_cons_False otherColumn) by (unfold otherColumn; tauto).
    simpl. by f_equiv.
  - rewrite filter_cons_False by done.
    destruct (decide (measureColumn c)) as [Hm | Hm].
    + rewrite filter_cons_True by done.
      rewrite (filter_cons_False otherColumn) by (unfold otherColumn; tauto).
      simpl. rewrite <- Permutation_middle. by f_equiv.
    + rewrite filter_cons_False by done.
      rewrite (filter_cons_True otherColumn) by done.
      rewrite app_assoc, <- Permutation_middle, <- app_assoc. by f_equiv.
Qed.

(** C8.  For every ordered column list, [hierarchyFields] is exactly the
    sub-list of the columns typed string, date or date-time and
    [measureFields] exactly the sub-list of those typed float or int, each
    in source column order and each entry carrying the index and the
    field name of its column; the columns of any other type are the rest
    of the list and feed neither. *)
Theorem identifyFieldTypes_partition (columns : list column) :
  (identifyFieldTypes columns).1
    = (λ c, Field (col_index c) (col_fieldName c))
        <$> filter hierarchyColumn columns
  ∧ (identifyFieldTypes columns).2
    = (λ c, Field (col_index c) (col_fieldName c))
        <$> filter measureColumn columns
  ∧ columns ≡ₚ filter hierarchyColumn columns
               ++ filter measureColumn columns
               ++ filter otherColumn columns.
Proof.
  unfold identifyFieldTypes. rewrite classify_foldl. simpl.
  split_and!; [done | done | apply columns_three_way].
Qed.

End Classification.

(** * The set of expanded path keys *)

Section Toggle.

Implicit Types (expanded : gset string) (path : list string).

Lemma string_app_nil (t : string) : "" +:+ t = t.
Proof. reflexivity. Qed.

Lemma string_app_cons a (s t : string) :
  String a s +:+ t = String a (s +:+ t).
Proof. reflexivity. Qed.

Lemma string_app_assoc (s t u : string) : (s +:+ t) +:+ u = s +:+ t +:+ u.
Proof.
  induction s as [| a s IH]; [done |].
  by rewrite !string_app_cons, IH.
Qed.

Lemma string_app_length (s t : string) :
  String.length (s +:+ t) = String.length s + String.length t.
Proof.
  induction s as [| a s IH]; [done |].
  rewrite string_app_cons. simpl. by rewrite IH.
Qed.

Lemma prefix_app s t : String.prefix s (s +:+ t) = true.
Proof.
  induction s as [| a s IH].
  - rewrite string_app_nil. by destruct t.
  - rewrite string_app_cons. simpl.
    destruct (Ascii.ascii_dec a a); [exact IH | done].
Qed.

Lemma prefix_inv s p : String.prefix s p = true → ∃ t, p = s +:+ t.
Proof.
  revert p. induction s as [| a s IH]; intros p Hp.
  - by exists p.
  - destruct p as [| b p]; simpl in Hp; [done |].
    destruct (Ascii.ascii_dec a b) as [-> |]; [| done].
    destruct (IH _ Hp) as [t ->]. exists t. by rewrite string_app_cons.
Qed.

(** [p.startsWith(s)] holds exactly when [p] is [s] followed by
    something. *)
Lemma startsWith_spec p s : startsWith p s = true ↔ ∃ t, p = s +:+ t.
Proof.
  unfold startsWith. split.
  - apply prefix_inv.
  - intros [t ->]. apply prefix_app.
Qed.

Lemma toRemove_spec pathKey p :
  toRemove pathKey p = true ↔
    p = pathKey ∨ ∃ t, p = pathKey +:+ "|" +:+ t.
Proof.
  unfold toRemove.
  rewrite orb_true_iff, bool_decide_eq_true, startsWith_spec.
  split; (intros [? | [t Ht]]; [by left | right; exists t]).
  - by rewrite Ht, string_app_assoc.
  - by rewrite Ht, string_app_assoc.
Qed.

(** [pathsToRemove.forEach(p => expandedNodes.delete(p))] *)
Lemma elem_of_delete_all (l : list string) expanded x :
  x ∈ foldl (λ s p, s ∖ {[p]}) expanded l ↔ x ∈ expanded ∧ x ∉ l.
Proof.
  revert expanded. induction l as [| p l IH]; intros expanded; simpl.
  - set_solver.
  - rewrite IH. set_solver.
Qed.

Lemma elem_of_toggle_collapse expanded path x :
  join path ∈ expanded →
  x ∈ toggleExpanded expanded path ↔
    x ∈ expanded ∧ toRemove (join path) x = false.
Proof.
  intros Hin. unfold toggleExpanded.
  rewrite bool_decide_eq_true_2 by done.
  rewrite elem_of_delete_all, list_elem_of_filter, elem_of_elements.
  destruct (toRemove (join path) x); naive_solver.
Qed.

Lemma elem_of_toggle_expand expanded path x :
  join path ∉ expanded →
  x ∈ toggleExpanded expanded path ↔ x ∈ expanded ∨ x = join path.
Proof.
  intros Hout. unfold toggleExpanded.
  rewrite bool_decide_eq_false_2 by done. set_solver.
Qed.

Lemma join_snoc path key :
  path ≠ [] → join (path ++ [key]) = join path +:+ "|" +:+ key.
Proof.
  unfold join. induction path as [| a path IH]; [done |]. intros _.
  destruct path as [| b path]; [done |].
  change (String.concat "|" ((a :: b :: path) ++ [key]))
    with (a +:+ "|" +:+ String.concat "|" ((b :: path) ++ [key])).
  rewrite IH by done.
  change (String.concat "|" (a :: b :: path))
    with (a +:+ "|" +:+ String.concat "|" (b :: path)).
  by rewrite !string_app_assoc.
Qed.

Lemma append_ne_self (s t : string) : s +:+ "|" +:+ t ≠ s.
Proof.
  intros Heq. apply (f_equal String.length) in Heq.
  rewrite !string_app_length in Heq. simpl in Heq. lia.
Qed.

(** C6.  With [k = path.join('|')]: when [k] is in the set, the toggle
    removes [k] and every member that starts with [k + '|'] and nothing
    else; when [k] is absent, the toggle adds the single key [k] and
    removes nothing.  In particular, after expanding [A] and then [A|B],
    collapsing [A] leaves neither key in the set. *)
Theorem toggle_cascade expanded path :
  let k := join path in
  (k ∈ expanded →
     ∀ x, x ∈ toggleExpanded expanded path ↔
          x ∈ expanded ∧ x ≠ k ∧ (¬ ∃ t, x = k +:+ "|" +:+ t))
  ∧ (k ∉ expanded →
     ∀ x, x ∈ toggleExpanded expanded path ↔ x ∈ expanded ∨ x = k)
  ∧ ∀ a b,
      join [a] ∉ expanded → join [a; b] ∉ expanded →
      let expandA := toggleExpanded expanded [a] in
      let expandAB := toggleExpanded expandA [a; b] in
      let collapseA := toggleExpanded expandAB [a] in
      join [a] ∈ expandA ∧ join [a; b] ∈ expandAB
      ∧ (join [a] ∉ collapseA) ∧ (join [a; b] ∉ collapseA).
Proof.
  intros k. split_and!.
  - intros Hin x. rewrite elem_of_toggle_collapse by done.
    rewrite <- not_true_iff_false, toRemove_spec. fold k. tauto.
  - intros Hout x. by apply elem_of_toggle_expand.
  - intros a b Ha Hab expandA expandAB collapseA.
    assert (join [a; b] = join [a] +:+ "|" +:+ b) as Hjoin
      by by apply (join_snoc [a] b).
    assert (join [a] ∈ expandA) as HA.
    { apply elem_of_toggle_expand; auto. }
    assert (join [a; b] ∉ expandA) as HABout.
    { unfold expandA. rewrite elem_of_toggle_expand by done.
      intros [? | Heq]; [done |]. rewrite Hjoin in Heq.
      by apply append_ne_self in Heq. }
    assert (join [a; b] ∈ expandAB) as HAB.
    { apply elem_of_toggle_expand; auto. }
    assert (join [a] ∈ expandAB) as HA'.
    { apply elem_of_toggle_expand; auto. }
    split_and!; [done | done | |].
    + unfold collapseA. rewrite elem_of_toggle_collapse by done.
      intros [_ Hrm]. apply not_true_iff_false in Hrm. apply Hrm.
      apply toRemove_spec. by left.
    + unfold collapseA. rewrite elem_of_toggle_collapse by done.
      intros [_ Hrm]. apply not_true_iff_false in Hrm. apply Hrm.
      apply toRemove_spec. right. by exists b.
Qed.

(** C7.  Toggling the same path twice in a row leaves the membership of
    its path key as it was before the first call. *)
Theorem toggle_twice_membership expanded path :
  join path ∈ toggleExpanded (toggleExpanded expanded path) path
  ↔ join path ∈ expanded.
Proof.
  destruct (decide (join path ∈ expanded)) as [Hin | Hout].
  - assert (join path ∉ toggleExpanded expanded path) as Hgone.
    { rewrite elem_of_toggle_collapse by done.
      intros [_ Hrm]. apply not_true_iff_false in Hrm. apply Hrm.
      apply toRemove_spec. by left. }
    rewrite elem_of_toggle_expand by done. tauto.
  - assert (join path ∈ toggleExpanded expanded path) as Hadded.
    { rewrite elem_of_toggle_expand by done. by right. }
    rewrite elem_of_toggle_collapse by done.
    split; [| done]. intros [_ Hrm].
    apply not_true_iff_false in Hrm. exfalso. apply Hrm.
    apply toRemove_spec. by left.
Qed.

(** The state-level [toggleNode] changes the set as [toggleExpanded]
    does and nothing else of the module state. *)
Lemma toggleNode_expandedNodes st path st' :
  toggleNode st path = Some st' →
  expandedNodes st' = toggleExpanded (expandedNodes st) path
  ∧ fullDataTree st' = fullDataTree st
  ∧ hierarchyFields st' = hierarchyFields st
  ∧ measureFields st' = measureFields st.
Proof.
  unfold toggleNode. intros Hst.
  destruct (renderTable _) as [tbl |]; simpl in Hst; [| done].
  by injection Hst as <-.
Qed.

End Toggle.

(** * Writing the measures of a row *)

Section Measures.

Implicit Types (mf : list field) (row : list value)
               (ms : gmap string value).

Lemma storeMeasures_nil row ms : storeMeasures [] row ms = Some ms.
Proof. done. Qed.

Lemma storeMeasures_cons m mf row ms :
  storeMeasures (m :: mf) row ms =
    measureValue ← row !! index m;
    storeMeasures mf row
      (if isPresent measureValue
       then setProperty ms (fieldName m) measureValue
       else ms).
Proof.
  unfold storeMeasures. simpl. unfold storeMeasure.
  by destruct (row !! index m).
Qed.

(** An assignment on an object without a [__proto__] of its own. *)
Lemma setProperty_lookup ms k v x :
  ms !! "__proto__" = None →
  setProperty ms k v !! x
    = if decide (k = x ∧ x ≠ "__proto__") then Some v else ms !! x.
Proof.
  intros Hproto. unfold setProperty.
  destruct (decide (k = "__proto__")) as [-> | Hk].
  - rewrite bool_decide_eq_true_2 by done.
    rewrite (bool_decide_eq_true_2 _ Hproto). simpl.
    rewrite decide_False; [done |]. by intros [<- ?].
  - rewrite (bool_decide_eq_false_2 _ Hk). simpl.
    destruct (decide (k = x)) as [-> | Hx].
    + rewrite lookup_insert_eq. by rewrite decide_True.
    + rewrite lookup_insert_ne by done. rewrite decide_False; [done |].
      by intros [? _].
Qed.

Lemma setProperty_dom ms k v : dom ms ⊆ dom (setProperty ms k v).
Proof.
  unfold setProperty. destruct (_ && _); [done |]. set_solver.
Qed.

Lemma rowMeasure_proto mf row : rowMeasure mf row "__proto__" = None.
Proof. unfold rowMeasure. by rewrite decide_True. Qed.

Lemma rowMeasure_cons m mf row x v :
  row !! index m = Some v →
  rowMeasure (m :: mf) row x =
    match rowMeasure mf row x with
    | Some w => Some w
    | None =>
        if decide (fieldName m = x ∧ x ≠ "__proto__")
        then (if isPresent v then Some v else None)
        else None
    end.
Proof.
  intros Hv. unfold rowMeasure.
  destruct (decide (x = "__proto__")) as [-> | Hproto].
  { rewrite decide_False; [done |]. by intros [_ ?]. }
  simpl. destruct (decide (fieldName m = x)) as [Hx | Hx].
  - rewrite Hv, decide_True by done. simpl.
    destruct (isPresent v) eqn:Hp.
    + rewrite filter_cons_True by done. apply last_cons.
    + rewrite filter_cons_False by (by rewrite Hp).
      by destruct (last _).
  - rewrite decide_False by (by intros [? _]). by destruct (last _).
Qed.

(** The measures object after the loop: for every name, the value the row
    writes under it, or else the entry that was there. *)
Lemma storeMeasures_lookup mf row ms ms' x :
  ms !! "__proto__" = None →
  storeMeasures mf row ms = Some ms' →
  ms' !! x = match rowMeasure mf row x with
             | Some v => Some v
             | None => ms !! x
             end.
Proof.
  revert ms. induction mf as [| m mf IH]; intros ms Hproto Hst.
  - rewrite storeMeasures_nil in Hst. injection Hst as <-.
    unfold rowMeasure. by destruct (decide _).
  - rewrite storeMeasures_cons in Hst.
    destruct (row !! index m) as [v |] eqn:Hv; simpl in Hst; [| done].
    rewrite (rowMeasure_cons _ _ _ _ v Hv).
    destruct (isPresent v).
    + assert (setProperty ms (fieldName m) v !! "__proto__" = None)
        as Hproto'.
      { rewrite setProperty_lookup by done. by rewrite decide_False by tauto. }
      rewrite (IH _ Hproto' Hst).
      destruct (rowMeasure mf row x); [done |].
      rewrite setProperty_lookup by done. by destruct (decide _).
    + rewrite (IH _ Hproto Hst).
      destruct (rowMeasure mf row x); [done |]. by destruct (decide _).
Qed.

(** The loop makes no [__proto__] entry. *)
Lemma storeMeasures_proto mf row ms ms' :
  ms !! "__proto__" = None →
  storeMeasures mf row ms = Some ms' → ms' !! "__proto__" = None.
Proof.
  intros Hproto Hst.
  by rewrite (storeMeasures_lookup _ _ _ _ _ Hproto Hst), rowMeasure_proto.
Qed.

(** No entry is ever removed. *)
Lemma storeMeasures_dom mf row ms ms' :
  storeMeasures mf row ms = Some ms' → dom ms ⊆ dom ms'.
Proof.
  revert ms. induction mf as [| m mf IH]; intros ms Hst.
  - rewrite storeMeasures_nil in Hst. by injection Hst as <-.
  - rewrite storeMeasures_cons in Hst.
    destruct (row !! index m) as [v |]; simpl in Hst; [| done].
    etrans; [| by eapply IH].
    destruct (isPresent v); [apply setProperty_dom | done].
Qed.

(** The loop throws exactly when a measure cell is missing. *)
Lemma storeMeasures_is_Some mf row ms :
  is_Some (storeMeasures mf row ms) ↔ wideEnough mf row.
Proof.
  revert ms. induction mf as [| m mf IH]; intros ms.
  - split; [constructor | by eexists].
  - rewrite storeMeasures_cons. unfold wideEnough. rewrite Forall_cons.
    destruct (row !! index m) as [v |] eqn:Hv; simpl.
    + rewrite IH. pose proof (lookup_lt_Some _ _ _ Hv). tauto.
    + split; [by intros [? [=]] |].
      intros [Hlt _]. apply lookup_lt_is_Some_2 in Hlt.
      rewrite Hv in Hlt. by destruct Hlt.
Qed.

Lemma readMeasures_cons m mf row :
  readMeasures (m :: mf) row =
    measureValue ← row !! index m;
    if isPresent measureValue then None else readMeasures mf row.
Proof.
  unfold readMeasures. simpl. unfold storeOnMember at 2.
  destruct (row !! index m) as [v |]; simpl; [| done].
  by destruct (isPresent v).
Qed.

(** The measure loop on an inherited member gets through exactly when
    every measure cell is there and none holds a value. *)
Lemma readMeasures_is_Some mf row :
  is_Some (readMeasures mf row)
  ↔ wideEnough mf row ∧ noMeasureValue mf row.
Proof.
  unfold wideEnough, noMeasureValue.
  induction mf as [| m mf IH].
  - split; [by split | by eexists].
  - rewrite readMeasures_cons, !Forall_cons.
    destruct (row !! index m) as [v |] eqn:Hv; simpl.
    + pose proof (lookup_lt_Some _ _ _ Hv).
      destruct (isPresent v) eqn:Hp.
      * split; [by intros [? [=]] |].
        intros [_ [Hno _]]. specialize (Hno v eq_refl). congruence.
      * rewrite IH. split; [| tauto].
        intros [? ?]. split_and!; [done | done | | done].
        intros w [= <-]. done.
    + split; [by intros [? [=]] |].
      intros [[Hlt _] _]. apply lookup_lt_is_Some_2 in Hlt.
      rewrite Hv in Hlt. by destruct Hlt.
Qed.

End Measures.

(** * One row through the hierarchy levels *)

Section Paths.

Implicit Types (tree cur : gmap string node) (p : list string).

Lemma lookupPath_cons tree k p :
  lookupPath tree (k :: p) =
    nd ← tree !! k; if decide (p = []) then Some nd
                    else lookupPath (children nd) p.
Proof. by destruct p. Qed.

Lemma lookupPath_singleton tree k : lookupPath tree [k] = tree !! k.
Proof. simpl. by destruct (tree !! k). Qed.

Lemma lookupPath_empty p : lookupPath ∅ p = None.
Proof. destruct p as [| k p]; [done |]. by rewrite lookupPath_cons. Qed.

(** The node at [p ++ [k]] is the child [k] of the node at [p]. *)
Lemma lookupPath_snoc tree p k :
  p ≠ [] →
  lookupPath tree (p ++ [k]) = nd ← lookupPath tree p; children nd !! k.
Proof.
  revert tree. induction p as [| a p IH]; intros tree Hp; [done |].
  rewrite <- app_comm_cons, !lookupPath_cons.
  destruct (tree !! a) as [nd |]; simpl; [| done].
  rewrite decide_False by by destruct p.
  destruct (decide (p = [])) as [-> | Hne].
  - simpl. by destruct (children nd !! k).
  - by apply IH.
Qed.

End Paths.

(** ** Properties of every node *)

Section AllNodes.

Context (Q : string → node → Prop).

Implicit Types (tree cur : gmap string node) (p : list string).

Lemma allNodes_empty : allNodes Q ∅.
Proof. intros p nd. by rewrite lookupPath_empty. Qed.

Lemma allNodes_lookup cur k nd : allNodes Q cur → cur !! k = Some nd → Q k nd.
Proof.
  intros Hall Hk. destruct (Hall [k] nd) as (k' & [= <-] & HQ); [| done].
  by rewrite lookupPath_singleton.
Qed.

Lemma allNodes_children cur k nd :
  allNodes Q cur → cur !! k = Some nd → allNodes Q (children nd).
Proof.
  intros Hall Hk p c Hp.
  assert (p ≠ []) as Hne by (by intros ->).
  destruct (Hall (k :: p) c) as (k' & Hlast & HQ).
  - rewrite lookupPath_cons, Hk. simpl. by rewrite decide_False.
  - exists k'. split; [| done]. destruct p; [done |].
    by rewrite last_cons_cons in Hlast.
Qed.

Lemma allNodes_insert cur k nd :
  allNodes Q cur → Q k nd → allNodes Q (children nd) →
  allNodes Q (<[k := nd]> cur).
Proof.
  intros Hall HQ Hcs p c. destruct p as [| k' p]; [done |].
  rewrite lookupPath_cons. destruct (decide (k' = k)) as [-> | Hk].
  - rewrite lookup_insert_eq. simpl.
    destruct (decide (p = [])) as [-> | Hne].
    + intros [= <-]. by exists k.
    + intros Hp. destruct (Hcs _ _ Hp) as (k' & Hlast & HQ').
      exists k'. split; [| done]. destruct p; [done |].
      by rewrite last_cons_cons.
  - rewrite lookup_insert_ne by done. intros Hp.
    apply (Hall (k' :: p)). by rewrite lookupPath_cons.
Qed.

End AllNodes.

Section WalkTurns.

Context (n : nat) (mf : list field) (row : list value).

Implicit Types (levels : list (nat * field)) (cur : gmap string node).

Lemma levelKeys_nil : levelKeys row [] = [].
Proof. done. Qed.

Lemma levelCells_cons L f levels v :
  row !! index f = Some v →
  levelCells row ((L, f) :: levels) = v :: levelCells row levels.
Proof. intros Hv. unfold levelCells. simpl. by rewrite Hv. Qed.

Lemma cellKeys_cons_null v cells :
  isNullValue v = true → cellKeys (v :: cells) = cellKeys cells.
Proof.
  intros Hnull. unfold cellKeys.
  by rewrite filter_cons_False by by rewrite Hnull.
Qed.

Lemma cellKeys_cons_key v cells :
  isNullValue v = false →
  cellKeys (v :: cells) = propertyKey v :: cellKeys cells.
Proof.
  intros Hnull. unfold cellKeys. by rewrite filter_cons_True by done.
Qed.

Lemma levelKeys_cons_null L f levels v :
  row !! index f = Some v → isNullValue v = true →
  levelKeys row ((L, f) :: levels) = levelKeys row levels.
Proof.
  intros Hv Hnull. unfold levelKeys.
  by rewrite (levelCells_cons _ _ _ v), cellKeys_cons_null.
Qed.

Lemma levelKeys_cons_key L f levels v :
  row !! index f = Some v → isNullValue v = false →
  inherited (propertyKey v) = false →
  levelKeys row ((L, f) :: levels) = propertyKey v :: levelKeys row levels.
Proof.
  intros Hv Hnull Hown. unfold levelKeys.
  rewrite (levelCells_cons _ _ _ v), cellKeys_cons_key by done.
  simpl. by rewrite Hown.
Qed.

Lemma levelKeys_cons_member L f levels v :
  row !! index f = Some v → isNullValue v = false →
  inherited (propertyKey v) = true →
  levelKeys row ((L, f) :: levels) = [].
Proof.
  intros Hv Hnull Hown. unfold levelKeys.
  rewrite (levelCells_cons _ _ _ v), cellKeys_cons_key by done.
  simpl. by rewrite Hown.
Qed.

(** The four ways a turn of the loop can go. *)
Lemma walkLevels_unreadable L f levels cur :
  row !! index f = None →
  walkLevels n mf row ((L, f) :: levels) cur = None.
Proof. intros Hv. simpl. by rewrite Hv. Qed.

Lemma walkLevels_null L f levels cur v :
  row !! index f = Some v → isNullValue v = true →
  walkLevels n mf row ((L, f) :: levels) cur
    = walkLevels n mf row levels cur.
Proof. intros Hv Hnull. simpl. rewrite Hv. simpl. by rewrite Hnull. Qed.

Lemma walkLevels_member L f levels cur v :
  row !! index f = Some v → isNullValue v = false →
  inheritedMember cur (propertyKey v) = true →
  walkLevels n mf row ((L, f) :: levels) cur =
    (_ ← readMeasures mf row; _ ← walkUndefined row levels; Some cur).
Proof.
  intros Hv Hnull Hmem. simpl. rewrite Hv. simpl.
  by rewrite Hnull, Hmem.
Qed.

Lemma walkLevels_key L f levels cur v :
  row !! index f = Some v → isNullValue v = false →
  inheritedMember cur (propertyKey v) = false →
  walkLevels n mf row ((L, f) :: levels) cur =
    let nd := default (newNode n v L) (cur !! propertyKey v) in
    ms ← storeMeasures mf row (measures nd);
    cs ← walkLevels n mf row levels (children nd);
    Some (<[propertyKey v :=
              Node (name nd) (level nd) ms cs (hasChildren nd)]> cur).
Proof.
  intros Hv Hnull Hmem. simpl. rewrite Hv. simpl.
  by rewrite Hnull, Hmem.
Qed.

(** Case analysis on a successful walk over a non-empty list. *)
Lemma walkLevels_cons_inv L f levels cur cur' :
  walkLevels n mf row ((L, f) :: levels) cur = Some cur' →
  ∃ v, row !! index f = Some v ∧
    ((isNullValue v = true ∧ walkLevels n mf row levels cur = Some cur')
     ∨ (isNullValue v = false
        ∧ inheritedMember cur (propertyKey v) = true
        ∧ readMeasures mf row = Some ()
        ∧ walkUndefined row levels = Some ()
        ∧ cur' = cur)
     ∨ (isNullValue v = false
        ∧ inheritedMember cur (propertyKey v) = false
        ∧ ∃ ms cs,
          let nd := default (newNode n v L) (cur !! propertyKey v) in
          storeMeasures mf row (measures nd) = Some ms
          ∧ walkLevels n mf row levels (children nd) = Some cs
          ∧ cur' = <[propertyKey v :=
                       Node (name nd) (level nd) ms cs (hasChildren nd)]>
                     cur)).
Proof.
  intros Hwalk.
  destruct (row !! index f) as [v |] eqn:Hv;
    [| by rewrite walkLevels_unreadable in Hwalk].
  exists v. split; [done |].
  destruct (isNullValue v) eqn:Hnull.
  - left. by rewrite (walkLevels_null _ _ _ _ v) in Hwalk.
  - right. destruct (inheritedMember cur (propertyKey v)) eqn:Hmem.
    + left. rewrite (walkLevels_member _ _ _ _ v) in Hwalk by done.
      destruct (readMeasures mf row) as [[] |]; simpl in Hwalk; [| done].
      destruct (walkUndefined row levels) as [[] |]; simpl in Hwalk;
        [| done].
      by injection Hwalk as <-.
    + right. split; [done |]. split; [done |].
      rewrite (walkLevels_key _ _ _ _ v) in Hwalk by done.
      cbv zeta in Hwalk |- *.
      destruct (storeMeasures _ _ _) as [ms |]; simpl in Hwalk; [| done].
      destruct (walkLevels _ _ _ levels _) as [cs |]; simpl in Hwalk;
        [| done].
      exists ms, cs. by injection Hwalk as <-.
Qed.

Lemma walkUndefined_cons L f levels :
  walkUndefined row ((L, f) :: levels) =
    value ← row !! index f;
    if isNullValue value then walkUndefined row levels else None.
Proof. done. Qed.

(** With the cursor [undefined] the loop gets through exactly when every
    cell still to come is there and null. *)
Lemma walkUndefined_is_Some levels :
  is_Some (walkUndefined row levels)
  ↔ Forall (λ lf : nat * field, index lf.2 < length row) levels
    ∧ cellKeys (levelCells row levels) = [].
Proof.
  induction levels as [| [L f] levels IH].
  - split; [by split | by eexists].
  - rewrite Forall_cons, walkUndefined_cons.
    destruct (row !! index f) as [v |] eqn:Hv.
    + pose proof (lookup_lt_Some _ _ _ Hv).
      rewrite (levelCells_cons _ _ _ v) by done. simpl.
      destruct (isNullValue v) eqn:Hnull.
      * rewrite cellKeys_cons_null by done. rewrite IH. tauto.
      * rewrite cellKeys_cons_key by done.
        split; [by intros [? [=]] | by intros [_ [=]]].
    + split; [by intros [? [=]] |].
      intros [[Hlt _] _]. simpl in Hlt. apply lookup_lt_is_Some_2 in Hlt.
      rewrite Hv in Hlt. by destruct Hlt.
Qed.

End WalkTurns.

(** Case analysis on a successful walk over [(L, f) :: levels]: the cell is
    null and the walk goes on with the same object, or it is an inherited
    name and the object stays as it is, or it is a key and the walk goes on
    below it. *)
Ltac walk_cases H v Hv Hnull Hmem ms cs Hms Hcs :=
  apply walkLevels_cons_inv in H
    as (v & Hv & [[Hnull H]
                 | [(Hnull & Hmem & Hms & Hcs & ->)
                   | (Hnull & Hmem & ms & cs & Hms & Hcs & ->)]]).

Section Walk.

Context (n : nat) (mf : list field) (row : list value).

Implicit Types (levels : list (nat * field)) (cur : gmap string node).

(** In a tree of plain objects a key finds an inherited member exactly
    when it is an inherited name. *)
Lemma plainTree_member cur k :
  plainTree cur → inheritedMember cur k = inherited k.
Proof.
  intros Hplain. unfold inheritedMember.
  destruct (cur !! k) as [nd |] eqn:Hk; simpl; [| done].
  by destruct (allNodes_lookup _ _ _ _ Hplain Hk) as [-> _].
Qed.

Lemma plainTree_default cur k v L :
  plainTree cur →
  plainTree (children (default (newNode n v L) (cur !! k)))
  ∧ measures (default (newNode n v L) (cur !! k)) !! "__proto__" = None.
Proof.
  intros Hplain. destruct (cur !! k) as [nd |] eqn:Hk; simpl.
  - split; [by eapply allNodes_children |].
    by destruct (allNodes_lookup _ _ _ _ Hplain Hk).
  - split; [apply allNodes_empty | done].
Qed.

(** The builder keeps the tree one of plain objects. *)
Lemma walk_plainTree levels cur cur' :
  plainTree cur →
  walkLevels n mf row levels cur = Some cur' →
  plainTree cur'.
Proof.
  revert cur cur'.
  induction levels as [| [L f] levels IH]; intros cur cur' Hplain Hwalk.
  - by injection Hwalk as <-.
  - walk_cases Hwalk v Hv Hnull Hmem ms cs Hms Hcs; [by eapply IH | done |].
    destruct (plainTree_default cur (propertyKey v) v L Hplain)
      as [Hcsplain Hproto].
    apply allNodes_insert; [done | | by eapply IH]. simpl. split.
    + by rewrite <- (plainTree_member cur).
    + by eapply storeMeasures_proto.
Qed.

(** Nodes on the row's path: each exists afterwards, carries the row's
    measure writes on top of what it held, and keeps the name, level and
    flag it was created with. *)
Lemma walk_touch levels cur cur' p :
  plainTree cur →
  walkLevels n mf row levels cur = Some cur' →
  p ≠ [] → p `prefix_of` levelKeys row levels →
  ∃ nd', lookupPath cur' p = Some nd'
    ∧ storeMeasures mf row
        (from_option measures ∅ (lookupPath cur p)) = Some (measures nd')
    ∧ ∀ nd, lookupPath cur p = Some nd →
        name nd' = name nd ∧ level nd' = level nd
        ∧ hasChildren nd' = hasChildren nd.
Proof.
  revert cur cur' p.
  induction levels as [| [L f] levels IH];
    intros cur cur' p Hplain Hwalk Hne Hpre.
  - rewrite levelKeys_nil in Hpre. by apply prefix_nil_inv in Hpre.
  - walk_cases Hwalk v Hv Hnull Hmem ms cs Hms Hcs.
    + rewrite (levelKeys_cons_null _ _ _ _ v) in Hpre by done. eauto.
    + rewrite (plainTree_member cur) in Hmem by done.
      rewrite (levelKeys_cons_member _ _ _ _ v) in Hpre by done.
      by apply prefix_nil_inv in Hpre.
    + rewrite (plainTree_member cur) in Hmem by done.
      destruct (plainTree_default cur (propertyKey v) v L Hplain)
        as [Hcsplain _].
      rewrite (levelKeys_cons_key _ _ _ _ v) in Hpre by done.
      destruct p as [| k p]; [done |].
      pose proof (prefix_cons_inv_1 _ _ _ _ Hpre) as ->.
      apply prefix_cons_inv_2 in Hpre.
      rewrite !lookupPath_cons, lookup_insert_eq. simpl.
      destruct (decide (p = [])) as [-> | Hp].
      * eexists. split; [done |]. simpl.
        destruct (cur !! propertyKey v) as [nd0 |]; simpl in *.
        -- split; [done |]. by intros nd [= <-].
        -- split; [done |]. by intros nd.
      * destruct (IH _ _ p Hcsplain Hcs Hp Hpre)
          as (nd' & Hnd' & Hms' & Hsame).
        exists nd'. split; [done |].
        destruct (cur !! propertyKey v) as [nd0 |]; simpl in *; [done |].
        rewrite lookupPath_empty in Hms'. split; [done |]. by intros nd.
Qed.

(** Everything off the row's path is left as it was. *)
Lemma walk_frame levels cur cur' p :
  plainTree cur →
  walkLevels n mf row levels cur = Some cur' →
  ¬ p `prefix_of` levelKeys row levels →
  lookupPath cur' p = lookupPath cur p.
Proof.
  revert cur cur' p.
  induction levels as [| [L f] levels IH];
    intros cur cur' p Hplain Hwalk Hpre.
  - by injection Hwalk as <-.
  - walk_cases Hwalk v Hv Hnull Hmem ms cs Hms Hcs.
    + rewrite (levelKeys_cons_null _ _ _ _ v) in Hpre by done. eauto.
    + done.
    + rewrite (plainTree_member cur) in Hmem by done.
      destruct (plainTree_default cur (propertyKey v) v L Hplain)
        as [Hcsplain _].
      rewrite (levelKeys_cons_key _ _ _ _ v) in Hpre by done.
      destruct p as [| k p]; [done |].
      rewrite !lookupPath_cons.
      destruct (decide (k = propertyKey v)) as [-> | Hk].
      * assert (¬ p `prefix_of` levelKeys row levels) as Hp.
        { intros Hp. apply Hpre. by apply prefix_cons. }
        assert (p ≠ []) as Hpne.
        { intros ->. apply Hp. apply prefix_nil. }
        rewrite lookup_insert_eq. simpl. rewrite decide_False by done.
        rewrite (IH _ _ p Hcsplain Hcs Hp).
        destruct (cur !! propertyKey v) as [nd0 |]; simpl.
        -- by rewrite decide_False.
        -- apply lookupPath_empty.
      * by rewrite lookup_insert_ne.
Qed.

(** Nothing that exists is lost or relabelled. *)
Lemma walk_keep levels cur cur' p nd :
  plainTree cur →
  walkLevels n mf row levels cur = Some cur' →
  lookupPath cur p = Some nd →
  ∃ nd', lookupPath cur' p = Some nd'
    ∧ name nd' = name nd ∧ level nd' = level nd
    ∧ hasChildren nd' = hasChildren nd
    ∧ dom (measures nd) ⊆ dom (measures nd').
Proof.
  intros Hplain Hwalk Hnd.
  destruct (decide (p `prefix_of` levelKeys row levels)) as [Hpre | Hpre].
  - assert (p ≠ []) as Hne by (by intros ->).
    destruct (walk_touch _ _ _ _ Hplain Hwalk Hne Hpre)
      as (nd' & Hnd' & Hms & Hsame).
    exists nd'. rewrite Hnd in Hms. simpl in Hms.
    destruct (Hsame _ Hnd) as (? & ? & ?).
    split_and!; [done .. |]. by eapply storeMeasures_dom.
  - exists nd. by rewrite (walk_frame _ _ _ _ Hplain Hwalk Hpre).
Qed.

(** A node that was not there before the walk was made by one of its
    turns: from a non-null cell, under the key of that cell and with that
    turn's level index. *)
Lemma walk_created levels cur cur' p nd :
  walkLevels n mf row levels cur = Some cur' →
  lookupPath cur' p = Some nd → lookupPath cur p = None →
  ∃ L f v, (L, f) ∈ levels ∧ row !! index f = Some v
           ∧ isNullValue v = false ∧ level nd = L ∧ name nd = v
           ∧ last p = Some (propertyKey v).
Proof.
  revert cur cur' p.
  induction levels as [| [L f] levels IH]; intros cur cur' p Hwalk Hnew Hold.
  - injection Hwalk as <-. congruence.
  - walk_cases Hwalk v Hv Hnull Hmem ms cs Hms Hcs.
    + destruct (IH _ _ _ Hwalk Hnew Hold) as (L' & f' & v' & Hin & Hrest).
      exists L', f', v'. split; [by right | done].
    + congruence.
    + destruct p as [| k p]; [done |].
      rewrite lookupPath_cons in Hnew, Hold.
      destruct (decide (k = propertyKey v)) as [-> | Hk];
        [| rewrite lookup_insert_ne in Hnew by done; congruence].
      rewrite lookup_insert_eq in Hnew. simpl in Hnew.
      destruct (decide (p = [])) as [-> | Hp].
      * injection Hnew as <-. simpl.
        destruct (cur !! propertyKey v) as [nd0 |]; simpl in *; [done |].
        exists L, f, v. split; [by left | done].
      * destruct (IH _ _ p Hcs Hnew) as (L' & f' & v' & Hin & Hrest).
        { destruct (cur !! propertyKey v) as [nd0 |]; simpl in *; [done |].
          apply lookupPath_empty. }
        exists L', f', v'. split; [by right |].
        destruct Hrest as (? & ? & ? & ? & Hlast).
        split_and!; [done .. |]. destruct p; [done |].
        by rewrite last_cons_cons.
Qed.

(** ... and it sits at the keys of the non-null cells up to its level. *)
Lemma walk_created_at levels cur cur' p nd :
  walkLevels n mf row levels cur = Some cur' →
  lookupPath cur' p = Some nd → lookupPath cur p = None →
  ∃ i L f, levels !! i = Some (L, f) ∧ level nd = L
           ∧ p = cellKeys (levelCells row (take (S i) levels)).
Proof.
  revert cur cur' p.
  induction levels as [| [L f] levels IH]; intros cur cur' p Hwalk Hnew Hold.
  - injection Hwalk as <-. congruence.
  - walk_cases Hwalk v Hv Hnull Hmem ms cs Hms Hcs.
    + destruct (IH _ _ _ Hwalk Hnew Hold) as (i & L' & f' & Hi & Hl & ->).
      exists (S i), L', f'. split_and!; [done | done |].
      change (take (S (S i)) ((L, f) :: levels))
        with ((L, f) :: take (S i) levels).
      by rewrite (levelCells_cons _ _ _ _ v Hv), cellKeys_cons_null.
    + congruence.
    + destruct p as [| k p]; [done |].
      rewrite lookupPath_cons in Hnew, Hold.
      destruct (decide (k = propertyKey v)) as [-> | Hk];
        [| rewrite lookup_insert_ne in Hnew by done; congruence].
      rewrite lookup_insert_eq in Hnew. simpl in Hnew.
      destruct (decide (p = [])) as [-> | Hp].
      * injection Hnew as <-. simpl.
        destruct (cur !! propertyKey v) as [nd0 |]; simpl in *; [done |].
        exists 0, L, f. split_and!; [done | done |].
        rewrite Hv. by rewrite cellKeys_cons_key.
      * destruct (IH _ _ p Hcs Hnew) as (i & L' & f' & Hi & Hl & ->).
        { destruct (cur !! propertyKey v) as [nd0 |]; simpl in *; [done |].
          apply lookupPath_empty. }
        exists (S i), L', f'. split_and!; [done | done |].
        change (take (S (S i)) ((L, f) :: levels))
          with ((L, f) :: take (S i) levels).
        by rewrite (levelCells_cons _ _ _ _ v Hv), cellKeys_cons_key.
Qed.

End Walk.

(** * The loop with a cursor is the recursive walk *)

Section Cursor.

Context (n : nat) (mf : list field) (row : list value).

Implicit Types (cursor : list string) (tree obj : gmap string node)
               (levels : list (nat * field)).

Lemma node_eta nd :
  Node (name nd) (level nd) (measures nd) (children nd) (hasChildren nd)
    = nd.
Proof. by destruct nd. Qed.

Lemma atCursor_app cursor1 cursor2 update tree :
  atCursor (cursor1 ++ cursor2) update tree
    = atCursor cursor1 (atCursor cursor2 update) tree.
Proof.
  revert tree. induction cursor1 as [| key cursor1 IH]; intros tree; simpl;
    [done |].
  destruct (tree !! key) as [nd |]; simpl; [| done]. by rewrite IH.
Qed.

(** An update through a cursor reads the object the cursor refers to and
    puts the updated object in its place. *)
Lemma atCursor_objectAt cursor update tree :
  atCursor cursor update tree =
    (obj ← objectAt cursor tree;
     obj' ← update obj;
     atCursor cursor (λ _, Some obj') tree).
Proof.
  revert tree. induction cursor as [| key cursor IH]; intros tree; simpl.
  - by destruct (update tree).
  - destruct (tree !! key) as [nd |]; simpl; [| done].
    rewrite IH.
    destruct (objectAt cursor (children nd)) as [obj |]; simpl; [| done].
    by destruct (update obj).
Qed.

(** Putting an object where the cursor refers to works, and the cursor
    then refers to that object. *)
Lemma atCursor_put cursor tree obj obj' :
  objectAt cursor tree = Some obj →
  ∃ tree', atCursor cursor (λ _, Some obj') tree = Some tree'
    ∧ objectAt cursor tree' = Some obj'
    ∧ ∀ obj'', atCursor cursor (λ _, Some obj'') tree'
               = atCursor cursor (λ _, Some obj'') tree.
Proof.
  revert tree. induction cursor as [| key cursor IH]; intros tree Hobj; simpl.
  - by exists obj'.
  - simpl in Hobj.
    destruct (tree !! key) as [nd |]; simpl in *; [| done].
    destruct (IH _ Hobj) as (cs & -> & Hcs & Hagain). simpl.
    eexists. split; [done |].
    rewrite lookup_insert_eq. simpl. split; [done |].
    intros obj''. rewrite Hagain.
    destruct (atCursor cursor _ (children nd)); simpl; [| done].
    by rewrite insert_insert_eq.
Qed.

(** Putting back the object that is there changes nothing. *)
Lemma atCursor_same cursor tree obj :
  objectAt cursor tree = Some obj →
  atCursor cursor (λ _, Some obj) tree = Some tree.
Proof.
  revert tree. induction cursor as [| key cursor IH]; intros tree Hobj; simpl.
  - by injection Hobj as ->.
  - simpl in Hobj.
    destruct (tree !! key) as [nd |] eqn:Hnd; simpl in *; [| done].
    rewrite (IH _ Hobj). simpl.
    by rewrite node_eta, insert_id.
Qed.

Lemma objectAt_snoc cursor key tree obj nd :
  objectAt cursor tree = Some obj → obj !! key = Some nd →
  objectAt (cursor ++ [key]) tree = Some (children nd).
Proof.
  revert tree. induction cursor as [| k cursor IH]; intros tree Hobj Hnd;
    simpl in *.
  - injection Hobj as ->. by rewrite Hnd.
  - destruct (tree !! k) as [nd0 |]; simpl in *; [| done]. by apply IH.
Qed.

Lemma forEach_cons {St A} (f : St → A → option St) x (l : list A) s :
  forEach f (x :: l) s = f s x ≫= forEach f l.
Proof. done. Qed.

(** The ways a turn of the loop can go. *)
Lemma visitLevel_unreadable L f tree (c : option (list string)) :
  row !! index f = None →
  visitLevel n mf row (tree, c) (L, f) = None.
Proof. intros Hv. unfold visitLevel. simpl. by rewrite Hv. Qed.

Lemma visitLevel_null L f tree (c : option (list string)) v :
  row !! index f = Some v → isNullValue v = true →
  visitLevel n mf row (tree, c) (L, f) = Some (tree, c).
Proof.
  intros Hv Hnull. unfold visitLevel. simpl. rewrite Hv. simpl.
  by rewrite Hnull.
Qed.

Lemma visitLevel_undefined L f tree v :
  row !! index f = Some v → isNullValue v = false →
  visitLevel n mf row (tree, None) (L, f) = None.
Proof.
  intros Hv Hnull. unfold visitLevel. simpl. rewrite Hv. simpl.
  by rewrite Hnull.
Qed.

Lemma visitLevel_key L f tree cursor v :
  row !! index f = Some v → isNullValue v = false →
  visitLevel n mf row (tree, Some cursor) (L, f) =
    (tree' ← atCursor cursor (touchNode n mf row L v) tree;
     currentLevel ← objectAt cursor tree';
     Some (tree',
           if inheritedMember currentLevel (propertyKey v) then None
           else Some (cursor ++ [propertyKey v]))).
Proof.
  intros Hv Hnull. unfold visitLevel. simpl. rewrite Hv. simpl.
  by rewrite Hnull.
Qed.

(** The loop once the cursor is [undefined]. *)
Lemma forEach_visitLevel_undefined levels tree :
  forEach (visitLevel n mf row) levels (tree, None) ≫= (λ st, Some st.1)
    = (_ ← walkUndefined row levels; Some tree).
Proof.
  induction levels as [| [L f] levels IH]; [done |].
  rewrite forEach_cons, walkUndefined_cons.
  destruct (row !! index f) as [v |] eqn:Hv.
  - destruct (isNullValue v) eqn:Hnull.
    + rewrite (visitLevel_null _ _ _ _ v) by done. simpl.
      by rewrite Hnull.
    + rewrite (visitLevel_undefined _ _ _ v) by done. simpl.
      by rewrite Hnull.
  - by rewrite visitLevel_unreadable.
Qed.

(** The loop from a cursor that refers to an object: the tree is updated
    at the cursor as the recursive walk says. *)
Lemma forEach_visitLevel levels tree cursor obj :
  objectAt cursor tree = Some obj →
  forEach (visitLevel n mf row) levels (tree, Some cursor)
    ≫= (λ st, Some st.1)
  = (obj' ← walkLevels n mf row levels obj;
     atCursor cursor (λ _, Some obj') tree).
Proof.
  revert tree cursor obj.
  induction levels as [| [L f] levels IH]; intros tree cursor obj Hobj.
  - simpl. by rewrite (atCursor_same _ _ _ Hobj).
  - rewrite forEach_cons.
    destruct (row !! index f) as [v |] eqn:Hv;
      [| by rewrite visitLevel_unreadable, walkLevels_unreadable].
    destruct (isNullValue v) eqn:Hnull.
    { rewrite (visitLevel_null _ _ _ _ v) by done.
      rewrite (walkLevels_null _ _ _ _ _ _ _ v) by done. by apply IH. }
    rewrite (visitLevel_key _ _ _ _ v) by done.
    rewrite atCursor_objectAt, Hobj. cbn [mbind option_bind].
    unfold touchNode. cbv zeta.
    destruct (inheritedMember obj (propertyKey v)) eqn:Hmem.
    + rewrite (walkLevels_member _ _ _ _ _ _ _ v) by done. simpl.
      destruct (readMeasures mf row) as [[] |]; simpl; [| done].
      rewrite (atCursor_same _ _ _ Hobj). simpl. rewrite Hobj. simpl.
      rewrite Hmem, forEach_visitLevel_undefined.
      destruct (walkUndefined row levels) as [[] |]; simpl; [| done].
      by rewrite (atCursor_same _ _ _ Hobj).
    + rewrite (walkLevels_key _ _ _ _ _ _ _ v) by done. cbv zeta.
      cbn [mbind option_bind].
      set (nd := default (newNode n v L) (obj !! propertyKey v)).
      destruct (storeMeasures mf row (measures nd)) as [ms |]; simpl;
        [| done].
      set (nd1 := Node (name nd) (level nd) ms (children nd)
                       (hasChildren nd)).
      destruct (atCursor_put cursor tree obj
                  (<[propertyKey v := nd1]> obj) Hobj)
        as (tree1 & -> & Hobj1 & Hagain).
      simpl. rewrite Hobj1. simpl.
      assert (inheritedMember (<[propertyKey v := nd1]> obj)
                              (propertyKey v) = false) as ->.
      { unfold inheritedMember. by rewrite lookup_insert_eq. }
      rewrite (IH tree1 (cursor ++ [propertyKey v]) (children nd)).
      * destruct (walkLevels n mf row levels (children nd)) as [cs |];
          simpl; [| done].
        rewrite atCursor_app, atCursor_objectAt, Hobj1. simpl.
        rewrite lookup_insert_eq. simpl.
        rewrite insert_insert_eq. apply Hagain.
      * apply (objectAt_snoc _ _ _ _ nd1 Hobj1).
        by rewrite lookup_insert_eq.
Qed.

(** The loop of the source, which moves a cursor down the tree, computes
    what the recursive reading says. *)
Lemma visitLevels_walkLevels levels tree :
  visitLevels n mf row levels tree = walkLevels n mf row levels tree.
Proof.
  unfold visitLevels.
  change (forEach (visitLevel n mf row) levels (tree, Some [])
            ≫= (λ st, Some st.1) = walkLevels n mf row levels tree).
  rewrite (forEach_visitLevel levels tree [] tree) by done. simpl.
  by destruct (walkLevels n mf row levels tree).
Qed.

End Cursor.

(** * The tree builder *)

Section RowKeys.

Implicit Types (hf : list field) (row : list value) (keys : list string).

Lemma hierarchyCells_app hf1 hf2 row :
  hierarchyCells (hf1 ++ hf2) row
    = hierarchyCells hf1 row ++ hierarchyCells hf2 row.
Proof. apply omap_app. Qed.

Lemma cellKeys_app cells1 cells2 :
  cellKeys (cells1 ++ cells2) = cellKeys cells1 ++ cellKeys cells2.
Proof. unfold cellKeys. by rewrite filter_app, fmap_app. Qed.

Lemma hierarchyKeys_app hf1 hf2 row :
  hierarchyKeys (hf1 ++ hf2) row
    = hierarchyKeys hf1 row ++ hierarchyKeys hf2 row.
Proof. unfold hierarchyKeys. by rewrite hierarchyCells_app, cellKeys_app. Qed.

Lemma hierarchyKeys_null f row v :
  row !! index f = Some v → isNullValue v = true →
  hierarchyKeys [f] row = [].
Proof.
  intros Hv Hnull. unfold hierarchyKeys, hierarchyCells. simpl.
  rewrite Hv. by apply cellKeys_cons_null.
Qed.

Lemma hierarchyKeys_key f row v :
  row !! index f = Some v → isNullValue v = false →
  hierarchyKeys [f] row = [propertyKey v].
Proof.
  intros Hv Hnull. unfold hierarchyKeys, hierarchyCells. simpl.
  rewrite Hv. by apply cellKeys_cons_key.
Qed.

Lemma hierarchyKeys_length hf row : length (hierarchyKeys hf row) ≤ length hf.
Proof.
  induction hf as [| f hf IH]; [done |].
  change (f :: hf) with ([f] ++ hf).
  rewrite hierarchyKeys_app, !length_app.
  assert (length (hierarchyKeys [f] row) ≤ 1); [| simpl in *; lia].
  destruct (row !! index f) as [v |] eqn:Hv.
  - destruct (isNullValue v) eqn:Hnull.
    + rewrite (hierarchyKeys_null _ _ v) by done. simpl. lia.
    + rewrite (hierarchyKeys_key _ _ v) by done. simpl. lia.
  - unfold hierarchyKeys, hierarchyCells. simpl. rewrite Hv. simpl. lia.
Qed.

Lemma hierarchyKeys_allNull hf row :
  Forall (λ f, ∃ v, row !! index f = Some v ∧ isNullValue v = true) hf →
  hierarchyKeys hf row = [].
Proof.
  induction 1 as [| f hf (v & Hv & Hnull) _ IH]; [done |].
  change (f :: hf) with ([f] ++ hf).
  by rewrite hierarchyKeys_app, (hierarchyKeys_null _ _ v), IH.
Qed.

(** The row's keys without the key of a level whose cell is null. *)
Lemma hierarchyKeys_skip hf row L f v :
  hf !! L = Some f → row !! index f = Some v → isNullValue v = true →
  hierarchyKeys hf row
    = hierarchyKeys (take L hf) row ++ hierarchyKeys (drop (S L) hf) row.
Proof.
  intros Hf Hv Hnull.
  rewrite <- (take_drop_middle hf L f Hf) at 1.
  change (f :: drop (S L) hf) with ([f] ++ drop (S L) hf).
  by rewrite !hierarchyKeys_app, (hierarchyKeys_null _ _ v).
Qed.

Lemma beforeInherited_app keys1 keys2 :
  Forall (λ k, inherited k = false) keys1 →
  beforeInherited (keys1 ++ keys2) = keys1 ++ beforeInherited keys2.
Proof.
  induction 1 as [| k keys1 Hk _ IH]; [done |]. simpl.
  by rewrite Hk, IH.
Qed.

End RowKeys.

Section Build.

Context (hf mf : list field).

Implicit Types (tree : gmap string node) (row : list value)
               (data : list (list value)) (p : list string).

Lemma omap_imap_snd {A B C} (h : A → option C) (g : nat → B) (l : list A) :
  omap (λ lf : B * A, h lf.2) (imap (λ i f, (g i, f)) l) = omap h l.
Proof.
  revert g. induction l as [| x l IH]; intros g; [done |].
  rewrite imap_cons. csimpl.
  destruct (h x); [f_equal |]; exact (IH (g ∘ S)).
Qed.

Lemma levelCells_indexed row :
  levelCells row (indexed hf) = hierarchyCells hf row.
Proof.
  unfold levelCells, hierarchyCells, indexed.
  by rewrite (omap_imap_snd (λ f, row !! index f) (λ i, i)).
Qed.

Lemma levelKeys_indexed row : levelKeys row (indexed hf) = rowPath hf row.
Proof. unfold levelKeys, rowPath, hierarchyKeys. by rewrite levelCells_indexed. Qed.

(** The loop of the source for one row, read recursively. *)
Lemma processRow_walkLevels tree row :
  processRow hf mf tree row
    = walkLevels (length hf) mf row (indexed hf) tree.
Proof. apply visitLevels_walkLevels. Qed.

Lemma buildFrom_nil tree : buildFrom hf mf [] tree = Some tree.
Proof. done. Qed.

Lemma buildFrom_cons row data tree :
  buildFrom hf mf (row :: data) tree
    = tree' ← processRow hf mf tree row; buildFrom hf mf data tree'.
Proof. done. Qed.

Lemma buildFrom_app data1 data2 tree :
  buildFrom hf mf (data1 ++ data2) tree
    = buildFrom hf mf data1 tree ≫= buildFrom hf mf data2.
Proof.
  revert tree. induction data1 as [| row data1 IH]; intros tree.
  - done.
  - rewrite <- app_comm_cons, !buildFrom_cons.
    destruct (processRow hf mf tree row) as [tree' |]; simpl; [| done].
    apply IH.
Qed.

Lemma buildFrom_snoc data row tree :
  buildFrom hf mf (data ++ [row]) tree
    = tree' ← buildFrom hf mf data tree; processRow hf mf tree' row.
Proof.
  rewrite buildFrom_app.
  destruct (buildFrom hf mf data tree) as [tree' |]; simpl; [| done].
  rewrite buildFrom_cons. by destruct (processRow hf mf tree' row).
Qed.

Lemma buildFrom_cons_inv row data tree tree' :
  buildFrom hf mf (row :: data) tree = Some tree' →
  ∃ tree1, processRow hf mf tree row = Some tree1
           ∧ buildFrom hf mf data tree1 = Some tree'.
Proof.
  rewrite buildFrom_cons. intros Hb.
  destruct (processRow hf mf tree row) as [tree1 |]; simpl in Hb; [| done].
  by exists tree1.
Qed.

Lemma buildFrom_app_inv data1 data2 tree tree' :
  buildFrom hf mf (data1 ++ data2) tree = Some tree' →
  ∃ tree1, buildFrom hf mf data1 tree = Some tree1
           ∧ buildFrom hf mf data2 tree1 = Some tree'.
Proof.
  rewrite buildFrom_app. intros Hb.
  destruct (buildFrom hf mf data1 tree) as [tree1 |]; simpl in Hb; [| done].
  by exists tree1.
Qed.

(** The builder makes plain objects only. *)
Lemma processRow_plainTree tree tree' row :
  plainTree tree → processRow hf mf tree row = Some tree' → plainTree tree'.
Proof. rewrite processRow_walkLevels. apply walk_plainTree. Qed.

Lemma buildFrom_plainTree data tree tree' :
  plainTree tree → buildFrom hf mf data tree = Some tree' → plainTree tree'.
Proof.
  revert tree. induction data as [| row data IH]; intros tree Hplain Hb.
  - by injection Hb as <-.
  - apply buildFrom_cons_inv in Hb as (tree1 & Hrow & Hb).
    eapply IH; [| done]. by eapply processRow_plainTree.
Qed.

Lemma build_plainTree data tree :
  buildHierarchicalTree hf mf data = Some tree → plainTree tree.
Proof. apply buildFrom_plainTree, allNodes_empty. Qed.

(** Nodes on the path of a row, after the row. *)
Lemma processRow_touch tree tree' row p :
  plainTree tree →
  processRow hf mf tree row = Some tree' →
  p ≠ [] → p `prefix_of` rowPath hf row →
  ∃ nd', lookupPath tree' p = Some nd'
    ∧ ∀ x, measures nd' !! x =
             match rowMeasure mf row x with
             | Some v => Some v
             | None => nd ← lookupPath tree p; measures nd !! x
             end.
Proof.
  intros Hplain Hrow Hne Hpre. rewrite <- levelKeys_indexed in Hpre.
  rewrite processRow_walkLevels in Hrow.
  destruct (walk_touch _ _ _ _ _ _ _ Hplain Hrow Hne Hpre)
    as (nd' & Hnd' & Hms & _).
  exists nd'. split; [done |]. intros x.
  assert (from_option measures ∅ (lookupPath tree p) !! "__proto__" = None)
    as Hproto.
  { destruct (lookupPath tree p) as [nd |] eqn:Hp; simpl; [| done].
    by destruct (Hplain _ _ Hp) as (k & _ & _ & ?). }
  rewrite (storeMeasures_lookup _ _ _ _ x Hproto Hms).
  destruct (rowMeasure mf row x); [done |].
  by destruct (lookupPath tree p).
Qed.

Lemma processRow_frame tree tree' row p :
  plainTree tree →
  processRow hf mf tree row = Some tree' →
  ¬ p `prefix_of` rowPath hf row →
  lookupPath tree' p = lookupPath tree p.
Proof.
  intros Hplain Hrow Hpre. rewrite <- levelKeys_indexed in Hpre.
  rewrite processRow_walkLevels in Hrow.
  by eapply walk_frame.
Qed.

Lemma buildFrom_keep data tree tree' p nd :
  plainTree tree →
  buildFrom hf mf data tree = Some tree' →
  lookupPath tree p = Some nd →
  ∃ nd', lookupPath tree' p = Some nd'
    ∧ name nd' = name nd ∧ level nd' = level nd
    ∧ hasChildren nd' = hasChildren nd
    ∧ dom (measures nd) ⊆ dom (measures nd').
Proof.
  revert tree nd.
  induction data as [| row data IH]; intros tree nd Hplain Hb Hnd.
  - injection Hb as <-. by exists nd.
  - apply buildFrom_cons_inv in Hb as (tree1 & Hrow & Hb).
    pose proof (processRow_plainTree _ _ _ Hplain Hrow) as Hplain1.
    rewrite processRow_walkLevels in Hrow.
    destruct (walk_keep _ _ _ _ _ _ _ _ Hplain Hrow Hnd)
      as (nd1 & Hnd1 & Hn1 & Hl1 & Hh1 & Hd1).
    destruct (IH _ _ Hplain1 Hb Hnd1) as (nd' & Hnd' & Hn & Hl & Hh & Hd).
    exists nd'. split_and!; [done | congruence .. | set_solver].
Qed.

(** The nodes a row adds to the tree come from its non-null hierarchy
    cells and are labelled with the positions of those cells. *)
Lemma processRow_created tree tree' row p nd :
  processRow hf mf tree row = Some tree' →
  lookupPath tree' p = Some nd → lookupPath tree p = None →
  ∃ f v, hf !! level nd = Some f ∧ row !! index f = Some v
         ∧ isNullValue v = false ∧ name nd = v
         ∧ last p = Some (propertyKey v).
Proof.
  rewrite processRow_walkLevels. intros Hrow Hnew Hold.
  destruct (walk_created _ _ _ _ _ _ _ _ Hrow Hnew Hold)
    as (L & f & v & Hin & Hv & Hnull & <- & Hname & Hlast).
  exists f, v. split_and!; [| done ..].
  unfold indexed in Hin.
  by apply elem_of_lookup_imap_1 in Hin as (i & f' & [= -> ->] & Hf).
Qed.

Lemma take_imap {A B} (g : nat → A → B) k (l : list A) :
  take k (imap g l) = imap g (take k l).
Proof.
  revert g k. induction l as [| x l IH]; intros g k; [by destruct k |].
  destruct k as [| k]; [done |].
  rewrite imap_cons. simpl. f_equal. apply IH.
Qed.

Lemma levelCells_take_indexed row k :
  levelCells row (take k (indexed hf)) = hierarchyCells (take k hf) row.
Proof.
  unfold levelCells, hierarchyCells, indexed. rewrite take_imap.
  apply (omap_imap_snd (λ f, row !! index f) (λ i, i)).
Qed.

(** A node the row makes sits at the keys of the row's non-null cells up
    to the level it is labelled with. *)
Lemma processRow_created_at tree tree' row p nd :
  processRow hf mf tree row = Some tree' →
  lookupPath tree' p = Some nd → lookupPath tree p = None →
  p = hierarchyKeys (take (S (level nd)) hf) row.
Proof.
  rewrite processRow_walkLevels. intros Hrow Hnew Hold.
  destruct (walk_created_at _ _ _ _ _ _ _ _ Hrow Hnew Hold)
    as (i & L & f & Hi & HL & ->).
  unfold indexed in Hi. rewrite list_lookup_imap in Hi.
  destruct (hf !! i) as [f' |] eqn:Hf; [| done].
  injection Hi as <- <-. rewrite HL.
  fold (indexed hf). by rewrite levelCells_take_indexed.
Qed.

(** A row and one entry of one node: the row writes it when the node is on
    the row's path and the row has a present cell for the name, and leaves
    it alone otherwise. *)
Lemma processRow_stored_on tree tree' row p x :
  plainTree tree →
  processRow hf mf tree row = Some tree' →
  p ≠ [] → p `prefix_of` rowPath hf row →
  is_Some (lookupPath tree' p)
  ∧ storedMeasure tree' p x =
      match rowMeasure mf row x with
      | Some v => Some v
      | None => storedMeasure tree p x
      end.
Proof.
  intros Hplain Hrow Hne Hpre.
  destruct (processRow_touch _ _ _ p Hplain Hrow Hne Hpre)
    as (nd' & Hnd' & Hm).
  split; [by exists nd' |].
  unfold storedMeasure at 1. rewrite Hnd'. simpl. apply Hm.
Qed.

Lemma processRow_stored_off tree tree' row p x :
  plainTree tree →
  processRow hf mf tree row = Some tree' →
  ¬ p `prefix_of` rowPath hf row ∨ rowMeasure mf row x = None →
  storedMeasure tree' p x = storedMeasure tree p x.
Proof.
  intros Hplain Hrow Hoff.
  destruct (decide (p = [])) as [-> | Hne]; [done |].
  destruct (decide (p `prefix_of` rowPath hf row)) as [Hpre | Hpre].
  - destruct Hoff as [Hoff | Hnone]; [done |].
    destruct (processRow_stored_on _ _ _ p x Hplain Hrow Hne Hpre)
      as [_ ->].
    by rewrite Hnone.
  - unfold storedMeasure. by rewrite (processRow_frame _ _ _ _ Hplain Hrow).
Qed.

Lemma buildFrom_stored_off data tree tree' p x :
  plainTree tree →
  buildFrom hf mf data tree = Some tree' →
  Forall (λ row, ¬ p `prefix_of` rowPath hf row
                 ∨ rowMeasure mf row x = None) data →
  storedMeasure tree' p x = storedMeasure tree p x.
Proof.
  intros Hplain Hb Hoff. revert tree Hplain Hb.
  induction Hoff as [| row data Hrow _ IH]; intros tree Hplain Hb.
  - by injection Hb as <-.
  - apply buildFrom_cons_inv in Hb as (tree1 & Hrow1 & Hb).
    rewrite (IH tree1); [by eapply processRow_stored_off | | done].
    by eapply processRow_plainTree.
Qed.

(** C1, as the code has it.  A row is added to a built tree; its cell of
    level [L] is null, undefined or ['%null%'].  Level [L] gives the row's
    path no key: the path is that of the other levels, so the cursor stays
    where it was.  Every node on that path exists afterwards and holds,
    under every measure name, the value the row writes or else what it
    held before; everything off the path is as before.  A node the row
    makes is labelled with the level of the non-null cell it is made
    from, which is not [L], and sits at the keys of the row's non-null
    cells up to that level.  A non-null cell of a level [M] gives a node
    at the keys of the non-null cells up to [M], as long as none of these
    is an inherited name, and so above depth [M] when [M] is deeper than
    [L].  When every deeper cell is null as well, the path is that of the
    levels before [L]. *)
Theorem null_level_skipped pre row tree tree' L f v :
  hf !! L = Some f → row !! index f = Some v → isNullValue v = true →
  buildHierarchicalTree hf mf pre = Some tree →
  buildHierarchicalTree hf mf (pre ++ [row]) = Some tree' →
  rowPath hf row = rowPath (take L hf ++ drop (S L) hf) row
  ∧ (∀ p x, p ≠ [] → p `prefix_of` rowPath hf row →
       is_Some (lookupPath tree' p)
       ∧ storedMeasure tree' p x =
           match rowMeasure mf row x with
           | Some w => Some w
           | None => storedMeasure tree p x
           end)
  ∧ (∀ p, ¬ p `prefix_of` rowPath hf row →
       lookupPath tree' p = lookupPath tree p)
  ∧ (∀ p nd, lookupPath tree' p = Some nd → lookupPath tree p = None →
       ∃ M f' v', M ≠ L ∧ hf !! M = Some f' ∧ row !! index f' = Some v'
         ∧ isNullValue v' = false ∧ level nd = M ∧ name nd = v'
         ∧ p = hierarchyKeys (take (S M) hf) row
         ∧ last p = Some (propertyKey v')
         ∧ p `prefix_of` rowPath hf row)
  ∧ (∀ M f' v', hf !! M = Some f' → row !! index f' = Some v' →
       isNullValue v' = false →
       Forall (λ k, inherited k = false) (hierarchyKeys (take (S M) hf) row) →
       hierarchyKeys (take (S M) hf) row `prefix_of` rowPath hf row
       ∧ last (hierarchyKeys (take (S M) hf) row) = Some (propertyKey v')
       ∧ (L < M → length (hierarchyKeys (take (S M) hf) row) ≤ M))
  ∧ (Forall (λ f', ∃ v', row !! index f' = Some v' ∧ isNullValue v' = true)
            (drop (S L) hf) →
     rowPath hf row = rowPath (take L hf) row).
Proof.
  intros Hf Hv Hnull Hb Hb'.
  pose proof (build_plainTree _ _ Hb) as Hplain.
  unfold buildHierarchicalTree in Hb'.
  rewrite buildFrom_snoc in Hb'.
  fold (buildHierarchicalTree hf mf pre) in Hb'.
  rewrite Hb in Hb'. simpl in Hb'.
  pose proof (hierarchyKeys_skip hf row L f v Hf Hv Hnull) as Hskip.
  split_and!.
  - unfold rowPath. by rewrite hierarchyKeys_app, Hskip.
  - intros p x Hne Hpre. by apply processRow_stored_on.
  - intros p Hpre. by eapply processRow_frame.
  - intros p nd Hnew Hold.
    destruct (processRow_created _ _ _ _ _ Hb' Hnew Hold)
      as (f' & v' & Hf' & Hv' & Hnull' & Hname & Hlast).
    exists (level nd), f', v'. split_and!; try done.
    + intros HL. rewrite HL in Hf'. congruence.
    + by eapply processRow_created_at.
    + destruct (decide (p `prefix_of` rowPath hf row)) as [| Hoff]; [done |].
      rewrite (processRow_frame _ _ _ _ Hplain Hb' Hoff) in Hnew.
      congruence.
  - intros M f' v' Hf' Hv' Hnull' Hown.
    pose proof (lookup_lt_Some _ _ _ Hf') as HM.
    split_and!.
    + unfold rowPath. rewrite <- (take_drop (S M) hf) at 2.
      rewrite hierarchyKeys_app, beforeInherited_app by done.
      by apply prefix_app_r.
    + rewrite (take_S_r _ _ _ Hf'), hierarchyKeys_app.
      rewrite (hierarchyKeys_key _ _ v') by done. apply last_snoc.
    + intros HLM.
      assert (take (S M) hf !! L = Some f) as HfL.
      { rewrite lookup_take_lt by lia. done. }
      rewrite (hierarchyKeys_skip _ row L f v HfL Hv Hnull).
      rewrite length_app.
      pose proof (hierarchyKeys_length (take L (take (S M) hf)) row).
      pose proof (hierarchyKeys_length (drop (S L) (take (S M) hf)) row).
      rewrite length_take in *. rewrite length_drop, length_take in *.
      lia.
  - intros Hrest. unfold rowPath.
    by rewrite Hskip, (hierarchyKeys_allNull _ _ Hrest), app_nil_r.
Qed.

(** C5, as the code has it.  Two rows that pass through the same nodes,
    the second somewhere after the first.  At every node on that path and
    for every measure name: the earlier row leaves its value there (or,
    where its cells for the name are null or undefined, the entry from
    before); the later row then replaces the entry by its own value or,
    where its cells for the name are null or undefined, leaves the entry
    as it was; and that is the final entry provided no row after the
    later one passes through the node with a present cell for the name. *)
Theorem last_write_wins pre r1 mid r2 post tree :
  rowPath hf r1 = rowPath hf r2 →
  buildHierarchicalTree hf mf (pre ++ r1 :: mid ++ r2 :: post) = Some tree →
  ∃ tree0 tree1 tree2,
    buildHierarchicalTree hf mf pre = Some tree0
    ∧ buildHierarchicalTree hf mf (pre ++ [r1]) = Some tree1
    ∧ buildHierarchicalTree hf mf (pre ++ r1 :: mid) = Some tree2
    ∧ ∀ p x, p ≠ [] → p `prefix_of` rowPath hf r2 →
        is_Some (lookupPath tree p)
        ∧ storedMeasure tree1 p x =
            match rowMeasure mf r1 x with
            | Some v => Some v
            | None => storedMeasure tree0 p x
            end
        ∧ (Forall (λ row, ¬ p `prefix_of` rowPath hf row
                          ∨ rowMeasure mf row x = None) post →
           storedMeasure tree p x =
             match rowMeasure mf r2 x with
             | Some v => Some v
             | None => storedMeasure tree2 p x
             end).
Proof.
  unfold buildHierarchicalTree. intros Hpath Hb.
  apply buildFrom_app_inv in Hb as (tree0 & Hb0 & Hb).
  apply buildFrom_cons_inv in Hb as (tree1 & Hr1 & Hb).
  apply buildFrom_app_inv in Hb as (tree2 & Hmid & Hb).
  apply buildFrom_cons_inv in Hb as (tree3 & Hr2 & Hpost).
  pose proof (build_plainTree _ _ Hb0) as Hplain0.
  pose proof (processRow_plainTree _ _ _ Hplain0 Hr1) as Hplain1.
  pose proof (buildFrom_plainTree _ _ _ Hplain1 Hmid) as Hplain2.
  pose proof (processRow_plainTree _ _ _ Hplain2 Hr2) as Hplain3.
  exists tree0, tree1, tree2. split_and!.
  - done.
  - by rewrite buildFrom_snoc, Hb0.
  - rewrite buildFrom_app, Hb0. simpl. by rewrite buildFrom_cons, Hr1.
  - intros p x Hne Hpre.
    destruct (processRow_stored_on _ _ _ p x Hplain0 Hr1 Hne) as [_ Hs1];
      [by rewrite Hpath |].
    destruct (processRow_stored_on _ _ _ p x Hplain2 Hr2 Hne Hpre)
      as [[nd3 Hnd3] Hs3].
    split_and!; [| done |].
    + destruct (buildFrom_keep _ _ _ _ _ Hplain3 Hpost Hnd3)
        as (nd & Hnd & _).
      by exists nd.
    + intros Hoff.
      by rewrite (buildFrom_stored_off _ _ _ p x Hplain3 Hpost Hoff).
Qed.

(** C10.  Once a node exists at a path, the rows processed later never
    change its name, level or [hasChildren] flag; all they can do is add
    or overwrite entries of its measures and add descendants below it. *)
Theorem created_fields_frozen data1 data2 tree1 tree2 :
  buildHierarchicalTree hf mf data1 = Some tree1 →
  buildHierarchicalTree hf mf (data1 ++ data2) = Some tree2 →
  ∀ p nd, lookupPath tree1 p = Some nd →
    ∃ nd', lookupPath tree2 p = Some nd'
      ∧ name nd' = name nd ∧ level nd' = level nd
      ∧ hasChildren nd' = hasChildren nd
      ∧ dom (measures nd) ⊆ dom (measures nd')
      ∧ dom (children nd) ⊆ dom (children nd').
Proof.
  intros Hb1 Hb2 p nd Hnd.
  pose proof (build_plainTree _ _ Hb1) as Hplain.
  unfold buildHierarchicalTree in *.
  rewrite buildFrom_app, Hb1 in Hb2. simpl in Hb2.
  destruct (buildFrom_keep _ _ _ _ _ Hplain Hb2 Hnd)
    as (nd' & Hnd' & Hn & Hl & Hh & Hd).
  exists nd'. split_and!; [done .. |].
  assert (p ≠ []) as Hp by (by intros ->).
  intros k [c Hc]%elem_of_dom.
  assert (lookupPath tree1 (p ++ [k]) = Some c) as Hpk.
  { rewrite lookupPath_snoc by done. by rewrite Hnd. }
  destruct (buildFrom_keep _ _ _ _ _ Hplain Hb2 Hpk) as (c' & Hc' & _).
  rewrite lookupPath_snoc, Hnd' in Hc' by done.
  apply elem_of_dom. by exists c'.
Qed.

End Build.

(** * When the builder throws *)

Section Throws.

Context (hf mf : list field).

Implicit Types (row : list value) (data : list (list value))
               (tree cur : gmap string node) (levels : list (nat * field)).

Lemma is_Some_Some_iff {A} (x : A) : is_Some (Some x) ↔ True.
Proof. split; [done | by eexists]. Qed.

Lemma is_Some_None_iff {A} : is_Some (@None A) ↔ False.
Proof. split; [by intros [? [=]] | done]. Qed.

Lemma walkLevels_is_Some n row levels cur :
  plainTree cur →
  is_Some (walkLevels n mf row levels cur) ↔
    Forall (λ lf : nat * field, index lf.2 < length row) levels
    ∧ (cellKeys (levelCells row levels) ≠ [] → wideEnough mf row)
    ∧ keysPass (noMeasureValue mf row) (cellKeys (levelCells row levels)).
Proof.
  revert cur. induction levels as [| [L f] levels IH]; intros cur Hplain.
  - simpl. rewrite is_Some_Some_iff.
    split; [intros _; split_and!; [constructor | done | done] | done].
  - rewrite Forall_cons.
    destruct (row !! index f) as [v |] eqn:Hv.
    + pose proof (lookup_lt_Some _ _ _ Hv) as Hlt.
      rewrite (levelCells_cons _ _ _ _ v) by done.
      destruct (isNullValue v) eqn:Hnull.
      { rewrite (walkLevels_null _ _ _ _ _ _ _ v) by done.
        rewrite cellKeys_cons_null by done. rewrite (IH _ Hplain).
        simpl. tauto. }
      rewrite cellKeys_cons_key by done. cbn [keysPass].
      destruct (inherited (propertyKey v)) eqn:Hown.
      * rewrite (walkLevels_member _ _ _ _ _ _ _ v)
          by (by rewrite ?plainTree_member).
        pose proof (readMeasures_is_Some mf row) as Hread.
        pose proof (walkUndefined_is_Some row levels) as Hund.
        destruct (readMeasures mf row) as [[] |]; simpl;
          [destruct (walkUndefined row levels) as [[] |]; simpl |];
          rewrite ?is_Some_Some_iff, ?is_Some_None_iff in *;
          naive_solver.
      * rewrite (walkLevels_key _ _ _ _ _ _ _ v)
          by (by rewrite ?plainTree_member).
        cbv zeta.
        destruct (plainTree_default n cur (propertyKey v) v L Hplain)
          as [Hcs _].
        pose proof (storeMeasures_is_Some mf row
                      (measures (default (newNode n v L)
                                         (cur !! propertyKey v)))) as Hst.
        pose proof (IH (children (default (newNode n v L)
                                          (cur !! propertyKey v)))) as Hrest.
        destruct (storeMeasures mf row _) as [ms |]; simpl;
          [destruct (walkLevels n mf row levels _) as [cs |]; simpl |];
          rewrite ?is_Some_Some_iff, ?is_Some_None_iff in *;
          naive_solver.
    + rewrite walkLevels_unreadable, is_Some_None_iff by done.
      split; [done |]. intros [[Hlt _] _]. simpl in Hlt.
      apply lookup_lt_is_Some_2 in Hlt. rewrite Hv in Hlt. by destruct Hlt.
Qed.

Lemma Forall_imap_snd {A B} (P : A → Prop) (g : nat → B) (l : list A) :
  Forall (λ lf : B * A, P lf.2) (imap (λ i x, (g i, x)) l) ↔ Forall P l.
Proof.
  revert g. induction l as [| x l IH]; intros g; [done |].
  rewrite imap_cons, !Forall_cons. simpl.
  split; (intros [Hx Hl]; split; [done |]); by apply (IH (g ∘ S)).
Qed.

(** A row on its own: whether it throws does not depend on the tree. *)
Lemma processRow_is_Some tree row :
  plainTree tree →
  is_Some (processRow hf mf tree row) ↔ readableRow hf mf row.
Proof.
  intros Hplain.
  rewrite processRow_walkLevels, walkLevels_is_Some by done.
  rewrite levelCells_indexed. unfold readableRow, wideEnough, indexed.
  by rewrite (Forall_imap_snd (λ f, index f < length row) (λ i, i)).
Qed.

Lemma buildFrom_is_Some data tree :
  plainTree tree →
  is_Some (buildFrom hf mf data tree) ↔ Forall (readableRow hf mf) data.
Proof.
  revert tree. induction data as [| row data IH]; intros tree Hplain.
  - rewrite buildFrom_nil, is_Some_Some_iff. by split.
  - rewrite buildFrom_cons, Forall_cons.
    rewrite <- (processRow_is_Some tree row Hplain).
    destruct (processRow hf mf tree row) as [tree1 |] eqn:Hrow; simpl.
    + rewrite IH by by eapply processRow_plainTree.
      rewrite is_Some_Some_iff. tauto.
    + rewrite is_Some_None_iff. tauto.
Qed.

Lemma build_is_Some data :
  is_Some (buildHierarchicalTree hf mf data)
  ↔ Forall (readableRow hf mf) data.
Proof. apply buildFrom_is_Some, allNodes_empty. Qed.

End Throws.

(** * Depth and level fields *)

Section Depth.

Implicit Types (tree : gmap string node) (p : list string).

Lemma nodeHeight_unfold nd : nodeHeight nd = S (treeDepth (children nd)).
Proof. by destruct nd. Qed.

Lemma treeDepth_ge tree k c :
  tree !! k = Some c → nodeHeight c ≤ treeDepth tree.
Proof.
  unfold treeDepth. revert k c.
  apply (map_fold_weak_ind
           (λ r (m : gmap string node),
              ∀ k c, m !! k = Some c → nodeHeight c ≤ r)).
  - intros k c. by rewrite lookup_empty.
  - intros i x m r Hi IH k c. rewrite lookup_insert.
    case_decide as Hk.
    + intros [= <-]. lia.
    + intros Hc. specialize (IH _ _ Hc). lia.
Qed.

Lemma treeDepth_attained tree :
  treeDepth tree = 0
  ∨ ∃ k c, tree !! k = Some c ∧ nodeHeight c = treeDepth tree.
Proof.
  unfold treeDepth.
  apply (map_fold_weak_ind
           (λ r (m : gmap string node),
              r = 0 ∨ ∃ k c, m !! k = Some c ∧ nodeHeight c = r)).
  - by left.
  - intros i x m r Hi IH. right.
    destruct (decide (r ≤ nodeHeight x)) as [Hle | Hgt].
    + exists i, x. rewrite lookup_insert_eq. split; [done | lia].
    + destruct IH as [-> | (k & c & Hc & Hh)]; [lia |].
      exists k, c. rewrite lookup_insert_ne by congruence.
      split; [done | lia].
Qed.

(** The depth is reached by some path ... *)
Lemma treeDepth_path h tree :
  treeDepth tree = S h →
  ∃ p nd, length p = S h ∧ lookupPath tree p = Some nd.
Proof.
  revert tree. induction h as [| h IH]; intros tree Hd.
  - destruct (treeDepth_attained tree) as [H0 | (k & c & Hc & Hh)];
      [congruence |].
    exists [k], c. by rewrite lookupPath_singleton.
  - destruct (treeDepth_attained tree) as [H0 | (k & c & Hc & Hh)];
      [congruence |].
    rewrite Hd, nodeHeight_unfold in Hh.
    destruct (IH (children c)) as (p & nd & Hlen & Hp); [lia |].
    exists (k :: p), nd. split; [simpl; lia |].
    rewrite lookupPath_cons, Hc. simpl.
    rewrite decide_False; [done |]. by destruct p.
Qed.

(** ... and no path is longer. *)
Lemma lookupPath_depth tree p nd :
  lookupPath tree p = Some nd → length p ≤ treeDepth tree.
Proof.
  revert tree. induction p as [| k p IH]; intros tree Hp; [done |].
  rewrite lookupPath_cons in Hp.
  destruct (tree !! k) as [c |] eqn:Hc; simpl in Hp; [| done].
  pose proof (treeDepth_ge _ _ _ Hc) as Hge.
  rewrite nodeHeight_unfold in Hge.
  destruct (decide (p = [])) as [-> | Hne]; simpl; [lia |].
  specialize (IH _ Hp). lia.
Qed.

Lemma treeDepth_le_paths tree b :
  (∀ p nd, lookupPath tree p = Some nd → length p ≤ b) →
  treeDepth tree ≤ b.
Proof.
  intros Hall. destruct (treeDepth tree) as [| h] eqn:Hd; [lia |].
  destruct (treeDepth_path _ _ Hd) as (p & nd & Hlen & Hp).
  specialize (Hall _ _ Hp). lia.
Qed.

End Depth.

Section Levels.

Context (n : nat) (mf : list field) (row : list value).

Implicit Types (levels : list (nat * field)) (cur : gmap string node).

Lemma ascending_weaken d d' levels :
  d ≤ d' → ascending n d' levels → ascending n d levels.
Proof.
  intros Hle Hasc. destruct Hasc as [| d' L f rest HL Hrest];
    constructor; [lia | done].
Qed.

Lemma levelBound_empty d : levelBound n d ∅.
Proof. intros p nd. by rewrite lookupPath_empty. Qed.

Lemma levelExact_empty d : levelExact d ∅.
Proof. intros p nd. by rewrite lookupPath_empty. Qed.

(** The invariant of a cursor moves one level down with it. *)
Lemma levelBound_children d cur k nd :
  levelBound n d cur → cur !! k = Some nd →
  levelBound n (S d) (children nd).
Proof.
  intros Hinv Hk p c Hp.
  assert (p ≠ []) as Hne by (by intros ->).
  destruct (Hinv (k :: p) c) as [Hlo Hhi].
  - rewrite lookupPath_cons, Hk. simpl. by rewrite decide_False.
  - simpl in Hlo. split; [lia | done].
Qed.

Lemma levelExact_children d cur k nd :
  levelExact d cur → cur !! k = Some nd → levelExact (S d) (children nd).
Proof.
  intros Hinv Hk p c Hp.
  assert (p ≠ []) as Hne by (by intros ->).
  rewrite (Hinv (k :: p) c); [simpl; lia |].
  rewrite lookupPath_cons, Hk. simpl. by rewrite decide_False.
Qed.

(** Both invariants are re-established at an updated key from the
    invariant of the node put there and of its children. *)
Lemma levelBound_insert d cur k nd :
  levelBound n d cur →
  d ≤ level nd < n → levelBound n (S d) (children nd) →
  levelBound n d (<[k := nd]> cur).
Proof.
  intros Hinv Hnd Hcs p c. destruct p as [| k' p]; [done |].
  rewrite lookupPath_cons. destruct (decide (k' = k)) as [-> | Hk].
  - rewrite lookup_insert_eq. simpl.
    destruct (decide (p = [])) as [-> | Hne].
    + intros [= <-]. simpl. lia.
    + intros Hp. destruct (Hcs _ _ Hp). simpl. lia.
  - rewrite lookup_insert_ne by done. intros Hp.
    apply (Hinv (k' :: p)). by rewrite lookupPath_cons.
Qed.

Lemma levelExact_insert d cur k nd :
  levelExact d cur →
  level nd = d → levelExact (S d) (children nd) →
  levelExact d (<[k := nd]> cur).
Proof.
  intros Hinv Hnd Hcs p c. destruct p as [| k' p]; [done |].
  rewrite lookupPath_cons. destruct (decide (k' = k)) as [-> | Hk].
  - rewrite lookup_insert_eq. simpl.
    destruct (decide (p = [])) as [-> | Hne].
    + intros [= <-]. simpl. lia.
    + intros Hp. rewrite (Hcs _ _ Hp). simpl. lia.
  - rewrite lookup_insert_ne by done. intros Hp.
    apply (Hinv (k' :: p)). by rewrite lookupPath_cons.
Qed.

Lemma walk_levelBound levels d cur cur' :
  ascending n d levels → levelBound n d cur →
  walkLevels n mf row levels cur = Some cur' →
  levelBound n d cur'.
Proof.
  revert d cur cur'.
  induction levels as [| [L f] levels IH]; intros d cur cur' Hasc Hinv Hwalk.
  - by injection Hwalk as <-.
  - inversion Hasc as [| ? ? ? ? HL Hrest]; subst.
    walk_cases Hwalk v Hv Hnull Hmem ms cs Hms Hcs.
    + apply (IH d cur); [| done | done].
      apply ascending_weaken with (S L); [lia | done].
    + done.
    + apply levelBound_insert; [done | ..]; simpl.
      * destruct (cur !! propertyKey v) as [nd0 |] eqn:Hk; simpl.
        -- destruct (Hinv [propertyKey v] nd0) as [Hlo Hhi].
           { by rewrite lookupPath_singleton. }
           simpl in Hlo. lia.
        -- lia.
      * eapply IH; [| | exact Hcs].
        -- apply ascending_weaken with (S L); [lia | done].
        -- destruct (cur !! propertyKey v) as [nd0 |] eqn:Hk; simpl.
           ++ by eapply levelBound_children.
           ++ apply levelBound_empty.
Qed.

(** Cells that are all null leave the cursor's object untouched. *)
Lemma walk_forallb_null levels cur cur' :
  forallb isNullValue (omap (λ lf, row !! index lf.2) levels) = true →
  walkLevels n mf row levels cur = Some cur' → cur' = cur.
Proof.
  revert cur cur'.
  induction levels as [| [L f] levels IH]; intros cur cur' Hall Hwalk.
  - by injection Hwalk as <-.
  - apply walkLevels_cons_inv in Hwalk
      as (v & Hv & [[Hnull Hwalk] | [(Hnull & _) | (Hnull & _)]]);
      csimpl in Hall; rewrite Hv in Hall; simpl in Hall;
      apply andb_true_iff in Hall as [Hnv Hall].
    + by apply IH.
    + congruence.
    + congruence.
Qed.

Lemma walk_levelExact levels d cur cur' :
  consecutive d levels →
  nullsTrailing (omap (λ lf, row !! index lf.2) levels) = true →
  levelExact d cur →
  walkLevels n mf row levels cur = Some cur' →
  levelExact d cur'.
Proof.
  revert d cur cur'.
  induction levels as [| [L f] levels IH];
    intros d cur cur' Hcons Htrail Hinv Hwalk.
  - by injection Hwalk as <-.
  - inversion Hcons as [| ? ? ? Hrest]; subst.
    walk_cases Hwalk v Hv Hnull Hmem ms cs Hms Hcs;
      csimpl in Htrail; rewrite Hv in Htrail; simpl in Htrail;
      rewrite Hnull in Htrail.
    + by rewrite (walk_forallb_null _ _ _ Htrail Hwalk).
    + done.
    + apply levelExact_insert; [done | ..]; simpl.
      * destruct (cur !! propertyKey v) as [nd0 |] eqn:Hk; simpl; [| done].
        pose proof (Hinv [propertyKey v] nd0) as Hl.
        rewrite lookupPath_singleton in Hl. specialize (Hl Hk).
        simpl in Hl. lia.
      * eapply IH; [done | done | | exact Hcs].
        destruct (cur !! propertyKey v) as [nd0 |] eqn:Hk; simpl.
        -- by eapply levelExact_children.
        -- apply levelExact_empty.
Qed.

End Levels.

Section BuildLevels.

Context (hf mf : list field).

Implicit Types (tree : gmap string node) (data : list (list value)).

Lemma imap_consecutive d (l : list field) :
  consecutive d (imap (λ i f, (d + i, f)) l).
Proof.
  revert d. induction l as [| x l IH]; intros d; [constructor |].
  rewrite imap_cons, Nat.add_0_r. constructor.
  rewrite (imap_ext _ (λ i f, (S d + i, f))); [apply IH |].
  intros i y _. simpl. f_equal. lia.
Qed.

Lemma imap_ascending n d (l : list field) :
  d + length l ≤ n → ascending n d (imap (λ i f, (d + i, f)) l).
Proof.
  revert d. induction l as [| x l IH]; intros d Hlen; [constructor |].
  simpl in Hlen. rewrite imap_cons, Nat.add_0_r. constructor; [lia |].
  rewrite (imap_ext _ (λ i f, (S d + i, f))); [apply IH; lia |].
  intros i y _. simpl. f_equal. lia.
Qed.

Lemma indexed_consecutive : consecutive 0 (indexed hf).
Proof. apply (imap_consecutive 0). Qed.

Lemma indexed_ascending : ascending (length hf) 0 (indexed hf).
Proof. by apply (imap_ascending (length hf) 0). Qed.

Lemma buildFrom_levelBound data tree tree' :
  levelBound (length hf) 0 tree →
  buildFrom hf mf data tree = Some tree' →
  levelBound (length hf) 0 tree'.
Proof.
  revert tree. induction data as [| row data IH]; intros tree Hinv Hb.
  - by injection Hb as <-.
  - rewrite buildFrom_cons in Hb.
    destruct (processRow hf mf tree row) as [tree1 |] eqn:Hrow;
      simpl in Hb; [| done].
    rewrite processRow_walkLevels in Hrow.
    apply (IH tree1); [| done].
    eapply walk_levelBound; [apply indexed_ascending | done | exact Hrow].
Qed.

Lemma buildFrom_levelExact data tree tree' :
  Forall (λ row, nullsTrailing (hierarchyCells hf row) = true) data →
  levelExact 0 tree →
  buildFrom hf mf data tree = Some tree' →
  levelExact 0 tree'.
Proof.
  intros Hdata. revert tree.
  induction Hdata as [| row data Hrow _ IH]; intros tree Hinv Hb.
  - by injection Hb as <-.
  - rewrite buildFrom_cons in Hb.
    destruct (processRow hf mf tree row) as [tree1 |] eqn:Hrow1;
      simpl in Hb; [| done].
    rewrite processRow_walkLevels in Hrow1.
    apply (IH tree1); [| done].
    eapply walk_levelExact; [apply indexed_consecutive | | done | exact Hrow1].
    unfold indexed.
    by rewrite (omap_imap_snd (λ f, row !! index f) (λ i, i)).
Qed.

(** C2, as the code has it.  The depth of the built tree never exceeds
    the number of hierarchy fields, and the level field of a node is at
    least its depth and below that number.  A child's level field is its
    parent's plus one (and a top node's is 0) when, in every row, the
    hierarchy cells after a null cell are null too; a non-null cell after
    a null one puts a node with a larger level field under the unmoved
    cursor. *)
Theorem build_levels data tree :
  buildHierarchicalTree hf mf data = Some tree →
  treeDepth tree ≤ length hf
  ∧ (∀ p nd, lookupPath tree p = Some nd →
       length p ≤ S (level nd) ∧ level nd < length hf)
  ∧ (Forall (λ row, nullsTrailing (hierarchyCells hf row) = true) data →
     (∀ k nd, tree !! k = Some nd → level nd = 0)
     ∧ ∀ p nd k c, lookupPath tree p = Some nd →
         children nd !! k = Some c → level c = S (level nd)).
Proof.
  unfold buildHierarchicalTree. intros Hb.
  assert (levelBound (length hf) 0 tree) as Hbound.
  { eapply buildFrom_levelBound; [apply levelBound_empty | exact Hb]. }
  split_and!.
  - apply treeDepth_le_paths. intros p nd Hp.
    destruct (Hbound _ _ Hp). simpl in *. lia.
  - intros p nd Hp. destruct (Hbound _ _ Hp). simpl in *. lia.
  - intros Hdata.
    assert (levelExact 0 tree) as Hexact.
    { eapply buildFrom_levelExact; [done | apply levelExact_empty | done]. }
    split.
    + intros k nd Hk. pose proof (Hexact [k] nd) as Hl.
      rewrite lookupPath_singleton in Hl. specialize (Hl Hk).
      simpl in Hl. lia.
    + intros p nd k c Hp Hc.
      assert (p ≠ []) as Hne by (by intros ->).
      pose proof (Hexact _ _ Hp) as Hl.
      pose proof (Hexact (p ++ [k]) c) as Hlc.
      rewrite lookupPath_snoc, Hp in Hlc by done.
      specialize (Hlc Hc). rewrite length_app in Hlc. simpl in *. lia.
Qed.

End BuildLevels.

(** * Rendering the visible rows *)

Section Render.

Context (mf : list field) (expanded : gset string).

Implicit Types (treeLevel : gmap string node) (path : list string).

Lemma sortedKeys_sorted treeLevel :
  StronglySorted String.le (sortedKeys treeLevel).
Proof. apply StronglySorted_merge_sort; apply _. Qed.

Lemma sortedKeys_perm treeLevel :
  sortedKeys treeLevel ≡ₚ (map_to_list treeLevel).*1.
Proof. apply merge_sort_Permutation. Qed.

Lemma sortedKeys_NoDup treeLevel : NoDup (sortedKeys treeLevel).
Proof. rewrite sortedKeys_perm. apply NoDup_fst_map_to_list. Qed.

Lemma elem_of_sortedKeys treeLevel k :
  k ∈ sortedKeys treeLevel ↔ is_Some (treeLevel !! k).
Proof.
  rewrite sortedKeys_perm, list_elem_of_fmap. split.
  - intros ([k' nd] & -> & Hin). apply elem_of_map_to_list in Hin.
    by exists nd.
  - intros [nd Hnd]. exists (k, nd). split; [done |].
    by apply elem_of_map_to_list.
Qed.

Lemma sortedKeys_nonempty treeLevel :
  treeLevel ≠ ∅ → sortedKeys treeLevel ≠ [].
Proof.
  intros Hne Hnil. apply map_size_non_empty_iff in Hne.
  apply map_size_ne_0_lookup_1 in Hne as [k Hk].
  apply elem_of_sortedKeys in Hk. rewrite Hnil in Hk.
  by apply elem_of_nil in Hk.
Qed.

Lemma expandable_spec nd :
  expandable nd = true ↔ hasChildren nd = true ∧ children nd ≠ ∅.
Proof.
  unfold expandable.
  rewrite andb_true_iff, bool_decide_eq_true, <- map_size_non_empty_iff.
  split; intros [? ?]; (split; [done | lia]).
Qed.

Lemma descend_test nd currentPath :
  bool_decide (join currentPath ∈ expanded) && expandable nd = true
  ↔ descends expanded nd currentPath.
Proof.
  unfold descends.
  rewrite andb_true_iff, bool_decide_eq_true, expandable_spec. tauto.
Qed.

Lemma renderChildrenOf_unfold nd :
  renderChildrenOf mf expanded nd
    = renderTreeLevel mf expanded (children nd).
Proof. by destruct nd. Qed.

(** The recursion of the source function, recovered from the definition
    that goes through the rendered children. *)
Lemma renderTreeLevel_unfold treeLevel level path :
  renderTreeLevel mf expanded treeLevel level path =
    flat_map (λ key,
      match treeLevel !! key with
      | None => []
      | Some nd =>
          renderRow mf (bool_decide (join (path ++ [key]) ∈ expanded))
                    nd level (path ++ [key])
          :: (if decide (descends expanded nd (path ++ [key]))
              then renderTreeLevel mf expanded (children nd) (S level)
                                   (path ++ [key])
              else [])
      end) (sortedKeys treeLevel).
Proof.
  unfold renderTreeLevel at 1. unfold renderKeys.
  apply flat_map_ext. intros key.
  rewrite lookup_fmap.
  destruct (treeLevel !! key) as [nd |]; simpl; [| done].
  f_equal. rewrite renderChildrenOf_unfold.
  destruct (decide (descends expanded nd (path ++ [key]))) as [Hd | Hd].
  - apply descend_test in Hd. by rewrite Hd.
  - rewrite <- descend_test in Hd. apply not_true_is_false in Hd.
    by rewrite Hd.
Qed.

Lemma renderTreeLevel_nonempty treeLevel level path :
  treeLevel ≠ ∅ → renderTreeLevel mf expanded treeLevel level path ≠ [].
Proof.
  intros Hne. rewrite renderTreeLevel_unfold.
  pose proof (sortedKeys_nonempty _ Hne) as Hkeys.
  destruct (sortedKeys treeLevel) as [| k keys] eqn:Hs; [done |].
  assert (k ∈ sortedKeys treeLevel) as Hk by (rewrite Hs; left).
  apply elem_of_sortedKeys in Hk as [nd Hnd].
  simpl. by rewrite Hnd.
Qed.

(** C3, as the code has it.  The rows are produced depth first, parent
    before children, the keys of every level in lexicographic order, each
    key once.  Below the row of a node come the rows of its children
    exactly when the node's path key is in the expansion set, its
    [hasChildren] flag is set and it has at least one child; otherwise
    nothing of its subtree is in the output. *)
Theorem render_preorder treeLevel level path :
  renderTreeLevel mf expanded treeLevel level path =
    flat_map (λ key,
      match treeLevel !! key with
      | None => []
      | Some nd =>
          renderRow mf (bool_decide (join (path ++ [key]) ∈ expanded))
                    nd level (path ++ [key])
          :: (if decide (descends expanded nd (path ++ [key]))
              then renderTreeLevel mf expanded (children nd) (S level)
                                   (path ++ [key])
              else [])
      end) (sortedKeys treeLevel)
  ∧ StronglySorted String.le (sortedKeys treeLevel)
  ∧ NoDup (sortedKeys treeLevel)
  ∧ (∀ k, k ∈ sortedKeys treeLevel ↔ is_Some (treeLevel !! k))
  ∧ (∀ k nd, treeLevel !! k = Some nd →
       descends expanded nd (path ++ [k]) →
       renderTreeLevel mf expanded (children nd) (S level) (path ++ [k])
         ≠ []).
Proof.
  split_and!.
  - apply renderTreeLevel_unfold.
  - apply sortedKeys_sorted.
  - apply sortedKeys_NoDup.
  - apply elem_of_sortedKeys.
  - intros k nd _ (_ & _ & Hne). by apply renderTreeLevel_nonempty.
Qed.

End Render.

(** With nothing expanded, the output is one row for each top-level node, in
    key order, whatever lies below. *)
Lemma render_collapsed mf (tree : gmap string node) :
  data_path <$> renderTreeLevel mf ∅ tree 0 [] = sortedKeys tree.
Proof.
  rewrite renderTreeLevel_unfold.
  assert (∀ k, k ∈ sortedKeys tree → is_Some (tree !! k)) as Hall.
  { intros k. by rewrite elem_of_sortedKeys. }
  induction (sortedKeys tree) as [| k keys IH]; [done |].
  destruct (Hall k) as [nd Hnd]; [left |].
  simpl. rewrite Hnd.
  rewrite decide_False by (intros (Hin & _); set_solver).
  simpl. f_equal. apply IH. intros k' Hk'. apply Hall. by right.
Qed.

(** * Loading *)

Section Load.

Implicit Types (st : state) (dt : dataTable).


End Load.

(** * The end-to-end example and the boundary cases *)

Section Examples.

Import Example.

Lemma example_build : buildHierarchicalTree hf mf rows = Some tree.
Proof. by vm_compute. Qed.

(** C4, as the code has it.  The three rows build a tree with exactly the
    two top-level nodes CA (sales 30) and US (sales 50); CA has the one
    child ON and US the two children CA and TX; after expanding US alone
    the rows drawn are CA, US, US|CA, US|TX, in that order. *)
Theorem example_end_to_end :
  buildHierarchicalTree hf mf rows = Some tree
  ∧ sortedKeys tree = ["CA"; "US"]
  ∧ (nd ← tree !! "CA"; Some (level nd, measures nd !! "sales",
                              sortedKeys (children nd)))
    = Some (0, Some (VNum "30"), ["ON"])
  ∧ (nd ← tree !! "US"; Some (level nd, measures nd !! "sales",
                              sortedKeys (children nd)))
    = Some (0, Some (VNum "50"), ["CA"; "TX"])
  ∧ data_path <$> renderTreeLevel mf (toggleExpanded ∅ ["US"]) tree 0 []
    = ["CA"; "US"; "US|CA"; "US|TX"].
Proof. split_and!; by vm_compute. Qed.

(** The US node of the example has two children, not one. *)
Lemma example_us_two_children :
  ¬ ∃ t us, buildHierarchicalTree hf mf rows = Some t
            ∧ t !! "US" = Some us ∧ size (children us) = 1.
Proof.
  intros (t & us & Ht & Hus & Hsize).
  rewrite example_build in Ht. injection Ht as <-.
  vm_compute in Hus. injection Hus as <-. by vm_compute in Hsize.
Qed.

(** Two rows share the path US, CA; the node US is on it, yet its final
    sales entry is that of a third row, which goes through US later. *)
Lemma later_row_overwritten_above :
  rowPath hf firstRow = rowPath hf laterRow
  ∧ ["US"] `prefix_of` rowPath hf laterRow
  ∧ rowMeasure mf laterRow "sales" = Some (VNum "70")
  ∧ (t ← buildHierarchicalTree hf mf [firstRow; laterRow; texasRow];
     storedMeasure t ["US"] "sales") = Some (VNum "50").
Proof.
  split_and!; [by vm_compute | by exists ["CA"] | by vm_compute ..].
Qed.

(** A null cell at level 0 does not end the row: the cell of level 1
    still makes a node, at the root and labelled level 1. *)
Lemma null_level_then_node :
  hf !! 0 = Some (Field 0 "country")
  ∧ raggedRow !! 0 = Some VNull
  ∧ buildHierarchicalTree hf mf [raggedRow] = Some {[ "X" := leaf "X" "5" ]}
  ∧ (t ← buildHierarchicalTree hf mf [raggedRow];
     nd ← lookupPath t ["X"]; Some (name nd, level nd))
    = Some (VStr "X", 1).
Proof. split_and!; by vm_compute. Qed.

(** A child whose level field is not its parent's plus one. *)
Lemma child_level_gap :
  (t ← buildHierarchicalTree hf3 mf3 [gapRow];
   nd ← lookupPath t ["US"];
   c ← children nd !! "Austin";
   Some (level nd, level c)) = Some (0, 2).
Proof. by vm_compute. Qed.

(** A node whose path key is in the expansion set and which has a child,
    yet the child is not drawn: the flag set at creation is false. *)
Lemma expanded_child_not_drawn :
  buildHierarchicalTree hf mf [raggedRow; belowRow] = Some raggedTree
  ∧ join ["X"] ∈ ({[ "X" ]} : gset string)
  ∧ (nd ← raggedTree !! "X"; Some (sortedKeys (children nd)))
    = Some ["Y"]
  ∧ data_path <$> renderTreeLevel mf {[ "X" ]} raggedTree 0 [] = ["X"].
Proof. split_and!; by vm_compute. Qed.

(** The flag of a node made at the last level stays false when a later
    row puts a child under it. *)
Lemma flag_fixed_at_creation :
  (t ← buildHierarchicalTree hf mf [raggedRow];
   nd ← t !! "X"; Some (hasChildren nd, size (children nd)))
    = Some (false, 0)
  ∧ (t ← buildHierarchicalTree hf mf [raggedRow; belowRow];
     nd ← t !! "X"; Some (hasChildren nd, size (children nd)))
    = Some (false, 1).
Proof. split; by vm_compute. Qed.

(** A hierarchy value that is an inherited name makes no node.  With a
    measure value in the row the write on the inherited member throws;
    without one the row is dropped, and so is what follows the name in
    a row whose later cells are null. *)
Lemma inherited_name_rows :
  buildHierarchicalTree hf mf
    [[VStr "constructor"; VStr "CA"; VNum "100"]] = None
  ∧ buildHierarchicalTree hf mf [[VStr "toString"; VNull; VNull]; firstRow]
    = buildHierarchicalTree hf mf [firstRow]
  ∧ buildHierarchicalTree hf mf [[VStr "toString"; VStr "CA"; VNull]] = None
  ∧ buildHierarchicalTree hf mf [[VStr "US"; VStr "toString"; VNull]]
    = Some {[ "US" := Node (VStr "US") 0 ∅ ∅ true ]}.
Proof. split_and!; by vm_compute. Qed.

(** A measure named [__proto__] is never stored, and its cell shows the
    prototype object. *)
Lemma proto_measure_not_stored :
  buildHierarchicalTree hf [Field 2 "__proto__"] [firstRow]
    = Some {[ "US" := Node (VStr "US") 0 ∅
                           {[ "CA" := Node (VStr "CA") 1 ∅ ∅ false ]}
                           true ]}
  ∧ measureCell (Node (VStr "US") 0 ∅ ∅ true) (Field 2 "__proto__")
    = MemberCell "__proto__"
  ∧ measureCell (Node (VStr "US") 0 ∅ ∅ true) (Field 2 "toString")
    = MemberCell "toString"
  ∧ measureCell (Node (VStr "US") 0 ∅ ∅ true) (Field 2 "sales")
    = EmptyCell.
Proof. split_and!; by vm_compute. Qed.

End Examples.

(** * The theorems at concrete inputs *)

Section Witnesses.

Import Example.

Lemma null_level_skipped_witness :
  hf3 !! 1 = Some (Field 1 "state")
  ∧ gapRow !! index (Field 1 "state") = Some VNull
  ∧ isNullValue VNull = true
  ∧ buildHierarchicalTree hf3 mf3 [] = Some ∅
  ∧ buildHierarchicalTree hf3 mf3 ([] ++ [gapRow]) = Some gapTree
  ∧ rowPath hf3 gapRow = rowPath (take 1 hf3 ++ drop 2 hf3) gapRow
  ∧ (∀ p x, p ≠ [] → p `prefix_of` rowPath hf3 gapRow →
       is_Some (lookupPath gapTree p)
       ∧ storedMeasure gapTree p x =
           match rowMeasure mf3 gapRow x with
           | Some w => Some w
           | None => storedMeasure ∅ p x
           end)
  ∧ (∀ p, ¬ p `prefix_of` rowPath hf3 gapRow →
       lookupPath gapTree p = lookupPath ∅ p).
Proof.
  assert (buildHierarchicalTree hf3 mf3 [] = Some ∅) as Hb by reflexivity.
  assert (buildHierarchicalTree hf3 mf3 ([] ++ [gapRow]) = Some gapTree)
    as Hb' by (vm_compute; reflexivity).
  destruct (null_level_skipped hf3 mf3 [] gapRow ∅ gapTree 1
              (Field 1 "state") VNull eq_refl eq_refl eq_refl Hb Hb')
    as (Hpath & Hon & Hoff & _).
  split_and!; [reflexivity | reflexivity | reflexivity | exact Hb
              | exact Hb' | exact Hpath | exact Hon | exact Hoff].
Defined.

Lemma build_levels_witness :
  buildHierarchicalTree hf mf rows = Some tree
  ∧ treeDepth tree ≤ length hf
  ∧ (∀ p nd, lookupPath tree p = Some nd →
       length p ≤ S (level nd) ∧ level nd < length hf)
  ∧ Forall (λ row, nullsTrailing (hierarchyCells hf row) = true) rows
  ∧ (∀ k nd, tree !! k = Some nd → level nd = 0)
  ∧ (∀ p nd k c, lookupPath tree p = Some nd →
       children nd !! k = Some c → level c = S (level nd)).
Proof.
  assert (buildHierarchicalTree hf mf rows = Some tree) as Hb
    by (vm_compute; reflexivity).
  assert (Forall (λ row, nullsTrailing (hierarchyCells hf row) = true) rows)
    as Htrail by (repeat constructor).
  destruct (build_levels hf mf rows tree Hb) as (Hd & Hl & Hc).
  destruct (Hc Htrail) as [H0 Hs].
  split_and!; assumption.
Defined.

Lemma render_preorder_witness :
  tree !! "US" = Some usNode
  ∧ descends {[ "US" ]} usNode ([] ++ ["US"])
  ∧ renderTreeLevel mf {[ "US" ]} (children usNode) 1 ([] ++ ["US"]) ≠ [].
Proof.
  assert (tree !! "US" = Some usNode) as Hus by (vm_compute; reflexivity).
  assert (descends {[ "US" ]} usNode ([] ++ ["US"])) as Hd by compute_done.
  split_and!; [exact Hus | exact Hd |].
  exact (proj2 (proj2 (proj2 (proj2
           (render_preorder mf {[ "US" ]} tree 0 [])))) "US" usNode Hus Hd).
Defined.

Lemma last_write_wins_witness :
  rowPath hf firstRow = rowPath hf laterRow
  ∧ buildHierarchicalTree hf mf ([] ++ firstRow :: [] ++ laterRow :: [])
    = Some overwrittenTree
  ∧ ["US"; "CA"] `prefix_of` rowPath hf laterRow
  ∧ Forall (λ row, ¬ ["US"; "CA"] `prefix_of` rowPath hf row
                   ∨ rowMeasure mf row "sales" = None) []
  ∧ storedMeasure overwrittenTree ["US"; "CA"] "sales" = Some (VNum "70").
Proof.
  assert (rowPath hf firstRow = rowPath hf laterRow) as Hpath
    by reflexivity.
  assert (buildHierarchicalTree hf mf ([] ++ firstRow :: [] ++ laterRow :: [])
          = Some overwrittenTree) as Hb by (vm_compute; reflexivity).
  assert (["US"; "CA"] `prefix_of` rowPath hf laterRow) as Hpre
    by (exists []; reflexivity).
  assert (Forall (λ row, ¬ ["US"; "CA"] `prefix_of` rowPath hf row
                         ∨ rowMeasure mf row "sales" = None) [])
    as Hoff by constructor.
  split_and!; [exact Hpath | exact Hb | exact Hpre | exact Hoff |].
  destruct (last_write_wins hf mf [] firstRow [] laterRow [] overwrittenTree
              Hpath Hb) as (tree0 & tree1 & tree2 & _ & _ & _ & Hall).
  destruct (Hall ["US"; "CA"] "sales" ltac:(discriminate) Hpre)
    as (_ & _ & Hlast).
  exact (Hlast Hoff).
Defined.

Lemma toggle_cascade_witness :
  (join ["A"] ∈ ({[ "A"; "A|B" ]} : gset string)
   ∧ ∀ x, x ∈ toggleExpanded {[ "A"; "A|B" ]} ["A"] ↔
          x ∈ ({[ "A"; "A|B" ]} : gset string) ∧ x ≠ join ["A"]
          ∧ (¬ ∃ t, x = join ["A"] +:+ "|" +:+ t))
  ∧ ((join ["A"] ∉ (∅ : gset string))
     ∧ ∀ x, x ∈ toggleExpanded ∅ ["A"] ↔
            x ∈ (∅ : gset string) ∨ x = join ["A"])
  ∧ ((join ["A"] ∉ (∅ : gset string))
     ∧ (join ["A"; "B"] ∉ (∅ : gset string))
     ∧ join ["A"] ∈ toggleExpanded ∅ ["A"]
     ∧ join ["A"; "B"]
         ∈ toggleExpanded (toggleExpanded ∅ ["A"]) ["A"; "B"]
     ∧ (join ["A"]
          ∉ toggleExpanded
              (toggleExpanded (toggleExpanded ∅ ["A"]) ["A"; "B"]) ["A"])
     ∧ (join ["A"; "B"]
          ∉ toggleExpanded
              (toggleExpanded (toggleExpanded ∅ ["A"]) ["A"; "B"]) ["A"])).
Proof.
  assert (join ["A"] ∈ ({[ "A"; "A|B" ]} : gset string)) as Hin
    by compute_done.
  assert (join ["A"] ∉ (∅ : gset string)) as Hout by compute_done.
  assert (join ["A"; "B"] ∉ (∅ : gset string)) as Hout2 by compute_done.
  split_and!.
  - exact Hin.
  - exact (proj1 (toggle_cascade {[ "A"; "A|B" ]} ["A"]) Hin).
  - exact Hout.
  - exact (proj1 (proj2 (toggle_cascade ∅ ["A"])) Hout).
  - exact Hout.
  - exact Hout2.
  - exact (proj1 (proj2 (proj2 (toggle_cascade ∅ ["A"]))
                    "A" "B" Hout Hout2)).
  - exact (proj1 (proj2 (proj2 (proj2 (toggle_cascade ∅ ["A"]))
                    "A" "B" Hout Hout2))).
  - exact (proj1 (proj2 (proj2 (proj2 (proj2 (toggle_cascade ∅ ["A"]))
                    "A" "B" Hout Hout2)))).
  - exact (proj2 (proj2 (proj2 (proj2 (proj2 (toggle_cascade ∅ ["A"]))
                    "A" "B" Hout Hout2)))).
Defined.


Lemma created_fields_frozen_witness :
  buildHierarchicalTree hf mf [raggedRow] = Some {[ "X" := leaf "X" "5" ]}
  ∧ buildHierarchicalTree hf mf ([raggedRow] ++ [belowRow])
    = Some raggedTree
  ∧ lookupPath {[ "X" := leaf "X" "5" ]} ["X"] = Some (leaf "X" "5")
  ∧ ∃ nd', lookupPath raggedTree ["X"] = Some nd'
      ∧ name nd' = name (leaf "X" "5") ∧ level nd' = level (leaf "X" "5")
      ∧ hasChildren nd' = hasChildren (leaf "X" "5")
      ∧ dom (measures (leaf "X" "5")) ⊆ dom (measures nd')
      ∧ dom (children (leaf "X" "5")) ⊆ dom (children nd').
Proof.
  assert (buildHierarchicalTree hf mf [raggedRow]
          = Some {[ "X" := leaf "X" "5" ]}) as Hb1
    by (vm_compute; reflexivity).
  assert (buildHierarchicalTree hf mf ([raggedRow] ++ [belowRow])
          = Some raggedTree) as Hb2 by (vm_compute; reflexivity).
  assert (lookupPath {[ "X" := leaf "X" "5" ]} ["X"] = Some (leaf "X" "5"))
    as Hnd by (vm_compute; reflexivity).
  split_and!; [exact Hb1 | exact Hb2 | exact Hnd |].
  exact (created_fields_frozen hf mf [raggedRow] [belowRow] _ _ Hb1 Hb2
           ["X"] (leaf "X" "5") Hnd).
Defined.

End Witnesses.

(** * Further properties of the builder *)

Section BuildReturns.

Context (hf mf : list field).

(** X1.  Building returns a tree exactly when every row is readable: it
    has a cell for every hierarchy field and, where one of its hierarchy
    cells is not null, a cell for every measure field; and where one of
    its non-null hierarchy cells is a name inherited from
    [Object.prototype], that cell is the last non-null one and no measure
    cell of the row holds a value.  Otherwise a read or a write on
    [undefined] throws and no tree is returned. *)
Theorem build_returns_iff_readable data :
  is_Some (buildHierarchicalTree hf mf data)
  ↔ Forall (readableRow hf mf) data.
Proof. apply build_is_Some. Qed.



End BuildReturns.

(** * What every node of a built tree looks like *)

Section NodeInvariants.

Context (Q : string → node → Prop).

Implicit Types (tree cur : gmap string node) (p : list string).

(** A property of nodes that holds of a fresh node and survives a write of
    measures and a change of children holds of every node, whatever rows
    are processed. *)
Lemma walk_allNodes n mf row levels cur cur' :
  (∀ k nd ms cs, Q k nd →
     storeMeasures mf row (measures nd) = Some ms →
     Q k (Node (name nd) (level nd) ms cs (hasChildren nd))) →
  (∀ L v, isNullValue v = false → inherited (propertyKey v) = false →
     Q (propertyKey v) (newNode n v L)) →
  allNodes Q cur →
  walkLevels n mf row levels cur = Some cur' →
  allNodes Q cur'.
Proof.
  intros Hstep Hnew. revert cur cur'.
  induction levels as [| [L f] levels IH]; intros cur cur' Hall Hwalk.
  - by injection Hwalk as <-.
  - walk_cases Hwalk v Hv Hnull Hmem ms cs Hms Hcs; [by eapply IH | done |].
    destruct (cur !! propertyKey v) as [nd0 |] eqn:Hk; simpl in *.
    + apply allNodes_insert; [done | |]; simpl.
      * apply Hstep; [| done]. by eapply allNodes_lookup.
      * eapply IH; [| exact Hcs]. by eapply allNodes_children.
    + apply allNodes_insert; [done | |]; simpl.
      * apply (Hstep _ (newNode n v L)); [| done]. apply Hnew; [done |].
        unfold inheritedMember in Hmem. rewrite Hk in Hmem. done.
      * eapply IH; [| exact Hcs]. apply allNodes_empty.
Qed.

Lemma buildFrom_allNodes hf mf data tree tree' :
  (∀ row k nd ms cs, Q k nd →
     storeMeasures mf row (measures nd) = Some ms →
     Q k (Node (name nd) (level nd) ms cs (hasChildren nd))) →
  (∀ L v, isNullValue v = false → inherited (propertyKey v) = false →
     Q (propertyKey v) (newNode (length hf) v L)) →
  allNodes Q tree →
  buildFrom hf mf data tree = Some tree' →
  allNodes Q tree'.
Proof.
  intros Hstep Hnew. revert tree.
  induction data as [| row data IH]; intros tree Hall Hb.
  - by injection Hb as <-.
  - rewrite buildFrom_cons in Hb.
    destruct (processRow hf mf tree row) as [tree1 |] eqn:Hrow;
      simpl in Hb; [| done].
    rewrite processRow_walkLevels in Hrow.
    apply (IH tree1); [| done].
    eapply walk_allNodes; [apply Hstep | apply Hnew | done | exact Hrow].
Qed.

End NodeInvariants.

(** * Which nodes and entries a build makes *)

Section BuildPaths.

Context (hf mf : list field).

Implicit Types (tree : gmap string node) (row : list value)
  (data : list (list value)) (p : list string).

Lemma processRow_paths tree tree' row p :
  plainTree tree →
  processRow hf mf tree row = Some tree' →
  is_Some (lookupPath tree' p)
  ↔ is_Some (lookupPath tree p) ∨ (p ≠ [] ∧ p `prefix_of` rowPath hf row).
Proof.
  intros Hplain Hrow. split.
  - intros Hp.
    destruct (decide (p `prefix_of` rowPath hf row)) as [Hpre | Hpre].
    + right. split; [| done]. intros ->. by destruct Hp.
    + left. by rewrite <- (processRow_frame _ _ _ _ _ _ Hplain Hrow Hpre).
  - intros [[nd Hnd] | [Hne Hpre]].
    + rewrite processRow_walkLevels in Hrow.
      by destruct (walk_keep _ _ _ _ _ _ _ _ Hplain Hrow Hnd)
        as (nd' & -> & _).
    + by destruct (processRow_touch _ _ _ _ _ p Hplain Hrow Hne Hpre)
        as (nd' & -> & _).
Qed.

Lemma buildFrom_paths data tree tree' p :
  plainTree tree →
  buildFrom hf mf data tree = Some tree' →
  is_Some (lookupPath tree' p)
  ↔ is_Some (lookupPath tree p)
    ∨ (p ≠ [] ∧ ∃ row, row ∈ data ∧ p `prefix_of` rowPath hf row).
Proof.
  revert tree. induction data as [| row data IH]; intros tree Hplain Hb.
  - injection Hb as <-. split; [by left |].
    intros [? | (_ & row & Hin & _)]; [done |]. by apply elem_of_nil in Hin.
  - rewrite buildFrom_cons in Hb.
    destruct (processRow hf mf tree row) as [tree1 |] eqn:Hrow;
      simpl in Hb; [| done].
    pose proof (processRow_plainTree _ _ _ _ _ Hplain Hrow) as Hplain1.
    rewrite (IH _ Hplain1 Hb), (processRow_paths _ _ _ p Hplain Hrow).
    split.
    + intros [[? | [? ?]] | (? & r & Hin & ?)].
      * by left.
      * right. split; [done |]. exists row. split; [left | done].
      * right. split; [done |]. exists r. split; [by right | done].
    + intros [? | (Hne & r & Hin & Hpre)]; [by left; left |].
      apply elem_of_cons in Hin as [-> | Hin]; [by left; right |].
      right. split; [done |]. by exists r.
Qed.

(** X2.  The nodes of the built tree are the non-empty prefixes of the
    key sequences of the rows: a node exists at a path exactly when some
    row has that path as a prefix of the keys of its non-null hierarchy
    cells that come before the first inherited name. *)
Theorem build_paths data tree p :
  buildHierarchicalTree hf mf data = Some tree →
  is_Some (lookupPath tree p)
  ↔ p ≠ [] ∧ ∃ row, row ∈ data ∧ p `prefix_of` rowPath hf row.
Proof.
  intros Hb.
  rewrite (buildFrom_paths _ _ _ p (allNodes_empty _) Hb), lookupPath_empty.
  split; [| by right]. intros [[? [=]] | ?]. done.
Qed.

End BuildPaths.

(** * Which entries a build stores *)

Section BuildEntries.

Context (hf mf : list field).

Implicit Types (tree : gmap string node) (row : list value)
  (data : list (list value)) (p : list string) (x : string).

(** What a row writes under a name is a present cell of a measure column
    with that name, and the name is not [__proto__]. *)
Lemma rowMeasure_Some row x v :
  rowMeasure mf row x = Some v →
  isPresent v = true ∧ x ≠ "__proto__"
  ∧ ∃ m, m ∈ mf ∧ fieldName m = x ∧ row !! index m = Some v.
Proof.
  unfold rowMeasure. destruct (decide (x = "__proto__")); [done |].
  intros Hlast.
  apply last_Some_elem_of, list_elem_of_filter in Hlast as [Hpres Hin].
  split; [done |]. split; [done |].
  apply list_elem_of_omap in Hin as (m & Hm & Hcell).
  exists m. by destruct (decide (fieldName m = x)).
Qed.

Lemma rowMeasure_is_Some row x :
  is_Some (rowMeasure mf row x)
  ↔ ∃ m v, m ∈ mf ∧ fieldName m = x ∧ x ≠ "__proto__"
           ∧ row !! index m = Some v ∧ isPresent v = true.
Proof.
  split.
  - intros [v Hv]. apply rowMeasure_Some in Hv as (? & ? & m & ? & ? & ?).
    by exists m, v.
  - intros (m & v & Hm & Hx & Hproto & Hcell & Hpres).
    unfold rowMeasure. rewrite decide_False by done. rewrite last_is_Some.
    intros Hnil.
    assert (v ∈ filter (λ v, isPresent v = true)
              (omap (λ m, if decide (fieldName m = x)
                          then row !! index m else None) mf)) as Hin.
    { apply list_elem_of_filter. split; [done |].
      apply list_elem_of_omap. exists m. split; [done |].
      by rewrite decide_True. }
    rewrite Hnil in Hin. by apply elem_of_nil in Hin.
Qed.

Lemma processRow_stored_from tree tree' row p x v :
  plainTree tree →
  processRow hf mf tree row = Some tree' →
  storedMeasure tree' p x = Some v →
  storedMeasure tree p x = Some v
  ∨ (p ≠ [] ∧ p `prefix_of` rowPath hf row ∧ rowMeasure mf row x = Some v).
Proof.
  intros Hplain Hrow Hv.
  destruct (decide (p = [])) as [-> | Hne]; [done |].
  destruct (decide (p `prefix_of` rowPath hf row)) as [Hpre | Hpre].
  - destruct (processRow_stored_on _ _ _ _ _ p x Hplain Hrow Hne Hpre)
      as [_ Heq].
    rewrite Heq in Hv.
    destruct (rowMeasure mf row x) as [w |]; [| by left].
    right. by simplify_eq.
  - left. rewrite <- Hv. symmetry.
    eapply processRow_stored_off; [done | done | by left].
Qed.

Lemma processRow_stored_keep tree tree' row p x :
  plainTree tree →
  processRow hf mf tree row = Some tree' →
  is_Some (storedMeasure tree p x) ∨
    (p ≠ [] ∧ p `prefix_of` rowPath hf row ∧ is_Some (rowMeasure mf row x)) →
  is_Some (storedMeasure tree' p x).
Proof.
  intros Hplain Hrow Hcase.
  destruct (decide (p = [])) as [-> | Hne].
  { destruct Hcase as [[? [=]] | [? _]]; done. }
  destruct (decide (p `prefix_of` rowPath hf row)) as [Hpre | Hpre].
  - destruct (processRow_stored_on _ _ _ _ _ p x Hplain Hrow Hne Hpre)
      as [_ ->].
    destruct (rowMeasure mf row x) as [w |]; [done |].
    destruct Hcase as [? | (_ & _ & [? [=]])]. done.
  - rewrite (processRow_stored_off _ _ _ _ _ p x Hplain Hrow) by by left.
    destruct Hcase as [? | (_ & ? & _)]; done.
Qed.

Lemma buildFrom_stored_from data tree tree' p x v :
  plainTree tree →
  buildFrom hf mf data tree = Some tree' →
  storedMeasure tree' p x = Some v →
  storedMeasure tree p x = Some v
  ∨ ∃ row, row ∈ data ∧ p ≠ [] ∧ p `prefix_of` rowPath hf row
           ∧ rowMeasure mf row x = Some v.
Proof.
  revert tree. induction data as [| row data IH]; intros tree Hplain Hb Hv.
  - injection Hb as <-. by left.
  - rewrite buildFrom_cons in Hb.
    destruct (processRow hf mf tree row) as [tree1 |] eqn:Hrow;
      simpl in Hb; [| done].
    pose proof (processRow_plainTree _ _ _ _ _ Hplain Hrow) as Hplain1.
    destruct (IH _ Hplain1 Hb Hv) as [Hv1 | (r & Hin & Hrest)].
    + destruct (processRow_stored_from _ _ _ _ _ _ Hplain Hrow Hv1)
        as [? | (? & ? & ?)]; [by left |].
      right. exists row. split; [left | done].
    + right. exists r. split; [by right | done].
Qed.

Lemma buildFrom_stored_keep data tree tree' p x :
  plainTree tree →
  buildFrom hf mf data tree = Some tree' →
  is_Some (storedMeasure tree p x) ∨
    (∃ row, row ∈ data ∧ p ≠ [] ∧ p `prefix_of` rowPath hf row
            ∧ is_Some (rowMeasure mf row x)) →
  is_Some (storedMeasure tree' p x).
Proof.
  revert tree.
  induction data as [| row data IH]; intros tree Hplain Hb Hcase.
  - injection Hb as <-. destruct Hcase as [? | (r & Hin & _)]; [done |].
    by apply elem_of_nil in Hin.
  - rewrite buildFrom_cons in Hb.
    destruct (processRow hf mf tree row) as [tree1 |] eqn:Hrow;
      simpl in Hb; [| done].
    pose proof (processRow_plainTree _ _ _ _ _ Hplain Hrow) as Hplain1.
    apply (IH _ Hplain1 Hb).
    destruct Hcase as [Hold | (r & Hin & Hne & Hpre & Hx)].
    + left. apply (processRow_stored_keep _ _ _ _ _ Hplain Hrow). by left.
    + apply elem_of_cons in Hin as [-> | Hin].
      * left. apply (processRow_stored_keep _ _ _ _ _ Hplain Hrow).
        by right.
      * right. by exists r.
Qed.

(** X3.  No measure is aggregated.  The value stored under a measure
    name at a node is the cell one single row through that node has in a
    measure column of that name, and it is neither null nor undefined; an
    entry exists exactly when some row through the node has such a cell
    and the name is not [__proto__], under which nothing is ever
    stored. *)
Theorem stored_measure_from_one_row data tree p x :
  buildHierarchicalTree hf mf data = Some tree →
  (∀ v, storedMeasure tree p x = Some v →
     isPresent v = true
     ∧ ∃ row m, row ∈ data ∧ p `prefix_of` rowPath hf row
                ∧ m ∈ mf ∧ fieldName m = x ∧ row !! index m = Some v)
  ∧ (is_Some (storedMeasure tree p x)
     ↔ x ≠ "__proto__"
       ∧ ∃ row m v, row ∈ data ∧ p ≠ [] ∧ p `prefix_of` rowPath hf row
                    ∧ m ∈ mf ∧ fieldName m = x ∧ row !! index m = Some v
                    ∧ isPresent v = true).
Proof.
  intros Hb. pose proof (allNodes_empty plainNode) as Hplain.
  assert (∀ v, storedMeasure tree p x = Some v →
            ∃ row, row ∈ data ∧ p ≠ [] ∧ p `prefix_of` rowPath hf row
                   ∧ rowMeasure mf row x = Some v) as Hfrom.
  { intros v Hv.
    destruct (buildFrom_stored_from _ _ _ _ _ _ Hplain Hb Hv)
      as [Hold | ?]; [| done].
    unfold storedMeasure in Hold. by rewrite lookupPath_empty in Hold. }
  split.
  - intros v (row & Hin & Hne & Hpre & Hrow)%Hfrom.
    apply rowMeasure_Some in Hrow as (Hpres & _ & m & Hm & Hx & Hcell).
    split; [done |]. by exists row, m.
  - split.
    + intros [v (row & Hin & Hne & Hpre & Hrow)%Hfrom].
      apply rowMeasure_Some in Hrow as (Hpres & Hproto & m & Hm & Hx & Hcell).
      split; [done |]. by exists row, m, v.
    + intros (Hproto & row & m & v & Hin & Hne & Hpre & Hm & Hx & Hcell
              & Hpres).
      apply (buildFrom_stored_keep _ _ _ _ _ Hplain Hb). right.
      exists row. split_and!; [done .. |].
      apply rowMeasure_is_Some. by exists m, v.
Qed.

End BuildEntries.

(** * Fields of the nodes of a built tree *)

Section BuildNodes.

Context (hf mf : list field).

Implicit Types (tree : gmap string node) (row : list value)
  (data : list (list value)) (p : list string) (nd : node).

Lemma newNode_hasChildren n v L :
  hasChildren (newNode n v L) = bool_decide (S L < n).
Proof. simpl. apply bool_decide_ext. lia. Qed.

(** X4.  A node is stored under the string form of its [name], and the
    name is a value the null test lets through: the last key of the path
    of a node is the property key of the node's name. *)
Theorem node_key_is_name data tree p nd :
  buildHierarchicalTree hf mf data = Some tree →
  lookupPath tree p = Some nd →
  last p = Some (propertyKey (name nd)) ∧ isNullValue (name nd) = false.
Proof.
  intros Hb Hp.
  assert (allNodes (λ k nd, k = propertyKey (name nd)
                            ∧ isNullValue (name nd) = false) tree) as Hall.
  { eapply buildFrom_allNodes; [| | apply allNodes_empty | exact Hb]; done. }
  destruct (Hall _ _ Hp) as (k & Hlast & -> & Hnull). done.
Qed.

(** X5.  The measures object of a node holds only values that are neither
    null nor undefined, under names of measure fields other than
    [__proto__].  So the null test of the renderer on a stored value never
    fails: a measure cell shows the node's entry for the column's name
    and, where there is none, the member of [Object.prototype] if the
    name is an inherited one; it is empty exactly when there is no entry
    and the name is not inherited. *)
Theorem measure_cell_is_entry data tree p nd :
  buildHierarchicalTree hf mf data = Some tree →
  lookupPath tree p = Some nd →
  (∀ x v, measures nd !! x = Some v →
     isPresent v = true ∧ x ∈ fieldName <$> mf ∧ x ≠ "__proto__")
  ∧ (∀ m, measureCell nd m =
       match measures nd !! fieldName m with
       | Some v => ValueCell v
       | None => if inherited (fieldName m) then MemberCell (fieldName m)
                 else EmptyCell
       end)
  ∧ ∀ m, measureCell nd m = EmptyCell
         ↔ measures nd !! fieldName m = None
           ∧ inherited (fieldName m) = false.
Proof.
  intros Hb Hp.
  assert (allNodes (λ _ nd, measures nd !! "__proto__" = None
            ∧ ∀ x v, measures nd !! x = Some v →
                isPresent v = true ∧ x ∈ fieldName <$> mf
                ∧ x ≠ "__proto__") tree) as Hall.
  { eapply buildFrom_allNodes; [| | apply allNodes_empty | exact Hb].
    - intros row k nd0 ms cs [Hproto HQ] Hms. simpl.
      split; [by eapply storeMeasures_proto |]. intros x v.
      rewrite (storeMeasures_lookup _ _ _ _ x Hproto Hms).
      destruct (rowMeasure mf row x) as [w |] eqn:Hw; [| apply HQ].
      intros [= ->].
      apply rowMeasure_Some in Hw as (Hpres & Hne & m & Hm & <- & _).
      split_and!; [done | | done]. by apply list_elem_of_fmap_2.
    - intros L v _ _. simpl. split; [done |]. intros x w.
      by rewrite lookup_empty. }
  destruct (Hall _ _ Hp) as (_ & _ & _ & Hnd).
  assert (∀ m, measureCell nd m =
       match measures nd !! fieldName m with
       | Some v => ValueCell v
       | None => if inherited (fieldName m) then MemberCell (fieldName m)
                 else EmptyCell
       end) as Hcell.
  { intros m. unfold measureCell.
    destruct (measures nd !! fieldName m) as [v |] eqn:Hv; [| done].
    by destruct (Hnd _ _ Hv) as [-> _]. }
  split_and!; [done | done |].
  intros m. rewrite Hcell.
  destruct (measures nd !! fieldName m) as [v |]; [by split; [| intros []] |].
  destruct (inherited (fieldName m)); by split; [| intros []].
Qed.

Lemma buildFrom_hasChildren data tree :
  buildFrom hf mf data ∅ = Some tree →
  allNodes (λ _ nd, hasChildren nd = bool_decide (S (level nd) < length hf))
           tree.
Proof.
  intros Hb.
  eapply buildFrom_allNodes; [| | apply allNodes_empty | exact Hb].
  - done.
  - intros L v _ _. apply newNode_hasChildren.
Qed.

(** X6.  The [hasChildren] flag of a node says whether the node's level
    field is above the last hierarchy level, whatever the node has below
    it: it is false exactly for the nodes labelled with the last level. *)
Theorem hasChildren_is_level_test data tree p nd :
  buildHierarchicalTree hf mf data = Some tree →
  lookupPath tree p = Some nd →
  (hasChildren nd = true ↔ S (level nd) < length hf)
  ∧ (hasChildren nd = false ↔ S (level nd) = length hf).
Proof.
  intros Hb Hp.
  destruct (buildFrom_hasChildren _ _ Hb _ _ Hp) as (_ & _ & ->).
  assert (levelBound (length hf) 0 tree) as Hbound.
  { eapply buildFrom_levelBound; [apply levelBound_empty | exact Hb]. }
  destruct (Hbound _ _ Hp) as [_ Hlt].
  rewrite bool_decide_eq_true, bool_decide_eq_false. lia.
Qed.

(** X7.  When in every row the hierarchy cells after a null cell are null
    too, every node that has a child has the flag set, so that the
    expand icon and the click handler are on exactly the nodes that have
    children, and a node is descended into exactly when its path key is
    in the expansion set and it has a child. *)
Theorem trailing_nulls_expandable data tree p nd :
  Forall (λ row, nullsTrailing (hierarchyCells hf row) = true) data →
  buildHierarchicalTree hf mf data = Some tree →
  lookupPath tree p = Some nd →
  (expandable nd = true ↔ children nd ≠ ∅)
  ∧ ∀ expanded,
      descends expanded nd p ↔ join p ∈ expanded ∧ children nd ≠ ∅.
Proof.
  intros Hdata Hb Hp.
  assert (children nd ≠ ∅ → hasChildren nd = true) as Hflag.
  { intros Hne. apply map_choose in Hne as (k & c & Hc).
    assert (p ≠ []) as Hpne by (by intros ->).
    assert (lookupPath tree (p ++ [k]) = Some c) as Hpc.
    { by rewrite lookupPath_snoc, Hp by done. }
    assert (levelExact 0 tree) as Hexact.
    { eapply buildFrom_levelExact; [done | apply levelExact_empty | done]. }
    assert (levelBound (length hf) 0 tree) as Hbound.
    { eapply buildFrom_levelBound; [apply levelBound_empty | exact Hb]. }
    pose proof (Hexact _ _ Hp) as Hl.
    pose proof (Hexact _ _ Hpc) as Hlc.
    destruct (Hbound _ _ Hpc) as [_ Hlt].
    rewrite length_app in Hlc. simpl in *.
    destruct (buildFrom_hasChildren _ _ Hb _ _ Hp) as (_ & _ & ->).
    apply bool_decide_eq_true. lia. }
  split.
  - rewrite expandable_spec. tauto.
  - intros expanded. unfold descends. tauto.
Qed.

End BuildNodes.

(** * Repeated rows and the order of the rows *)

Section RowOrder.

Context (hf mf : list field).

Implicit Types (tree cur : gmap string node) (row : list value)
  (data : list (list value)) (p : list string).

(** Writing the measures of a row a second time changes nothing. *)
Lemma storeMeasures_idem row ms ms' :
  ms !! "__proto__" = None →
  storeMeasures mf row ms = Some ms' → storeMeasures mf row ms' = Some ms'.
Proof.
  intros Hproto Hst.
  pose proof (storeMeasures_proto _ _ _ _ Hproto Hst) as Hproto'.
  assert (is_Some (storeMeasures mf row ms')) as [ms'' Hst'].
  { apply storeMeasures_is_Some. apply (storeMeasures_is_Some mf row ms).
    by rewrite Hst. }
  rewrite Hst'. f_equal. apply map_eq. intros x.
  rewrite (storeMeasures_lookup _ _ _ _ x Hproto' Hst'),
    (storeMeasures_lookup _ _ _ _ x Hproto Hst).
  by destruct (rowMeasure mf row x).
Qed.

Lemma walkLevels_idem n row levels cur cur' :
  plainTree cur →
  walkLevels n mf row levels cur = Some cur' →
  walkLevels n mf row levels cur' = Some cur'.
Proof.
  revert cur cur'.
  induction levels as [| [L f] levels IH]; intros cur cur' Hplain Hwalk.
  - simpl in *. congruence.
  - walk_cases Hwalk v Hv Hnull Hmem ms cs Hms Hcs.
    + rewrite (walkLevels_null _ _ _ _ _ _ _ v) by done. by eapply IH.
    + rewrite (walkLevels_member _ _ _ _ _ _ _ v) by done.
      by rewrite Hms, Hcs.
    + destruct (plainTree_default n cur (propertyKey v) v L Hplain)
        as [Hcsplain Hproto].
      rewrite (walkLevels_key _ _ _ _ _ _ _ v);
        [| done | done
         | unfold inheritedMember; by rewrite lookup_insert_eq].
      cbv zeta. rewrite lookup_insert_eq. simpl.
      rewrite (storeMeasures_idem _ _ _ Hproto Hms). simpl.
      rewrite (IH _ _ Hcsplain Hcs). simpl.
      by rewrite insert_insert_eq.
Qed.

Lemma processRow_idem tree tree' row :
  plainTree tree →
  processRow hf mf tree row = Some tree' →
  processRow hf mf tree' row = Some tree'.
Proof. rewrite !processRow_walkLevels. apply walkLevels_idem. Qed.

(** X8.  A row that directly follows an equal row changes nothing: the
    build of the data with the repetition is the build without it, also
    where that build throws. *)
Theorem repeated_row_no_effect pre row post :
  buildHierarchicalTree hf mf (pre ++ row :: row :: post)
    = buildHierarchicalTree hf mf (pre ++ row :: post).
Proof.
  unfold buildHierarchicalTree. rewrite !buildFrom_app.
  destruct (buildFrom hf mf pre ∅) as [tree |] eqn:Hpre; simpl; [| done].
  pose proof (buildFrom_plainTree _ _ _ _ _ (allNodes_empty _) Hpre)
    as Hplain.
  rewrite !buildFrom_cons.
  destruct (processRow hf mf tree row) as [tree1 |] eqn:Hrow; simpl;
    [| done].
  by rewrite buildFrom_cons, (processRow_idem _ _ _ Hplain Hrow).
Qed.

Lemma buildFrom_stored_dom data tree p x :
  buildFrom hf mf data ∅ = Some tree →
  is_Some (storedMeasure tree p x)
  ↔ ∃ row, row ∈ data ∧ p ≠ [] ∧ p `prefix_of` rowPath hf row
           ∧ is_Some (rowMeasure mf row x).
Proof.
  intros Hb. pose proof (allNodes_empty plainNode) as Hplain. split.
  - intros [v Hv].
    destruct (buildFrom_stored_from _ _ _ _ _ _ _ _ Hplain Hb Hv)
      as [Hold | (row & Hin & Hne & Hpre & Hrow)].
    { unfold storedMeasure in Hold. by rewrite lookupPath_empty in Hold. }
    exists row. by rewrite Hrow.
  - intros Hrow. apply (buildFrom_stored_keep _ _ _ _ _ _ _ Hplain Hb).
    by right.
Qed.

(** X9.  The order of the rows decides neither whether the build throws
    nor which nodes and which measure entries the tree has: a
    rearrangement of the rows builds a tree with a node at the same paths
    and an entry under the same names. *)
Theorem row_order_keeps_shape data data' tree :
  data ≡ₚ data' →
  buildHierarchicalTree hf mf data = Some tree →
  ∃ tree', buildHierarchicalTree hf mf data' = Some tree'
    ∧ (∀ p, is_Some (lookupPath tree' p) ↔ is_Some (lookupPath tree p))
    ∧ ∀ p x, is_Some (storedMeasure tree' p x)
             ↔ is_Some (storedMeasure tree p x).
Proof.
  intros Hperm Hb. pose proof (allNodes_empty plainNode) as Hplain.
  assert (is_Some (buildHierarchicalTree hf mf data')) as [tree' Hb'].
  { apply build_is_Some. rewrite <- Hperm.
    apply build_is_Some. by rewrite Hb. }
  unfold buildHierarchicalTree in *.
  exists tree'. split_and!; [done | |].
  - intros p.
    rewrite (buildFrom_paths _ _ _ _ _ p Hplain Hb'),
      (buildFrom_paths _ _ _ _ _ p Hplain Hb).
    by setoid_rewrite Hperm.
  - intros p x.
    rewrite (buildFrom_stored_dom _ _ _ _ Hb'), (buildFrom_stored_dom _ _ _ _ Hb).
    by setoid_rewrite Hperm.
Qed.

End RowOrder.

(** * Rows and the top-level nodes *)

Section Groups.

Context (hf mf : list field).

Implicit Types (tree cur : gmap string node) (row : list value)
  (data : list (list value)) (k : string).

(** What a walk does below the first key of the row depends on the entry
    under that key alone. *)
Lemma walk_head_same n row levels cur1 cur1' cur2 k ks :
  plainTree cur1 → plainTree cur2 →
  levelKeys row levels = k :: ks →
  walkLevels n mf row levels cur1 = Some cur1' →
  cur2 !! k = cur1 !! k →
  ∃ cur2', walkLevels n mf row levels cur2 = Some cur2'
    ∧ cur2' !! k = cur1' !! k.
Proof.
  intros Hplain1 Hplain2. revert cur1' .
  induction levels as [| [L f] levels IH];
    intros cur1' Hkeys Hwalk Hsame; [done |].
  walk_cases Hwalk v Hv Hnull Hmem ms cs Hms Hcs.
  - rewrite (levelKeys_cons_null _ _ _ _ v) in Hkeys by done.
    rewrite (walkLevels_null _ _ _ _ _ _ _ v) by done. by eapply IH.
  - rewrite (plainTree_member cur1) in Hmem by done.
    by rewrite (levelKeys_cons_member _ _ _ _ v) in Hkeys.
  - rewrite (plainTree_member cur1) in Hmem by done.
    rewrite (levelKeys_cons_key _ _ _ _ v) in Hkeys by done.
    injection Hkeys as <- _.
    rewrite (walkLevels_key _ _ _ _ _ _ _ v)
      by (by rewrite ?plainTree_member).
    cbv zeta. rewrite Hsame, Hms. simpl. rewrite Hcs. simpl.
    eexists. split; [done |]. by rewrite !lookup_insert_eq.
Qed.

Lemma processRow_other_key tree tree' row k :
  plainTree tree →
  processRow hf mf tree row = Some tree' →
  head (rowPath hf row) ≠ Some k →
  tree' !! k = tree !! k.
Proof.
  intros Hplain Hrow Hk.
  rewrite <- !lookupPath_singleton.
  apply (processRow_frame _ _ _ _ _ _ Hplain Hrow).
  intros [ks Heq]. apply Hk. by rewrite Heq.
Qed.

Lemma buildFrom_group k data : ∀ t1 t1' t2,
  plainTree t1 → plainTree t2 →
  t1 !! k = t2 !! k →
  buildFrom hf mf data t1 = Some t1' →
  ∃ t2',
    buildFrom hf mf
      (filter (λ row, head (rowPath hf row) = Some k) data) t2 = Some t2'
    ∧ t2' !! k = t1' !! k.
Proof.
  induction data as [| row data IH];
    intros t1 t1' t2 Hplain1 Hplain2 Hsame Hb.
  - injection Hb as <-. by exists t2.
  - rewrite buildFrom_cons in Hb.
    destruct (processRow hf mf t1 row) as [t1a |] eqn:Hrow;
      simpl in Hb; [| done].
    pose proof (processRow_plainTree _ _ _ _ _ Hplain1 Hrow) as Hplain1a.
    destruct (decide (head (rowPath hf row) = Some k)) as [Hk | Hk].
    + rewrite filter_cons_True by done. rewrite buildFrom_cons.
      destruct (rowPath hf row) as [| k0 ks] eqn:Hpath; [done |].
      injection Hk as ->.
      rewrite processRow_walkLevels in Hrow.
      destruct (walk_head_same _ _ _ _ _ t2 k ks Hplain1 Hplain2
                  (eq_trans (levelKeys_indexed hf row) Hpath) Hrow)
        as (t2a & Hrow2 & Hsame2); [done |].
      rewrite processRow_walkLevels, Hrow2. simpl.
      apply (IH t1a); [done | | done | done].
      eapply walk_plainTree; [exact Hplain2 | exact Hrow2].
    + rewrite filter_cons_False by done.
      apply (IH t1a); [done | done | | done].
      by rewrite (processRow_other_key _ _ _ _ Hplain1 Hrow Hk).
Qed.

(** X10.  The subtree under a top-level key is built from the rows that
    begin with this key, and from no other row: the build of those rows
    alone returns a tree with the same node under the key, and no other
    top-level node. *)
Theorem top_node_from_own_rows data tree k :
  buildHierarchicalTree hf mf data = Some tree →
  ∃ tree_k,
    buildHierarchicalTree hf mf
      (filter (λ row, head (rowPath hf row) = Some k) data) = Some tree_k
    ∧ tree_k !! k = tree !! k
    ∧ ∀ k', k' ≠ k → tree_k !! k' = None.
Proof.
  intros Hb. pose proof (allNodes_empty plainNode) as Hplain.
  destruct (buildFrom_group k data ∅ tree ∅ Hplain Hplain eq_refl Hb)
    as (tree_k & Hbk & Hsame).
  exists tree_k. split_and!; [done | done |].
  intros k' Hk'. apply eq_None_not_Some. rewrite <- lookupPath_singleton.
  rewrite (buildFrom_paths _ _ _ _ _ [k'] Hplain Hbk), lookupPath_empty.
  intros [[? [=]] | (_ & row & Hin & [ks Hpre])].
  apply list_elem_of_filter in Hin as [Hhead _].
  rewrite Hpre in Hhead. simpl in Hhead. congruence.
Qed.

(** X11.  A row leaves no trace when its hierarchy cells are all null,
    or when the first that is not null is an inherited name: the built
    tree is empty exactly when every row is of that kind. *)
Theorem empty_tree_iff_no_keys data tree :
  buildHierarchicalTree hf mf data = Some tree →
  tree = ∅
  ↔ Forall (λ row, ∀ k, head (hierarchyKeys hf row) = Some k →
                        inherited k = true) data.
Proof.
  intros Hb. pose proof (allNodes_empty plainNode) as Hplain.
  assert (∀ row, rowPath hf row = []
                 ↔ ∀ k, head (hierarchyKeys hf row) = Some k →
                        inherited k = true) as Hkind.
  { intros row. unfold rowPath.
    destruct (hierarchyKeys hf row) as [| k ks]; simpl; [done |].
    destruct (inherited k) eqn:Hk.
    - split; [by intros _ k0 [= <-] | done].
    - split; [done |]. intros Hhead. specialize (Hhead k eq_refl).
      congruence. }
  split.
  - intros ->. apply Forall_forall. intros row Hin. apply Hkind.
    destruct (rowPath hf row) as [| k ks] eqn:Hpath; [done |].
    assert (is_Some (lookupPath (∅ : gmap string node) [k])) as [? Hk].
    { apply (buildFrom_paths _ _ _ _ _ [k] Hplain Hb). right.
      split; [done |]. exists row. split; [done |]. rewrite Hpath.
      by exists ks. }
    by rewrite lookupPath_empty in Hk.
  - intros Hall. apply map_empty. intros k. apply eq_None_not_Some.
    rewrite <- lookupPath_singleton.
    rewrite (buildFrom_paths _ _ _ _ _ [k] Hplain Hb), lookupPath_empty.
    intros [[? [=]] | (_ & row & Hin & [ks Hpre])].
    rewrite Forall_forall in Hall.
    pose proof (proj2 (Hkind row) (Hall row Hin)) as Hnil.
    by rewrite Hnil in Hpre.
Qed.

End Groups.

(** * Which rows are drawn *)

Section RenderRows.

Context (mf : list field).

Implicit Types (expanded : gset string) (tl : gmap string node)
  (path q : list string) (r : tr).

Lemma elem_of_flat_map {A B} (f : A → list B) (l : list A) (y : B) :
  y ∈ flat_map f l ↔ ∃ x, x ∈ l ∧ y ∈ f x.
Proof.
  induction l as [| a l IH]; simpl.
  - split; [by intros ?%elem_of_nil | by intros (? & ?%elem_of_nil & _)].
  - rewrite elem_of_app, IH. split.
    + intros [? | (x & ? & ?)]; [exists a | exists x];
        (split; [| done]); [left | by right].
    + intros (x & [-> | ?]%elem_of_cons & ?); [by left |].
      right. by exists x.
Qed.

Lemma children_depth tl k nd :
  tl !! k = Some nd → treeDepth (children nd) < treeDepth tl.
Proof.
  intros Hk. pose proof (treeDepth_ge _ _ _ Hk) as Hge.
  rewrite nodeHeight_unfold in Hge. lia.
Qed.

Lemma prefix_singleton_inv (q1 : list string) k :
  q1 `prefix_of` [k] → q1 = [] ∨ q1 = [k].
Proof.
  destruct q1 as [| k1 q1]; [by left |]. intros Hpre. right.
  pose proof (prefix_cons_inv_1 _ _ _ _ Hpre) as ->.
  apply prefix_cons_inv_2, prefix_nil_inv in Hpre. by subst.
Qed.

Lemma shown_visible expanded tl path q :
  shown expanded tl path q = true ↔ visible expanded tl path q.
Proof.
  revert tl path. induction q as [| k rest IH]; intros tl path.
  - split; [done |]. by intros [[? [=]] _].
  - unfold visible. simpl.
    destruct (tl !! k) as [nd |] eqn:Hk; simpl;
      [| split; [done | by intros [[? [=]] _]]].
    destruct rest as [| k' rest].
    + split; [| done]. intros _. split; [done |].
      intros q1 nd1 [-> | ->]%prefix_singleton_inv; done.
    + rewrite andb_true_iff, bool_decide_eq_true, IH. unfold visible.
      split.
      * intros (Hd & Hsome & Hall). split; [done |].
        intros q1 nd1 Hpre Hne Hq1.
        destruct q1 as [| k1 q1]; [done |].
        pose proof (prefix_cons_inv_1 _ _ _ _ Hpre) as ->.
        apply prefix_cons_inv_2 in Hpre.
        rewrite lookupPath_cons, Hk in Hq1. simpl in Hq1.
        destruct (decide (q1 = [])) as [-> | Hq1ne].
        -- by injection Hq1 as <-.
        -- rewrite (app_assoc path [k] q1 : path ++ k :: q1 = _).
           apply Hall; [done | by intros -> | done].
      * intros (Hsome & Hall). split_and!.
        -- apply (Hall [k]); [| done |].
           ++ apply prefix_cons, prefix_nil.
           ++ by rewrite lookupPath_singleton.
        -- done.
        -- intros q1 nd1 Hpre Hne Hq1.
           assert (q1 ≠ []) as Hq1ne by (by intros ->).
           rewrite <- (app_assoc path [k] q1).
           change ([k] ++ q1) with (k :: q1).
           apply Hall; [by apply prefix_cons | by intros [= ->] |].
           rewrite lookupPath_cons, Hk. simpl. by rewrite decide_False.
Qed.

(** The rows of a call are the rows of the nodes it reaches, each with the
    level and the path of its place in the tree. *)
Lemma render_rows_below expanded h :
  ∀ tl level path, treeDepth tl < h → ∀ r,
    r ∈ renderTreeLevel mf expanded tl level path
    ↔ ∃ q nd, shown expanded tl path q = true
        ∧ lookupPath tl q = Some nd
        ∧ r = renderRow mf (bool_decide (join (path ++ q) ∈ expanded)) nd
                (level + length q - 1) (path ++ q).
Proof.
  induction h as [| h IH]; intros tl level path Hh r; [lia |].
  rewrite renderTreeLevel_unfold, elem_of_flat_map. split.
  - intros (key & Hkey & Hr).
    destruct (tl !! key) as [nd |] eqn:Hnd; [| by apply elem_of_nil in Hr].
    apply elem_of_cons in Hr as [-> | Hr].
    + exists [key], nd. simpl. rewrite Hnd. split_and!; [done | done |].
      f_equal. lia.
    + destruct (decide (descends expanded nd (path ++ [key]))) as [Hd | Hd];
        [| by apply elem_of_nil in Hr].
      apply IH in Hr as (q & nd' & Hshown & Hq & ->);
        [| pose proof (children_depth _ _ _ Hnd); lia].
      assert (q ≠ []) as Hqne by (by intros ->).
      exists (key :: q), nd'. split_and!.
      * simpl. rewrite Hnd. destruct q; [done |].
        by rewrite bool_decide_true, Hshown.
      * rewrite lookupPath_cons, Hnd. simpl. by rewrite decide_False.
      * rewrite <- !app_assoc. simpl. f_equal.
        destruct q; [done |]. simpl. lia.
  - intros (q & nd & Hshown & Hq & ->).
    destruct q as [| key rest]; [done |]. simpl in Hshown.
    destruct (tl !! key) as [nd0 |] eqn:Hnd0; [| done].
    exists key. split; [by apply elem_of_sortedKeys |].
    rewrite Hnd0. rewrite lookupPath_cons, Hnd0 in Hq. simpl in Hq.
    destruct rest as [| k' rest].
    + injection Hq as <-. simpl. rewrite Nat.add_sub. left.
    + apply andb_true_iff in Hshown as [Hd%bool_decide_eq_true Hshown].
      right. rewrite decide_True by done.
      apply IH; [pose proof (children_depth _ _ _ Hnd0); lia |].
      exists (k' :: rest), nd. split_and!; [done | done |].
      rewrite <- !app_assoc. simpl. f_equal. lia.
Qed.

Lemma render_rows expanded tl level path r :
  r ∈ renderTreeLevel mf expanded tl level path
  ↔ ∃ q nd, shown expanded tl path q = true
      ∧ lookupPath tl q = Some nd
      ∧ r = renderRow mf (bool_decide (join (path ++ q) ∈ expanded)) nd
              (level + length q - 1) (path ++ q).
Proof. apply (render_rows_below expanded (S (treeDepth tl))). lia. Qed.

(** X12.  The table has a row for a node exactly when the node is visible:
    every node above it has its path key in the expansion set, has the
    [hasChildren] flag and has a child.  The row carries the node's
    depth as its level and the keys from the root as its path.  [shown]
    computes visibility. *)
Theorem rows_are_visible_nodes expanded tl level path :
  (∀ r, r ∈ renderTreeLevel mf expanded tl level path
     ↔ ∃ q nd, visible expanded tl path q
         ∧ lookupPath tl q = Some nd
         ∧ r = renderRow mf (bool_decide (join (path ++ q) ∈ expanded)) nd
                 (level + length q - 1) (path ++ q))
  ∧ ∀ q, visible expanded tl path q ↔ shown expanded tl path q = true.
Proof.
  split.
  - intros r. rewrite render_rows. by setoid_rewrite shown_visible.
  - intros q. by rewrite shown_visible.
Qed.

End RenderRows.

(** * What the rows depend on *)

Section RenderDepends.

Context (mf : list field).

Implicit Types (expanded : gset string) (tl tree : gmap string node)
  (path q cp : list string) (r : tr).

Lemma flat_map_ext_elem {A B} (f g : A → list B) (l : list A) :
  (∀ x, x ∈ l → f x = g x) → flat_map f l = flat_map g l.
Proof.
  induction l as [| a l IH]; intros Hfg; [done |]. simpl.
  rewrite (Hfg a) by left. f_equal. apply IH. intros x Hx. apply Hfg.
  by right.
Qed.

Lemma render_ext_below expanded1 expanded2 h :
  ∀ tl level path, treeDepth tl < h →
    (∀ q, is_Some (lookupPath tl q) →
       join (path ++ q) ∈ expanded1 ↔ join (path ++ q) ∈ expanded2) →
    renderTreeLevel mf expanded1 tl level path
      = renderTreeLevel mf expanded2 tl level path.
Proof.
  induction h as [| h IH]; intros tl level path Hh Hsame; [lia |].
  rewrite !renderTreeLevel_unfold. apply flat_map_ext_elem.
  intros key _. destruct (tl !! key) as [nd |] eqn:Hnd; [| done].
  assert (join (path ++ [key]) ∈ expanded1
          ↔ join (path ++ [key]) ∈ expanded2) as Hkey.
  { apply Hsame. by rewrite lookupPath_singleton, Hnd. }
  f_equal; [f_equal; by apply bool_decide_ext |].
  assert (descends expanded1 nd (path ++ [key])
          ↔ descends expanded2 nd (path ++ [key])) as Hd.
  { unfold descends. by rewrite Hkey. }
  destruct (decide (descends expanded1 nd (path ++ [key]))) as [Hd1 | Hd1].
  - rewrite decide_True by by apply Hd.
    apply IH; [pose proof (children_depth _ _ _ Hnd); lia |].
    intros q Hq. rewrite <- !app_assoc. apply Hsame.
    assert (q ≠ []) as Hne by (intros ->; by destruct Hq).
    change ([key] ++ q) with (key :: q).
    rewrite lookupPath_cons, Hnd. simpl. by rewrite decide_False.
  - rewrite decide_False; [done |]. by rewrite <- Hd.
Qed.

(** X13.  The rows depend on the expansion set only through the path keys
    of the nodes of the tree: two sets that agree on those keys give the
    same rows, so keys left in the set that name no node change
    nothing. *)
Theorem render_ignores_other_keys expanded1 expanded2 tl level path :
  (∀ q, is_Some (lookupPath tl q) →
     join (path ++ q) ∈ expanded1 ↔ join (path ++ q) ∈ expanded2) →
  renderTreeLevel mf expanded1 tl level path
    = renderTreeLevel mf expanded2 tl level path.
Proof.
  apply (render_ext_below expanded1 expanded2 (S (treeDepth tl))). lia.
Qed.

Lemma descends_mono expanded1 expanded2 nd cp :
  expanded1 ⊆ expanded2 →
  descends expanded1 nd cp → descends expanded2 nd cp.
Proof. unfold descends. set_solver. Qed.

Lemma shown_mono expanded1 expanded2 tl path q :
  expanded1 ⊆ expanded2 →
  shown expanded1 tl path q = true → shown expanded2 tl path q = true.
Proof.
  intros Hsub. revert tl path.
  induction q as [| k rest IH]; intros tl path; [done |]. simpl.
  destruct (tl !! k) as [nd |]; [| done].
  destruct rest as [| k' rest]; [done |].
  rewrite !andb_true_iff, !bool_decide_eq_true.
  intros [Hd Hs]. split; [by eapply descends_mono | by apply IH].
Qed.

(** X14.  Adding keys to the expansion set takes no row away: every row
    drawn with the smaller set is drawn with the larger one, at the same
    level and path, with the same name, cells, icon and click handler. *)
Theorem larger_set_keeps_rows expanded1 expanded2 tl level path r :
  expanded1 ⊆ expanded2 →
  r ∈ renderTreeLevel mf expanded1 tl level path →
  ∃ r', r' ∈ renderTreeLevel mf expanded2 tl level path
    ∧ data_level r' = data_level r ∧ data_path r' = data_path r
    ∧ tr_name r' = tr_name r ∧ tr_cells r' = tr_cells r
    ∧ tr_icon r' = tr_icon r ∧ tr_click r' = tr_click r.
Proof.
  intros Hsub (q & nd & Hshown & Hq & ->)%render_rows.
  exists (renderRow mf (bool_decide (join (path ++ q) ∈ expanded2)) nd
            (level + length q - 1) (path ++ q)).
  split; [| done].
  apply render_rows. exists q, nd. split_and!; [| done | done].
  by eapply shown_mono.
Qed.

(** X15.  Every row of a call has one cell for each measure field, is
    marked expanded exactly when its path key is in the set, has the icon
    exactly when it has the click handler, and its handler toggles the
    path whose key is the row's own [data-path]. *)
Theorem row_attributes expanded tl level path :
  Forall (λ r,
    length (tr_cells r) = length mf
    ∧ tr_expanded r = bool_decide (data_path r ∈ expanded)
    ∧ (tr_icon r = true ↔ is_Some (tr_click r))
    ∧ (∀ cp, tr_click r = Some cp →
         join cp = data_path r ∧ path `prefix_of` cp)
    ∧ level ≤ data_level r)
    (renderTreeLevel mf expanded tl level path).
Proof.
  apply Forall_forall. intros r (q & nd & Hshown & Hq & ->)%render_rows.
  assert (q ≠ []) as Hne by (by intros ->).
  unfold renderRow. simpl. split_and!.
  - by rewrite length_fmap.
  - done.
  - destruct (expandable nd); split; (done || by intros [? [=]]).
  - intros cp. destruct (expandable nd); [| done]. intros [= <-].
    split; [done |]. by apply prefix_app_r.
  - destruct q; [done |]. simpl. lia.
Qed.

End RenderDepends.

Section BuiltRows.

Context (hf mf : list field).

(** X16.  In the table of a built tree no row is deeper than the hierarchy
    has fields, and no row is labelled with a value the builder treats as
    null. *)
Theorem built_rows_bounded data tree expanded :
  buildHierarchicalTree hf mf data = Some tree →
  Forall (λ r, data_level r < length hf ∧ isNullValue (tr_name r) = false)
         (renderTreeLevel mf expanded tree 0 []).
Proof.
  intros Hb. apply Forall_forall.
  intros r (q & nd & _ & Hq & ->)%render_rows. simpl.
  assert (levelBound (length hf) 0 tree) as Hbound.
  { eapply buildFrom_levelBound; [apply levelBound_empty | exact Hb]. }
  destruct (Hbound _ _ Hq) as [Hlen Hlt]. split; [simpl in *; lia |].
  assert (allNodes (λ _ nd, isNullValue (name nd) = false) tree) as Hall.
  { eapply buildFrom_allNodes; [| | apply allNodes_empty | exact Hb]; done. }
  by destruct (Hall _ _ Hq) as (_ & _ & ?).
Qed.

End BuiltRows.

(** * Path keys, clicks and the table *)

Section PathKeys.

Implicit Types (expanded : gset string) (tl tree : gmap string node)
  (path p q cp : list string) (s t : string).

Lemma join_cons_cons a b l : join (a :: b :: l) = a +:+ "|" +:+ join (b :: l).
Proof. reflexivity. Qed.

Lemma join_app q1 q2 :
  q1 ≠ [] → q2 ≠ [] → join (q1 ++ q2) = join q1 +:+ "|" +:+ join q2.
Proof.
  intros Hq1 Hq2. induction q1 as [| a q1 IH]; [done |].
  destruct q1 as [| b q1].
  - destruct q2 as [| c q2]; [done |]. apply join_cons_cons.
  - change ((a :: b :: q1) ++ q2) with (a :: b :: (q1 ++ q2)).
    rewrite (join_cons_cons a b (q1 ++ q2)), (join_cons_cons a b q1).
    change (b :: q1 ++ q2) with ((b :: q1) ++ q2). rewrite IH by done.
    by rewrite !string_app_assoc.
Qed.

Lemma join_shorter q1 q2 :
  q1 ≠ [] → q2 ≠ [] →
  String.length (join q1) < String.length (join (q1 ++ q2)).
Proof.
  intros Hq1 Hq2. rewrite join_app, !string_app_length by done.
  simpl. lia.
Qed.

Lemma barFree_app_bar s t : barFree (s +:+ "|" +:+ t) = false.
Proof.
  induction s as [| a s IH]; [done |].
  rewrite string_app_cons. simpl. rewrite IH. apply andb_false_r.
Qed.

Lemma bar_app t : "|" +:+ t = String bar t.
Proof. reflexivity. Qed.

Lemma split_at_bar s1 s2 t1 t2 :
  barFree s1 = true → barFree s2 = true →
  s1 +:+ "|" +:+ t1 = s2 +:+ "|" +:+ t2 → s1 = s2 ∧ t1 = t2.
Proof.
  rewrite !bar_app. revert s2.
  induction s1 as [| a s1 IH]; intros [| b s2] H1 H2 Heq.
  - rewrite !string_app_nil in Heq. by injection Heq as ->.
  - rewrite string_app_nil, string_app_cons in Heq.
    injection Heq as <- _. done.
  - rewrite string_app_nil, string_app_cons in Heq.
    injection Heq as -> _. done.
  - rewrite !string_app_cons in Heq. injection Heq as -> Heq.
    simpl in H1, H2.
    apply andb_true_iff in H1 as [_ H1]. apply andb_true_iff in H2 as [_ H2].
    destruct (IH _ H1 H2 Heq) as [-> ->]. done.
Qed.

(** X17.  Paths of keys without ['|'] are told apart by their path keys:
    two non-empty paths with the same [join('|')] are the same path, so
    an entry of the expansion set stands for one node only. *)
Theorem join_injective p q :
  p ≠ [] → q ≠ [] →
  Forall (λ k, barFree k = true) p → Forall (λ k, barFree k = true) q →
  join p = join q → p = q.
Proof.
  intros Hp Hq Hbp. revert q Hq.
  induction Hbp as [| a p Ha Hbp IH]; [done |].
  intros q Hq Hbq Heq. destruct Hbq as [| b q Hb Hbq]; [done |].
  destruct p as [| a' p], q as [| b' q].
  - by rewrite (Heq : a = b).
  - rewrite join_cons_cons in Heq. change (join [a]) with a in Heq.
    rewrite Heq, barFree_app_bar in Ha. done.
  - rewrite join_cons_cons in Heq. change (join [b]) with b in Heq.
    rewrite <- Heq, barFree_app_bar in Hb. done.
  - rewrite !join_cons_cons in Heq.
    destruct (split_at_bar _ _ _ _ Ha Hb Heq) as [-> Hrest].
    f_equal. by apply IH.
Qed.

Lemma toRemove_shorter k x :
  String.length x < String.length k → toRemove k x = false.
Proof.
  intros Hlen. apply not_true_iff_false. rewrite toRemove_spec.
  intros [-> | [t ->]]; [lia |].
  rewrite !string_app_length in Hlen. lia.
Qed.

Lemma toRemove_self k : toRemove k k = true.
Proof. apply toRemove_spec. by left. Qed.

Lemma toggle_keeps_shorter expanded cp x :
  String.length x < String.length (join cp) →
  x ∈ expanded → x ∈ toggleExpanded expanded cp.
Proof.
  intros Hlen Hx. destruct (decide (join cp ∈ expanded)) as [Hin | Hout].
  - rewrite elem_of_toggle_collapse by done.
    split; [done | by apply toRemove_shorter].
  - rewrite elem_of_toggle_expand by done. by left.
Qed.

Lemma toggle_flips expanded cp :
  join cp ∈ toggleExpanded expanded cp ↔ join cp ∉ expanded.
Proof.
  destruct (decide (join cp ∈ expanded)) as [Hin | Hout].
  - rewrite elem_of_toggle_collapse, toRemove_self by done. naive_solver.
  - rewrite elem_of_toggle_expand by done. naive_solver.
Qed.

(** X18.  Toggles of two paths commute when neither path key is the other
    or starts with the other followed by ['|']. *)
Theorem toggles_commute expanded p q :
  toRemove (join p) (join q) = false →
  toRemove (join q) (join p) = false →
  toggleExpanded (toggleExpanded expanded p) q
    = toggleExpanded (toggleExpanded expanded q) p.
Proof.
  intros Hpq Hqp.
  assert (join p ≠ join q) as Hne.
  { intros Heq. by rewrite Heq, toRemove_self in Hpq. }
  apply set_eq. intros x.
  destruct (decide (join p ∈ expanded)) as [Hp | Hp];
    destruct (decide (join q ∈ expanded)) as [Hq | Hq].
  - assert (join q ∈ toggleExpanded expanded p) as Hq'
      by by rewrite elem_of_toggle_collapse.
    assert (join p ∈ toggleExpanded expanded q) as Hp'
      by by rewrite elem_of_toggle_collapse.
    rewrite (elem_of_toggle_collapse _ q) by done.
    rewrite (elem_of_toggle_collapse _ p x Hp').
    rewrite (elem_of_toggle_collapse _ p x Hp).
    rewrite (elem_of_toggle_collapse _ q x Hq). tauto.
  - assert (join q ∉ toggleExpanded expanded p) as Hq'.
    { rewrite elem_of_toggle_collapse by done. tauto. }
    assert (join p ∈ toggleExpanded expanded q) as Hp'.
    { rewrite elem_of_toggle_expand by done. by left. }
    rewrite (elem_of_toggle_expand _ q x Hq').
    rewrite (elem_of_toggle_collapse _ p x Hp').
    rewrite (elem_of_toggle_collapse _ p x Hp).
    rewrite (elem_of_toggle_expand _ q x Hq).
    split; [| naive_solver].
    intros [[? ?] | ->]; (split; [by auto | done]).
  - assert (join q ∈ toggleExpanded expanded p) as Hq'.
    { rewrite elem_of_toggle_expand by done. by left. }
    assert (join p ∉ toggleExpanded expanded q) as Hp'.
    { rewrite elem_of_toggle_collapse by done. tauto. }
    rewrite (elem_of_toggle_collapse _ q x Hq').
    rewrite (elem_of_toggle_expand _ p x Hp').
    rewrite (elem_of_toggle_expand _ p x Hp).
    rewrite (elem_of_toggle_collapse _ q x Hq).
    split; [naive_solver |].
    intros [[? ?] | ->]; (split; [by auto | done]).
  - assert (join q ∉ toggleExpanded expanded p) as Hq'.
    { rewrite elem_of_toggle_expand by done. naive_solver. }
    assert (join p ∉ toggleExpanded expanded q) as Hp'.
    { rewrite elem_of_toggle_expand by done. naive_solver. }
    rewrite (elem_of_toggle_expand _ q x Hq').
    rewrite (elem_of_toggle_expand _ p x Hp').
    rewrite (elem_of_toggle_expand _ p x Hp).
    rewrite (elem_of_toggle_expand _ q x Hq). tauto.
Qed.

End PathKeys.

(** * Clicks on the drawn table *)

Section Clicks.

Implicit Types (expanded : gset string) (tl tree : gmap string node)
  (path p q cp : list string) (st : state).

Lemma prefix_snoc_inv (q1 cp : list string) k :
  q1 `prefix_of` cp ++ [k] → q1 ≠ cp ++ [k] → q1 `prefix_of` cp.
Proof.
  intros [q2 Heq] Hne.
  destruct q2 as [| x q2 _] using rev_ind.
  - by rewrite app_nil_r in Heq.
  - rewrite app_assoc in Heq. apply app_inj_tail in Heq as [-> _].
    by exists q2.
Qed.

Lemma shown_toggle_self expanded tl cp :
  shown expanded tl [] cp = true →
  shown (toggleExpanded expanded cp) tl [] cp = true.
Proof.
  rewrite !shown_visible. intros [Hsome Hall]. split; [done |].
  intros q1 nd1 Hpre Hne Hq1.
  destruct (Hall q1 nd1 Hpre Hne Hq1) as (Hin & Hflag & Hch).
  split_and!; [| done | done].
  destruct Hpre as [q2 ->].
  apply toggle_keeps_shorter; [| done]. simpl.
  apply join_shorter; [by intros -> |].
  intros ->. by rewrite app_nil_r in Hne.
Qed.

Lemma shown_child_after_expand expanded tl cp nd k :
  shown expanded tl [] cp = true →
  lookupPath tl cp = Some nd → expandable nd = true →
  join cp ∉ expanded → is_Some (children nd !! k) →
  shown (toggleExpanded expanded cp) tl [] (cp ++ [k]) = true.
Proof.
  rewrite !shown_visible. intros [_ Hall] Hcp Hexp Hout Hk.
  assert (cp ≠ []) as Hne by (by intros ->).
  split; [by rewrite lookupPath_snoc, Hcp |].
  intros q1 nd1 Hpre Hq1ne Hq1.
  apply prefix_snoc_inv in Hpre; [| done].
  destruct (decide (q1 = cp)) as [-> | Hq1cp].
  - assert (nd1 = nd) as -> by congruence.
    apply expandable_spec in Hexp as [? ?].
    split_and!; [| done | done]. simpl. by apply toggle_flips.
  - eapply descends_mono; [| by apply Hall].
    intros x Hx. apply elem_of_toggle_expand; auto.
Qed.

Lemma hidden_below_after_collapse expanded tl cp nd q :
  lookupPath tl cp = Some nd → join cp ∈ expanded → q ≠ [] →
  shown (toggleExpanded expanded cp) tl [] (cp ++ q) = false.
Proof.
  intros Hcp Hin Hq. apply not_true_iff_false.
  rewrite shown_visible. intros [_ Hall].
  destruct (Hall cp nd) as (Hin' & _); [by apply prefix_app_r | | done |].
  - intros Heq. apply Hq. apply (app_inv_head cp). by rewrite app_nil_r.
  - simpl in Hin'. by apply toggle_flips in Hin'.
Qed.

Lemma renderTable_Some st f tree :
  head (hierarchyFields st) = Some f → fullDataTree st = Some tree →
  renderTable st
    = Some (Table (fieldName f :: (fieldName <$> measureFields st))
              (renderTreeLevel (measureFields st) (expandedNodes st)
                 tree 0 [])).
Proof. unfold renderTable. by intros -> ->. Qed.

(** X19.  A click on the header of a drawn row that has the handler
    redraws the table with that row still in it and its expanded mark
    flipped.  When the row was collapsed, every child of its node now has
    a row, one level deeper; when it was expanded, no node below it is
    visible any more. *)
Theorem click_toggles_row st tree cp nd :
  hierarchyFields st ≠ [] →
  fullDataTree st = Some tree →
  shown (expandedNodes st) tree [] cp = true →
  lookupPath tree cp = Some nd →
  expandable nd = true →
  ∃ st' tbl,
    toggleNode st cp = Some st' ∧ crosstab st' = Some tbl
    ∧ renderRow (measureFields st)
        (negb (bool_decide (join cp ∈ expandedNodes st))) nd
        (length cp - 1) cp ∈ tbody tbl
    ∧ (join cp ∉ expandedNodes st →
       ∀ k c, children nd !! k = Some c →
         renderRow (measureFields st)
           (bool_decide (join (cp ++ [k]) ∈ expandedNodes st')) c
           (length cp) (cp ++ [k]) ∈ tbody tbl)
    ∧ (join cp ∈ expandedNodes st →
       ∀ q, q ≠ [] → shown (expandedNodes st') tree [] (cp ++ q) = false).
Proof.
  intros Hhf Htree Hshown Hcp Hexp.
  destruct (hierarchyFields st) as [| f hf'] eqn:Hf; [done |].
  unfold toggleNode.
  rewrite (renderTable_Some _ f tree) by (simpl; by rewrite ?Hf).
  simpl. eexists _, _. split; [done |]. simpl. split; [done |].
  assert (cp ≠ []) as Hne by (by intros ->).
  split_and!.
  - apply render_rows. exists cp, nd.
    split_and!; [by apply shown_toggle_self | done |]. simpl.
    f_equal. symmetry. destruct (decide (join cp ∈ expandedNodes st)) as [Hin | Hout].
    + rewrite (bool_decide_eq_true_2 _ Hin). simpl.
      apply bool_decide_eq_false_2. rewrite toggle_flips. tauto.
    + rewrite (bool_decide_eq_false_2 _ Hout). simpl.
      apply bool_decide_eq_true_2. by rewrite toggle_flips.
  - intros Hout k c Hc. apply render_rows. exists (cp ++ [k]), c.
    split_and!.
    + by eapply shown_child_after_expand.
    + by rewrite lookupPath_snoc, Hcp.
    + simpl. f_equal. rewrite length_app. simpl. lia.
  - intros Hin q Hq. by eapply hidden_below_after_collapse.
Qed.

End Clicks.

(** * Loading, and clicks after loading *)

Section Loading.

Implicit Types (st : state) (dt : dataTable) (tree : gmap string node).

(** The four ways [loadData] ends when the worksheet call resolves, from
    the start state. *)
Lemma loadData_cases dt :
  let fields := identifyFieldTypes (columns dt) in
  let st' := loadData initialState (Some dt) in
  (fields.1 = []
   ∧ st' = State fields.1 fields.2 None ∅ None
                 (Some NoHierarchyFieldsFound) false false)
  ∨ (fields.1 ≠ [] ∧ fields.2 = []
     ∧ st' = State fields.1 fields.2 None ∅ None
                   (Some NoMeasureFieldsFound) false false)
  ∨ (fields.1 ≠ [] ∧ fields.2 ≠ []
     ∧ buildHierarchicalTree fields.1 fields.2 (concat (pages dt)) = None
     ∧ st' = State fields.1 fields.2 None ∅ None
                   (Some ErrorLoadingData) false false)
  ∨ (∃ f tree,
       head fields.1 = Some f ∧ fields.2 ≠ []
       ∧ buildHierarchicalTree fields.1 fields.2 (concat (pages dt))
         = Some tree
       ∧ st' = State fields.1 fields.2 (Some tree) ∅
                 (Some (Table (fieldName f :: (fieldName <$> fields.2))
                          (renderTreeLevel fields.2 ∅ tree 0 [])))
                 None false true).
Proof.
  intros fields st'. subst st'. unfold loadData. fold fields.
  destruct fields.1 as [| f hs] eqn:Hh; simpl; [by left |].
  destruct fields.2 as [| m ms] eqn:Hm; simpl; [by right; left |].
  destruct (buildHierarchicalTree _ _ _) as [tree |] eqn:Hb.
  - right; right; right. by exists f, tree.
  - right; right; left. done.
Qed.


Lemma shown_collapsed tree q :
  shown ∅ tree [] q = true → ∃ k, q = [k].
Proof.
  destruct q as [| k rest]; [done |]. simpl.
  destruct (tree !! k) as [nd |]; [| done].
  destruct rest as [| k' rest]; [by exists k |].
  rewrite andb_true_iff, bool_decide_eq_true. intros [(Hin & _) _].
  set_solver.
Qed.

(** X21.  The table drawn by a load that ends without an error has the
    name of the first hierarchy field and the names of the measure fields
    as its header, and one row for each top-level node of the built tree,
    in key order; every row is at level 0 and collapsed. *)
Theorem first_table_top_level dt :
  let fields := identifyFieldTypes (columns dt) in
  let st' := loadData initialState (Some dt) in
  errorShown st' = None →
  ∃ f tree tbl,
    head fields.1 = Some f
    ∧ buildHierarchicalTree fields.1 fields.2 (concat (pages dt))
      = Some tree
    ∧ fullDataTree st' = Some tree
    ∧ expandedNodes st' = ∅
    ∧ crosstab st' = Some tbl
    ∧ thead tbl = fieldName f :: (fieldName <$> fields.2)
    ∧ data_path <$> tbody tbl = sortedKeys tree
    ∧ Forall (λ r, data_level r = 0 ∧ tr_expanded r = false) (tbody tbl).
Proof.
  intros fields st'.
  destruct (loadData_cases dt)
    as [[Hh Hst] | [(Hh & Hm & Hst) | [(Hh & Hm & Hb & Hst)
        | (f & tree & Hf & Hm & Hb & Hst)]]];
    fold fields st' in Hst; rewrite Hst; simpl; try done.
  intros _. eexists f, tree, _. split_and!; try done; simpl.
  - apply render_collapsed.
  - apply Forall_forall.
    intros r (q & nd & [k ->]%shown_collapsed & Hq & ->)%render_rows.
    simpl. split; [done |]. apply bool_decide_eq_false_2. set_solver.
Qed.

Lemma toggleNode_loaded st path :
  hierarchyFields st ≠ [] → is_Some (fullDataTree st) →
  ∃ st', toggleNode st path = Some st'
    ∧ hierarchyFields st' = hierarchyFields st
    ∧ measureFields st' = measureFields st
    ∧ fullDataTree st' = fullDataTree st
    ∧ expandedNodes st' = toggleExpanded (expandedNodes st) path
    ∧ crosstab st' = renderTable st'
    ∧ errorShown st' = errorShown st
    ∧ containerShown st' = containerShown st
    ∧ loadingShown st' = loadingShown st.
Proof.
  intros Hhf [tree Htree].
  destruct (hierarchyFields st) as [| f hf'] eqn:Hf; [done |].
  unfold toggleNode.
  rewrite (renderTable_Some _ f tree) by (simpl; by rewrite ?Hf).
  simpl. eexists. split; [done |]. simpl.
  split_and!; try done.
  unfold renderTable. simpl. by rewrite Hf, Htree.
Qed.

Lemma clicks_loaded paths : ∀ st,
  hierarchyFields st ≠ [] → is_Some (fullDataTree st) →
  crosstab st = renderTable st →
  ∃ st', clicks st paths = Some st'
    ∧ hierarchyFields st' = hierarchyFields st
    ∧ measureFields st' = measureFields st
    ∧ fullDataTree st' = fullDataTree st
    ∧ expandedNodes st' = foldl toggleExpanded (expandedNodes st) paths
    ∧ crosstab st' = renderTable st'
    ∧ errorShown st' = errorShown st
    ∧ containerShown st' = containerShown st
    ∧ loadingShown st' = loadingShown st.
Proof.
  induction paths as [| path paths IH]; intros st Hhf Htree Htbl.
  - exists st. by split_and!.
  - destruct (toggleNode_loaded st path Hhf Htree)
      as (st1 & Hst1 & Hhf1 & Hmf1 & Htree1 & Hexp1 & Htbl1 & He1 & Hc1 & Hl1).
    destruct (IH st1) as (st' & Hst' & ? & ? & ? & ? & ? & ? & ? & ?);
      [by rewrite Hhf1 | by rewrite Htree1 | done |].
    exists st'. unfold clicks in *. simpl. rewrite Hst1. simpl.
    split_and!;
      [done | congruence | congruence | congruence | simpl; congruence
      | done | congruence | congruence | congruence].
Qed.

(** X22.  After a load that ends without an error no click throws: any
    sequence of clicks runs to the end, leaves the fields and the tree as
    loaded, shows no error, and the table on the page is the rendering
    of the tree under the expansion set the toggles have produced from
    the empty set. *)
Theorem clicks_after_load dt paths :
  let st := loadData initialState (Some dt) in
  errorShown st = None →
  ∃ st', clicks st paths = Some st'
    ∧ hierarchyFields st' = hierarchyFields st
    ∧ measureFields st' = measureFields st
    ∧ fullDataTree st' = fullDataTree st
    ∧ expandedNodes st' = foldl toggleExpanded ∅ paths
    ∧ crosstab st' = renderTable st'
    ∧ errorShown st' = None
    ∧ containerShown st' = true.
Proof.
  intros st.
  destruct (loadData_cases dt)
    as [[Hh Hst] | [(Hh & Hm & Hst) | [(Hh & Hm & Hb & Hst)
        | (f & tree & Hf & Hm & Hb & Hst)]]];
    fold st in Hst; rewrite Hst; simpl; try done.
  intros _.
  set (fields := identifyFieldTypes (columns dt)) in *.
  set (st0 := State _ _ _ _ _ _ _ _).
  destruct (clicks_loaded paths st0)
    as (st' & Hst' & ? & ? & ? & ? & ? & ? & ? & ?).
  - simpl. by intros Heq; rewrite Heq in Hf.
  - by eexists.
  - symmetry. by apply renderTable_Some.
  - exists st'. by split_and!.
Qed.

End Loading.

(** * Cells and columns that are not read *)

Section NotRead.

Implicit Types (row : list value) (data : list (list value))
  (tree cur : gmap string node) (st : state).

Lemma storeMeasures_ext mf row row' ms :
  Forall (λ m, row !! index m = row' !! index m) mf →
  storeMeasures mf row ms = storeMeasures mf row' ms.
Proof.
  intros Hsame. revert ms.
  induction Hsame as [| m mf Hm _ IH]; intros ms; [done |].
  rewrite !storeMeasures_cons, <- Hm.
  destruct (row !! index m); simpl; [apply IH | done].
Qed.

Lemma readMeasures_ext mf row row' :
  Forall (λ m, row !! index m = row' !! index m) mf →
  readMeasures mf row = readMeasures mf row'.
Proof.
  induction 1 as [| m mf Hm _ IH]; [done |].
  rewrite !readMeasures_cons, <- Hm.
  destruct (row !! index m) as [v |]; simpl; [| done].
  by destruct (isPresent v).
Qed.

Lemma walkUndefined_ext row row' levels :
  Forall (λ lf : nat * field, row !! index lf.2 = row' !! index lf.2)
         levels →
  walkUndefined row levels = walkUndefined row' levels.
Proof.
  induction 1 as [| [L f] levels Hf _ IH]; [done |].
  rewrite !walkUndefined_cons. simpl in Hf. rewrite <- Hf.
  destruct (row !! index f) as [v |]; simpl; [| done].
  by destruct (isNullValue v).
Qed.

Lemma walkLevels_ext n mf row row' levels cur :
  Forall (λ lf : nat * field, row !! index lf.2 = row' !! index lf.2)
         levels →
  Forall (λ m, row !! index m = row' !! index m) mf →
  walkLevels n mf row levels cur = walkLevels n mf row' levels cur.
Proof.
  intros Hl Hm. revert cur.
  induction Hl as [| [L f] levels Hf Hl IH]; intros cur; [done |].
  simpl in Hf |- *. rewrite <- Hf.
  destruct (row !! index f) as [v |]; simpl; [| done].
  destruct (isNullValue v); [apply IH |].
  destruct (inheritedMember cur (propertyKey v)).
  - by rewrite (readMeasures_ext _ _ _ Hm), (walkUndefined_ext _ _ _ Hl).
  - rewrite (storeMeasures_ext _ _ _ _ Hm).
    destruct (storeMeasures mf row' _); simpl; [| done].
    by rewrite IH.
Qed.

Lemma processRow_ext hf mf tree row row' :
  Forall (λ f, row !! index f = row' !! index f) (hf ++ mf) →
  processRow hf mf tree row = processRow hf mf tree row'.
Proof.
  intros [Hh Hm]%Forall_app. rewrite !processRow_walkLevels.
  apply walkLevels_ext; [| done]. unfold indexed.
  by apply (Forall_imap_snd
              (λ f, row !! index f = row' !! index f) (λ i, i)).
Qed.

(** X23.  The builder reads a row only at the indices of the hierarchy
    and measure fields: data that agree, row by row, on the cells at those
    indices build the same tree, or both throw. *)
Theorem build_reads_only_field_cells hf mf data data' :
  Forall2 (λ row row',
             Forall (λ f, row !! index f = row' !! index f) (hf ++ mf))
          data data' →
  buildHierarchicalTree hf mf data = buildHierarchicalTree hf mf data'.
Proof.
  unfold buildHierarchicalTree. generalize (∅ : gmap string node).
  intros tree Hsame. revert tree.
  induction Hsame as [| row row' data data' Hrow _ IH]; intros tree;
    [done |].
  rewrite !buildFrom_cons, (processRow_ext _ _ _ _ _ Hrow).
  destruct (processRow hf mf tree row'); simpl; [apply IH | done].
Qed.

Lemma filter_classified (P : column → Prop) `{!∀ c, Decision (P c)}
    (columns : list column) :
  (∀ c, P c → ¬ otherColumn c) →
  filter P (filter (λ c, ¬ otherColumn c) columns) = filter P columns.
Proof.
  intros HP. induction columns as [| c columns IH]; [done |].
  destruct (decide (P c)) as [Hc | Hc].
  - rewrite (filter_cons_True (λ c, ¬ otherColumn c)) by by apply HP.
    rewrite !(filter_cons_True P) by done. by rewrite IH.
  - rewrite (filter_cons_False P _ _ Hc).
    destruct (decide (otherColumn c)) as [Ho | Ho].
    + rewrite (filter_cons_False (λ c, ¬ otherColumn c)) by tauto. done.
    + rewrite (filter_cons_True (λ c, ¬ otherColumn c)) by done.
      by rewrite (filter_cons_False P _ _ Hc).
Qed.

Lemma identifyFieldTypes_classified columns :
  identifyFieldTypes (filter (λ c, ¬ otherColumn c) columns)
    = identifyFieldTypes columns.
Proof.
  unfold identifyFieldTypes. rewrite !classify_foldl. simpl.
  rewrite !filter_classified; [done | |].
  - intros c Hm [_ Hnm]. done.
  - intros c Hh [Hnh _]. done.
Qed.

(** X24.  Columns whose type is neither a hierarchy type nor a measure
    type play no part: loading the data table with those columns taken
    out of the column list ends in the same state. *)
Theorem unclassified_columns_ignored st cols pgs :
  loadData st (Some (DataTable (filter (λ c, ¬ otherColumn c) cols) pgs))
    = loadData st (Some (DataTable cols pgs)).
Proof.
  unfold loadData. simpl. by rewrite identifyFieldTypes_classified.
Qed.

End NotRead.

(** * The further theorems at concrete inputs *)

Section MoreWitnesses.

Import Example.

Lemma build_paths_witness :
  buildHierarchicalTree hf mf rows = Some tree
  ∧ (is_Some (lookupPath tree ["US"; "TX"])
     ↔ ["US"; "TX"] ≠ []
       ∧ ∃ row, row ∈ rows ∧ ["US"; "TX"] `prefix_of` rowPath hf row).
Proof.
  assert (buildHierarchicalTree hf mf rows = Some tree) as Hb
    by (vm_compute; reflexivity).
  split; [exact Hb |].
  exact (build_paths hf mf rows tree ["US"; "TX"] Hb).
Defined.

Lemma stored_measure_from_one_row_witness :
  buildHierarchicalTree hf mf rows = Some tree
  ∧ (∀ v, storedMeasure tree ["US"] "sales" = Some v →
       isPresent v = true
       ∧ ∃ row m, row ∈ rows ∧ ["US"] `prefix_of` rowPath hf row
                  ∧ m ∈ mf ∧ fieldName m = "sales"
                  ∧ row !! index m = Some v)
  ∧ (is_Some (storedMeasure tree ["US"] "sales")
     ↔ "sales" ≠ "__proto__"
       ∧ ∃ row m v, row ∈ rows ∧ ["US"] ≠ []
                    ∧ ["US"] `prefix_of` rowPath hf row
                    ∧ m ∈ mf ∧ fieldName m = "sales"
                    ∧ row !! index m = Some v ∧ isPresent v = true).
Proof.
  assert (buildHierarchicalTree hf mf rows = Some tree) as Hb
    by (vm_compute; reflexivity).
  split; [exact Hb |].
  exact (stored_measure_from_one_row hf mf rows tree ["US"] "sales" Hb).
Defined.

Lemma node_key_is_name_witness :
  buildHierarchicalTree hf mf rows = Some tree
  ∧ lookupPath tree ["US"; "CA"] = Some (leaf "CA" "100")
  ∧ last ["US"; "CA"] = Some (propertyKey (name (leaf "CA" "100")))
  ∧ isNullValue (name (leaf "CA" "100")) = false.
Proof.
  assert (buildHierarchicalTree hf mf rows = Some tree) as Hb
    by (vm_compute; reflexivity).
  assert (lookupPath tree ["US"; "CA"] = Some (leaf "CA" "100")) as Hp
    by (vm_compute; reflexivity).
  split; [exact Hb |]. split; [exact Hp |].
  exact (node_key_is_name hf mf rows tree ["US"; "CA"] (leaf "CA" "100")
           Hb Hp).
Defined.

Lemma measure_cell_is_entry_witness :
  buildHierarchicalTree hf mf rows = Some tree
  ∧ lookupPath tree ["US"] = Some usNode
  ∧ (∀ x v, measures usNode !! x = Some v →
       isPresent v = true ∧ x ∈ fieldName <$> mf ∧ x ≠ "__proto__")
  ∧ (∀ m, measureCell usNode m =
       match measures usNode !! fieldName m with
       | Some v => ValueCell v
       | None => if inherited (fieldName m) then MemberCell (fieldName m)
                 else EmptyCell
       end)
  ∧ ∀ m, measureCell usNode m = EmptyCell
         ↔ measures usNode !! fieldName m = None
           ∧ inherited (fieldName m) = false.
Proof.
  assert (buildHierarchicalTree hf mf rows = Some tree) as Hb
    by (vm_compute; reflexivity).
  assert (lookupPath tree ["US"] = Some usNode) as Hp
    by (vm_compute; reflexivity).
  split; [exact Hb |]. split; [exact Hp |].
  exact (measure_cell_is_entry hf mf rows tree ["US"] usNode Hb Hp).
Defined.

Lemma hasChildren_is_level_test_witness :
  buildHierarchicalTree hf mf rows = Some tree
  ∧ lookupPath tree ["US"; "TX"] = Some (leaf "TX" "50")
  ∧ (hasChildren (leaf "TX" "50") = true
     ↔ S (level (leaf "TX" "50")) < length hf)
  ∧ (hasChildren (leaf "TX" "50") = false
     ↔ S (level (leaf "TX" "50")) = length hf).
Proof.
  assert (buildHierarchicalTree hf mf rows = Some tree) as Hb
    by (vm_compute; reflexivity).
  assert (lookupPath tree ["US"; "TX"] = Some (leaf "TX" "50")) as Hp
    by (vm_compute; reflexivity).
  split; [exact Hb |]. split; [exact Hp |].
  exact (hasChildren_is_level_test hf mf rows tree ["US"; "TX"]
           (leaf "TX" "50") Hb Hp).
Defined.

Lemma trailing_nulls_expandable_witness :
  Forall (λ row, nullsTrailing (hierarchyCells hf row) = true) rows
  ∧ buildHierarchicalTree hf mf rows = Some tree
  ∧ lookupPath tree ["US"] = Some usNode
  ∧ (expandable usNode = true ↔ children usNode ≠ ∅)
  ∧ ∀ expanded,
      descends expanded usNode ["US"]
      ↔ join ["US"] ∈ expanded ∧ children usNode ≠ ∅.
Proof.
  assert (Forall (λ row, nullsTrailing (hierarchyCells hf row) = true) rows)
    as Htrail by (repeat constructor).
  assert (buildHierarchicalTree hf mf rows = Some tree) as Hb
    by (vm_compute; reflexivity).
  assert (lookupPath tree ["US"] = Some usNode) as Hp
    by (vm_compute; reflexivity).
  split; [exact Htrail |]. split; [exact Hb |]. split; [exact Hp |].
  exact (trailing_nulls_expandable hf mf rows tree ["US"] usNode
           Htrail Hb Hp).
Defined.

Lemma row_order_keeps_shape_witness :
  [firstRow; texasRow] ≡ₚ [texasRow; firstRow]
  ∧ buildHierarchicalTree hf mf [firstRow; texasRow]
    = Some {[ "US" := usNode ]}
  ∧ ∃ tree',
      buildHierarchicalTree hf mf [texasRow; firstRow] = Some tree'
      ∧ (∀ p, is_Some (lookupPath tree' p)
              ↔ is_Some (lookupPath {[ "US" := usNode ]} p))
      ∧ ∀ p x, is_Some (storedMeasure tree' p x)
               ↔ is_Some (storedMeasure {[ "US" := usNode ]} p x).
Proof.
  assert ([firstRow; texasRow] ≡ₚ [texasRow; firstRow]) as Hperm
    by apply perm_swap.
  assert (buildHierarchicalTree hf mf [firstRow; texasRow]
          = Some {[ "US" := usNode ]}) as Hb
    by (vm_compute; reflexivity).
  split; [exact Hperm |]. split; [exact Hb |].
  exact (row_order_keeps_shape hf mf [firstRow; texasRow]
           [texasRow; firstRow] {[ "US" := usNode ]} Hperm Hb).
Defined.

Lemma render_ignores_other_keys_witness :
  (∀ q, is_Some (lookupPath (children caNode) q) →
     join (["CA"] ++ q) ∈ (∅ : gset string)
     ↔ join (["CA"] ++ q) ∈ ({[ "US" ]} : gset string))
  ∧ renderTreeLevel mf ∅ (children caNode) 1 ["CA"]
    = renderTreeLevel mf {[ "US" ]} (children caNode) 1 ["CA"].
Proof.
  assert (∀ q, is_Some (lookupPath (children caNode) q) →
            join (["CA"] ++ q) ∈ (∅ : gset string)
            ↔ join (["CA"] ++ q) ∈ ({[ "US" ]} : gset string)) as Hsame.
  { intros q Hq.
    assert (q = ["ON"]) as ->.
    { destruct q as [| k q]; [by destruct Hq |].
      rewrite lookupPath_cons in Hq.
      change (children caNode)
        with ({[ "ON" := leaf "ON" "30" ]} : gmap string node) in Hq.
      destruct (decide (k = "ON")) as [-> | Hk].
      - rewrite lookup_singleton_eq in Hq.
        destruct q as [| k' q]; [done |].
        change (is_Some (lookupPath ∅ (k' :: q))) in Hq.
        rewrite lookupPath_empty in Hq. by destruct Hq.
      - rewrite lookup_singleton_ne in Hq by done. by destruct Hq. }
    split; [by intros ?%elem_of_empty |].
    intros Hin%elem_of_singleton. by vm_compute in Hin. }
  split; [exact Hsame |].
  exact (render_ignores_other_keys mf ∅ {[ "US" ]} (children caNode) 1
           ["CA"] Hsame).
Defined.

Lemma larger_set_keeps_rows_witness :
  (∅ : gset string) ⊆ {[ "US" ]}
  ∧ renderRow mf false caNode 0 ["CA"] ∈ renderTreeLevel mf ∅ tree 0 []
  ∧ ∃ r', r' ∈ renderTreeLevel mf {[ "US" ]} tree 0 []
      ∧ data_level r' = data_level (renderRow mf false caNode 0 ["CA"])
      ∧ data_path r' = data_path (renderRow mf false caNode 0 ["CA"])
      ∧ tr_name r' = tr_name (renderRow mf false caNode 0 ["CA"])
      ∧ tr_cells r' = tr_cells (renderRow mf false caNode 0 ["CA"])
      ∧ tr_icon r' = tr_icon (renderRow mf false caNode 0 ["CA"])
      ∧ tr_click r' = tr_click (renderRow mf false caNode 0 ["CA"]).
Proof.
  assert ((∅ : gset string) ⊆ {[ "US" ]}) as Hsub by apply empty_subseteq.
  assert (renderRow mf false caNode 0 ["CA"]
          ∈ renderTreeLevel mf ∅ tree 0 []) as Hin.
  { vm_compute. left. }
  split; [exact Hsub |]. split; [exact Hin |].
  exact (larger_set_keeps_rows mf ∅ {[ "US" ]} tree 0 []
           (renderRow mf false caNode 0 ["CA"]) Hsub Hin).
Defined.

Lemma join_injective_witness :
  ["US"; "CA"] ≠ [] ∧ ["US"; "CA"] ≠ []
  ∧ Forall (λ k, barFree k = true) ["US"; "CA"]
  ∧ Forall (λ k, barFree k = true) ["US"; "CA"]
  ∧ join ["US"; "CA"] = join ["US"; "CA"]
  ∧ ["US"; "CA"] = ["US"; "CA"].
Proof.
  assert (["US"; "CA"] ≠ []) as Hne by discriminate.
  assert (Forall (λ k, barFree k = true) ["US"; "CA"]) as Hbar
    by (repeat constructor).
  split_and!; [exact Hne | exact Hne | exact Hbar | exact Hbar
              | reflexivity |].
  exact (join_injective ["US"; "CA"] ["US"; "CA"] Hne Hne Hbar Hbar
           eq_refl).
Defined.

Lemma toggles_commute_witness :
  toRemove (join ["US"]) (join ["CA"]) = false
  ∧ toRemove (join ["CA"]) (join ["US"]) = false
  ∧ toggleExpanded (toggleExpanded {[ "US" ]} ["US"]) ["CA"]
    = toggleExpanded (toggleExpanded {[ "US" ]} ["CA"]) ["US"].
Proof.
  split_and!; [reflexivity | reflexivity |].
  exact (toggles_commute {[ "US" ]} ["US"] ["CA"] eq_refl eq_refl).
Defined.

Lemma click_toggles_row_witness :
  let st := State hf mf (Some tree) ∅ None None false true in
  hierarchyFields st ≠ []
  ∧ fullDataTree st = Some tree
  ∧ shown (expandedNodes st) tree [] ["US"] = true
  ∧ lookupPath tree ["US"] = Some usNode
  ∧ expandable usNode = true
  ∧ ∃ st' tbl,
      toggleNode st ["US"] = Some st' ∧ crosstab st' = Some tbl
      ∧ renderRow (measureFields st)
          (negb (bool_decide (join ["US"] ∈ expandedNodes st))) usNode
          (length ["US"] - 1) ["US"] ∈ tbody tbl
      ∧ (join ["US"] ∉ expandedNodes st →
         ∀ k c, children usNode !! k = Some c →
           renderRow (measureFields st)
             (bool_decide (join (["US"] ++ [k]) ∈ expandedNodes st')) c
             (length ["US"]) (["US"] ++ [k]) ∈ tbody tbl)
      ∧ (join ["US"] ∈ expandedNodes st →
         ∀ q, q ≠ [] →
           shown (expandedNodes st') tree [] (["US"] ++ q) = false).
Proof.
  intros st.
  assert (hierarchyFields st ≠ []) as Hhf by discriminate.
  assert (shown (expandedNodes st) tree [] ["US"] = true) as Hshown
    by (vm_compute; reflexivity).
  assert (lookupPath tree ["US"] = Some usNode) as Hp
    by (vm_compute; reflexivity).
  assert (expandable usNode = true) as Hexp by (vm_compute; reflexivity).
  split_and!; [exact Hhf | reflexivity | exact Hshown | exact Hp
              | exact Hexp |].
  exact (click_toggles_row st tree ["US"] usNode Hhf eq_refl Hshown Hp
           Hexp).
Defined.

Lemma first_table_top_level_witness :
  let dt := DataTable exampleColumns [rows] in
  let fields := identifyFieldTypes (columns dt) in
  let st' := loadData initialState (Some dt) in
  errorShown st' = None
  ∧ ∃ f tree tbl,
      head fields.1 = Some f
      ∧ buildHierarchicalTree fields.1 fields.2 (concat (pages dt))
        = Some tree
      ∧ fullDataTree st' = Some tree
      ∧ expandedNodes st' = ∅
      ∧ crosstab st' = Some tbl
      ∧ thead tbl = fieldName f :: (fieldName <$> fields.2)
      ∧ data_path <$> tbody tbl = sortedKeys tree
      ∧ Forall (λ r, data_level r = 0 ∧ tr_expanded r = false) (tbody tbl).
Proof.
  intros dt fields st'.
  assert (errorShown st' = None) as Hok by (vm_compute; reflexivity).
  split; [exact Hok |].
  exact (first_table_top_level dt Hok).
Defined.

Lemma clicks_after_load_witness :
  let dt := DataTable exampleColumns [rows] in
  let st := loadData initialState (Some dt) in
  let paths := [["US"]; ["US"; "CA"]; ["US"]] in
  errorShown st = None
  ∧ ∃ st', clicks st paths = Some st'
      ∧ hierarchyFields st' = hierarchyFields st
      ∧ measureFields st' = measureFields st
      ∧ fullDataTree st' = fullDataTree st
      ∧ expandedNodes st' = foldl toggleExpanded ∅ paths
      ∧ crosstab st' = renderTable st'
      ∧ errorShown st' = None
      ∧ containerShown st' = true.
Proof.
  intros dt st paths.
  assert (errorShown st = None) as Hok by (vm_compute; reflexivity).
  split; [exact Hok |].
  exact (clicks_after_load dt paths Hok).
Defined.

Lemma top_node_from_own_rows_witness :
  buildHierarchicalTree hf mf rows = Some tree
  ∧ ∃ tree_k,
      buildHierarchicalTree hf mf
        (filter (λ row, head (rowPath hf row) = Some "US") rows)
        = Some tree_k
      ∧ tree_k !! "US" = tree !! "US"
      ∧ ∀ k', k' ≠ "US" → tree_k !! k' = None.
Proof.
  assert (buildHierarchicalTree hf mf rows = Some tree) as Hb
    by (vm_compute; reflexivity).
  split; [exact Hb |].
  exact (top_node_from_own_rows hf mf rows tree "US" Hb).
Defined.

Lemma empty_tree_iff_no_keys_witness :
  buildHierarchicalTree hf mf [[VNull; VNull; VNum "5"]] = Some ∅
  ∧ ((∅ : gmap string node) = ∅
     ↔ Forall (λ row, ∀ k, head (hierarchyKeys hf row) = Some k →
                           inherited k = true)
              [[VNull; VNull; VNum "5"]]).
Proof.
  assert (buildHierarchicalTree hf mf [[VNull; VNull; VNum "5"]] = Some ∅)
    as Hb by (vm_compute; reflexivity).
  split; [exact Hb |].
  exact (empty_tree_iff_no_keys hf mf [[VNull; VNull; VNum "5"]] ∅ Hb).
Defined.

Lemma built_rows_bounded_witness :
  buildHierarchicalTree hf mf rows = Some tree
  ∧ Forall (λ r, data_level r < length hf
                 ∧ isNullValue (tr_name r) = false)
           (renderTreeLevel mf {[ "US" ]} tree 0 []).
Proof.
  assert (buildHierarchicalTree hf mf rows = Some tree) as Hb
    by (vm_compute; reflexivity).
  split; [exact Hb |].
  exact (built_rows_bounded hf mf rows tree {[ "US" ]} Hb).
Defined.

Lemma build_reads_only_field_cells_witness :
  Forall2 (λ row row',
             Forall (λ f, row !! index f = row' !! index f) (hf ++ mf))
          [[VStr "US"; VStr "CA"; VNum "100"; VStr "note"]] [firstRow]
  ∧ buildHierarchicalTree hf mf
      [[VStr "US"; VStr "CA"; VNum "100"; VStr "note"]]
    = buildHierarchicalTree hf mf [firstRow].
Proof.
  assert (Forall2 (λ row row',
             Forall (λ f, row !! index f = row' !! index f) (hf ++ mf))
          [[VStr "US"; VStr "CA"; VNum "100"; VStr "note"]] [firstRow])
    as Hsame by (repeat constructor).
  split; [exact Hsame |].
  exact (build_reads_only_field_cells hf mf _ _ Hsame).
Defined.


End MoreWitnesses.
